(** * netdb: the protocol and service tables of [netdb.go]

    A shallow embedding of the Go package [netdb] (file [netdb.go]):
    the two record types, the package initialiser that fills the
    package-level slices [Protocols] and [Services] from the text of
    [/etc/protocols] and [/etc/services], and the four lookup functions.

    Go strings are byte sequences; they are modelled as [list ascii].
    The functions of the Go standard library that [init] calls
    ([strings.Split], [strings.SplitN], [strings.TrimSpace],
    [strings.Fields], [strconv.ParseInt]) are modelled after the library's
    own code, UTF-8 decoding included, since [TrimSpace] and [Fields] work
    on runes; white space is that of the Unicode tables of the current Go
    releases.  The package-level slices are a state that the code of
    [init] is run on, and a panic keeps the state it was raised in. *)

From Stdlib Require Import Ascii String List ZArith Lia Bool.
Import ListNotations.

#[local] Open Scope Z_scope.

(** ** Bytes and strings *)

Definition gostring : Type := list ascii.

(** A string literal as a Go string. *)
Definition str (s : string) : gostring := list_ascii_of_string s.

(** The line feed of ["\n"] and the carriage return of ["\r"]. *)
Definition LF : ascii := "010"%char.
Definition CR : ascii := "013"%char.

(** The numeric value of a byte. *)
Definition b (c : ascii) : Z := Z.of_N (N_of_ascii c).

Definition gostring_eqb (x y : gostring) : bool :=
  if list_eq_dec ascii_dec x y then true else false.

(** [s[i]] as a number; the callers below stay inside the bounds. *)
Definition byteAt (s : gostring) (i : nat) : Z := b (nth i s zero).

(** ** Package [unicode/utf8] *)

Module utf8.

Definition RuneError : Z := 0xFFFD.
Definition RuneSelf : Z := 0x80.
Definition UTFMax : nat := 4.

Definition maskx : Z := 0x3F.
Definition mask2 : Z := 0x1F.
Definition mask3 : Z := 0x0F.
Definition mask4 : Z := 0x07.

Definition locb : Z := 0x80.
Definition hicb : Z := 0xBF.

Definition xx : Z := 0xF1.
Definition as_ : Z := 0xF0.
Definition s1 : Z := 0x02.
Definition s2 : Z := 0x13.
Definition s3 : Z := 0x03.
Definition s4 : Z := 0x23.
Definition s5 : Z := 0x34.
Definition s6 : Z := 0x04.
Definition s7 : Z := 0x44.

(** The table [first], indexed by the first byte of a sequence. *)
Definition first (c : Z) : Z :=
  if c <? 0x80 then as_
  else if c <? 0xC2 then xx
  else if c <? 0xE0 then s1
  else if c =? 0xE0 then s2
  else if c <? 0xED then s3
  else if c =? 0xED then s4
  else if c <? 0xF0 then s3
  else if c =? 0xF0 then s5
  else if c <? 0xF4 then s6
  else if c =? 0xF4 then s7
  else xx.

(** The table [acceptRanges]: bounds of the second byte. *)
Definition acceptRanges (i : Z) : Z * Z :=
  if i =? 0 then (locb, hicb)
  else if i =? 1 then (0xA0, hicb)
  else if i =? 2 then (locb, 0x9F)
  else if i =? 3 then (0x90, hicb)
  else if i =? 4 then (locb, 0x8F)
  else (0, 0).

(** [DecodeRuneInString]: the first rune of [s] and its width in bytes;
    [(RuneError, 0)] on the empty string, [(RuneError, 1)] on an invalid
    encoding. *)
Definition DecodeRuneInString (s : gostring) : Z * nat :=
  let n := length s in
  if (n <? 1)%nat then (RuneError, 0%nat)
  else
    let s0 := byteAt s 0 in
    let x := first s0 in
    if as_ <=? x then ((if Z.testbit x 0 then RuneError else s0), 1%nat)
    else
      let sz := Z.to_nat (Z.land x 7) in
      let accept := acceptRanges (Z.shiftr x 4) in
      if (n <? sz)%nat then (RuneError, 1%nat)
      else
        let s1 := byteAt s 1 in
        if (s1 <? fst accept) || (snd accept <? s1) then (RuneError, 1%nat)
        else if (sz <=? 2)%nat
        then (Z.lor (Z.shiftl (Z.land s0 mask2) 6) (Z.land s1 maskx), 2%nat)
        else
          let s2 := byteAt s 2 in
          if (s2 <? locb) || (hicb <? s2) then (RuneError, 1%nat)
          else if (sz <=? 3)%nat
          then (Z.lor (Z.lor (Z.shiftl (Z.land s0 mask3) 12)
                             (Z.shiftl (Z.land s1 maskx) 6))
                      (Z.land s2 maskx), 3%nat)
          else
            let s3 := byteAt s 3 in
            if (s3 <? locb) || (hicb <? s3) then (RuneError, 1%nat)
            else (Z.lor (Z.lor (Z.lor (Z.shiftl (Z.land s0 mask4) 18)
                                      (Z.shiftl (Z.land s1 maskx) 12))
                               (Z.shiftl (Z.land s2 maskx) 6))
                        (Z.land s3 maskx), 4%nat).

(** [RuneStart]: the byte is not a continuation byte. *)
Definition RuneStart (c : Z) : bool := negb (Z.land c 0xC0 =? 0x80).

(** The backward search of [DecodeLastRuneInString] for the start of the
    last rune: [start] runs down from [end - 2] while it is at least [lim]
    and [s[start]] is a continuation byte.  [None] stands for an index
    below zero. *)
Fixpoint backToRuneStart (k : nat) (s : gostring) (start lim : nat)
  : option nat :=
  match k with
  | O => Some start
  | S k' =>
      if (start <? lim)%nat then Some start
      else if RuneStart (byteAt s start) then Some start
      else match start with
           | O => None
           | S start' => backToRuneStart k' s start' lim
           end
  end.

(** [DecodeLastRuneInString]: the last rune of [s] and its width. *)
Definition DecodeLastRuneInString (s : gostring) : Z * nat :=
  let end_ := length s in
  match end_ with
  | O => (RuneError, 0%nat)
  | S start =>
      let r := byteAt s start in
      if r <? RuneSelf then (r, 1%nat)
      else
        let lim := (end_ - UTFMax)%nat in
        let start :=
          match start with
          | O => O
          | S start' =>
              match backToRuneStart UTFMax s start' lim with
              | Some i => i
              | None => O
              end
          end in
        let '(r, size) := DecodeRuneInString (skipn start s) in
        if (start + size =? end_)%nat then (r, size)
        else (RuneError, 1%nat)
  end.

(** The runes of [s] in order, as a [for _, r := range s] loop visits
    them, each with the bytes it was decoded from. *)
Fixpoint runes (fuel : nat) (s : gostring) : list (Z * gostring) :=
  match fuel with
  | O => []
  | S fuel' =>
      match s with
      | [] => []
      | _ :: _ =>
          let '(r, size) := DecodeRuneInString s in
          (r, firstn size s) :: runes fuel' (skipn size s)
      end
  end.

Definition rangeString (s : gostring) : list (Z * gostring) :=
  runes (length s) s.

End utf8.

(** ** Package [unicode] *)

Module unicode.

Definition MaxLatin1 : Z := 0xFF.

(** The range table [White_Space]. *)
Definition White_Space : list (Z * Z) :=
  [ (0x0009, 0x000d); (0x0020, 0x0020); (0x0085, 0x0085); (0x00a0, 0x00a0);
    (0x1680, 0x1680); (0x2000, 0x200a); (0x2028, 0x2029); (0x202f, 0x202f);
    (0x205f, 0x205f); (0x3000, 0x3000) ].

Definition inTable (t : list (Z * Z)) (r : Z) : bool :=
  existsb (fun '(lo, hi) => (lo <=? r) && (r <=? hi)) t.

Definition IsSpace (r : Z) : bool :=
  if (0 <=? r) && (r <=? MaxLatin1)
  then (r =? 9) || (r =? 10) || (r =? 11) || (r =? 12) || (r =? 13)
       || (r =? 32) || (r =? 0x85) || (r =? 0xA0)
  else inTable White_Space r.

End unicode.

(** ** Package [strings] *)

Module strings.

(** [HasPrefix(s, prefix)]. *)
Fixpoint HasPrefix (s prefix : gostring) : bool :=
  match prefix, s with
  | [], _ => true
  | _ :: _, [] => false
  | p :: prefix', c :: s' => Ascii.eqb c p && HasPrefix s' prefix'
  end.

(** [Index(s, substr)]: the index of the first instance of [substr] in
    [s]; [None] stands for the result -1. *)
Fixpoint Index (s substr : gostring) : option nat :=
  if HasPrefix s substr then Some O
  else match s with
       | [] => None
       | _ :: s' => option_map S (Index s' substr)
       end.

(** [Count(s, substr)] for a non-empty [substr]: the number of
    non-overlapping instances, counted by repeated [Index]. *)
Fixpoint Count_loop (fuel : nat) (s substr : gostring) (n : nat) : nat :=
  match fuel with
  | O => n
  | S fuel' =>
      match Index s substr with
      | None => n
      | Some i => Count_loop fuel' (skipn (i + length substr) s) substr (S n)
      end
  end.

Definition Count (s substr : gostring) : nat :=
  Count_loop (length s) s substr O.

(** The loop of [genSplit]: at most [k] cuts, the rest of the string is
    the last element. *)
Fixpoint genSplit_loop (k : nat) (s sep : gostring) (sepSave : nat)
  : list gostring :=
  match k with
  | O => [s]
  | S k' =>
      match Index s sep with
      | None => [s]
      | Some m =>
          firstn (m + sepSave) s
            :: genSplit_loop k' (skipn (m + length sep) s) sep sepSave
      end
  end.

(** [genSplit(s, sep, sepSave, n)].  Every call of the package passes a
    one-byte separator; the library's branch for the empty separator
    (one element per UTF-8 sequence) is outside this model, which leaves
    the string whole there. *)
Definition genSplit (s sep : gostring) (sepSave : nat) (n : Z)
  : list gostring :=
  if n =? 0 then []
  else match sep with
       | [] => [s]
       | _ :: _ =>
           let n := if n <? 0 then Z.of_nat (Count s sep) + 1 else n in
           let n := if Z.of_nat (length s) + 1 <? n
                    then Z.of_nat (length s) + 1 else n in
           genSplit_loop (Z.to_nat (n - 1)) s sep sepSave
       end.

Definition SplitN (s sep : gostring) (n : Z) : list gostring :=
  genSplit s sep 0 n.

Definition Split (s sep : gostring) : list gostring :=
  genSplit s sep 0 (-1).

(** [indexFunc(s, f, truth)]: the byte index of the first rune [r] with
    [f(r) == truth]; [None] stands for -1. *)
Fixpoint indexFunc_loop (rs : list (Z * gostring)) (f : Z -> bool)
  (truth : bool) (i : nat) : option nat :=
  match rs with
  | [] => None
  | (r, bytes) :: rs' =>
      if Bool.eqb (f r) truth then Some i
      else indexFunc_loop rs' f truth (i + length bytes)
  end.

Definition indexFunc (s : gostring) (f : Z -> bool) (truth : bool)
  : option nat :=
  indexFunc_loop (utf8.rangeString s) f truth O.

(** [lastIndexFunc(s, f, truth)]: the same from the end of [s], decoding
    the last rune of [s[0:i]] at each step. *)
Fixpoint lastIndexFunc_loop (fuel : nat) (s : gostring) (f : Z -> bool)
  (truth : bool) (i : nat) : option nat :=
  match fuel with
  | O => None
  | S fuel' =>
      if (0 <? i)%nat then
        let '(r, size) := utf8.DecodeLastRuneInString (firstn i s) in
        let i := (i - size)%nat in
        if Bool.eqb (f r) truth then Some i
        else lastIndexFunc_loop fuel' s f truth i
      else None
  end.

Definition lastIndexFunc (s : gostring) (f : Z -> bool) (truth : bool)
  : option nat :=
  lastIndexFunc_loop (S (length s)) s f truth (length s).

Definition TrimLeftFunc (s : gostring) (f : Z -> bool) : gostring :=
  match indexFunc s f false with
  | None => []
  | Some i => skipn i s
  end.

Definition TrimRightFunc (s : gostring) (f : Z -> bool) : gostring :=
  match lastIndexFunc s f false with
  | Some i =>
      if utf8.RuneSelf <=? byteAt s i
      then let '(_, wid) := utf8.DecodeRuneInString (skipn i s) in
           firstn (i + wid) s
      else firstn (i + 1) s
  | None => firstn 0 s
  end.

Definition TrimFunc (s : gostring) (f : Z -> bool) : gostring :=
  TrimRightFunc (TrimLeftFunc s f) f.

(** [TrimSpace(s)]: [s] without its leading and trailing white space, as
    Unicode defines it. *)
Definition TrimSpace (s : gostring) : gostring :=
  TrimFunc s unicode.IsSpace.

(** The loop of [FieldsFunc] over the runes of the string.  [cur] is the
    field being read, [s[start:end]] in the library's code, and [None]
    when [start] is negative. *)
Fixpoint FieldsFunc_loop (rs : list (Z * gostring)) (f : Z -> bool)
  (cur : option gostring) : list gostring :=
  match rs with
  | [] => match cur with
          | Some w => [w]
          | None => []
          end
  | (r, bytes) :: rs' =>
      if f r then
        match cur with
        | Some w => w :: FieldsFunc_loop rs' f None
        | None => FieldsFunc_loop rs' f None
        end
      else
        match cur with
        | Some w => FieldsFunc_loop rs' f (Some (w ++ bytes))
        | None => FieldsFunc_loop rs' f (Some bytes)
        end
  end.

Definition FieldsFunc (s : gostring) (f : Z -> bool) : list gostring :=
  FieldsFunc_loop (utf8.rangeString s) f None.

(** [Fields(s)]: [s] split around each run of white space. *)
Definition Fields (s : gostring) : list gostring :=
  FieldsFunc s unicode.IsSpace.

End strings.

(** ** Package [strconv] *)

Module strconv.

Inductive Error : Type :=
| ErrSyntax
| ErrRange.

(** [*NumError]: the function that failed, its input and the reason. *)
Record NumError : Type := mkNumError {
  Func : string;
  Num : gostring;
  Err : Error
}.

Definition syntaxError (fn : string) (s : gostring) : NumError :=
  mkNumError fn s ErrSyntax.

Definition rangeError (fn : string) (s : gostring) : NumError :=
  mkNumError fn s ErrRange.

Definition maxUint64 : Z := 2 ^ 64 - 1.

(** Arithmetic of [uint64]. *)
Definition u64 (z : Z) : Z := z mod 2 ^ 64.

Definition lower (c : Z) : Z := Z.lor c 0x20.

(** The digit loop of [ParseUint] over the bytes of the string. *)
Fixpoint ParseUint_loop (bs : gostring) (s0 : gostring) (base : Z)
  (cutoff maxVal : Z) (n : Z) : Z * option NumError :=
  match bs with
  | [] => (n, None)
  | c :: bs' =>
      let c := b c in
      let d :=
        if (0x30 <=? c) && (c <=? 0x39) then Some (c - 0x30)
        else if (0x61 <=? lower c) && (lower c <=? 0x7A)
             then Some (lower c - 0x61 + 10)
             else None in
      match d with
      | None => (0, Some (syntaxError "ParseUint" s0))
      | Some d =>
          if base <=? d then (0, Some (syntaxError "ParseUint" s0))
          else if cutoff <=? n then (maxVal, Some (rangeError "ParseUint" s0))
          else
            let n := u64 (n * base) in
            let n1 := u64 (n + d) in
            if (n1 <? n) || (maxVal <? n1)
            then (maxVal, Some (rangeError "ParseUint" s0))
            else ParseUint_loop bs' s0 base cutoff maxVal n1
      end
  end.

(** [ParseUint(s, base, bitSize)] for an explicit base from 2 to 36 and a
    bit size from 1 to 64, the case of the package (base 10, 32 bits).
    The prefix-driven base 0 and the bit size 0 are outside this model. *)
Definition ParseUint (s : gostring) (base bitSize : Z)
  : Z * option NumError :=
  match s with
  | [] => (0, Some (syntaxError "ParseUint" s))
  | _ :: _ =>
      let cutoff := maxUint64 / base + 1 in
      let maxVal := u64 (u64 (Z.shiftl 1 bitSize) - 1) in
      ParseUint_loop s s base cutoff maxVal 0
  end.

(** [ParseInt(s, base, bitSize)]: the value and the error, [None] for
    [nil]. *)
Definition ParseInt (s : gostring) (base bitSize : Z)
  : Z * option NumError :=
  match s with
  | [] => (0, Some (syntaxError "ParseInt" s))
  | c :: s' =>
      let s0 := s in
      let '(neg, s) :=
        if Ascii.eqb c "+" then (false, s')
        else if Ascii.eqb c "-" then (true, s')
        else (false, s) in
      let '(un, err) := ParseUint s base bitSize in
      let syntaxFailure :=
        match err with
        | Some e => match Err e with
                    | ErrRange => None
                    | ErrSyntax => Some (mkNumError "ParseInt" s0 (Err e))
                    end
        | None => None
        end in
      match syntaxFailure with
      | Some e => (0, Some e)
      | None =>
          let cutoff := Z.shiftl 1 (bitSize - 1) in
          if negb neg && (cutoff <=? un)
          then (cutoff - 1, Some (rangeError "ParseInt" s0))
          else if neg && (cutoff <? un)
          then (- cutoff, Some (rangeError "ParseInt" s0))
          else ((if neg then - un else un), None)
      end
  end.

End strconv.

(** ** Package [io/ioutil] *)

Module ioutil.

(** [*os.PathError]. *)
Record PathError : Type := mkPathError {
  Op : string;
  Path : string
}.

(** The files of the machine the process starts on, as [ReadFile] sees
    them: the content of a file or the error of reading it. *)
Definition FileSystem : Type := string -> gostring + PathError.

Definition ReadFile (fs : FileSystem) (filename : string)
  : gostring + PathError :=
  fs filename.

End ioutil.

(** ** Package [netdb] *)

Module Protoent.
Record t : Type := mk {
  Name : gostring;
  Aliases : list gostring;
  Number : Z
}.
(** The zero value [Protoent{}]. *)
Definition zero : t := mk [] [] 0.
End Protoent.

Module Servent.
Record t : Type := mk {
  Name : gostring;
  Aliases : list gostring;
  Port : Z;
  Protocol : gostring
}.
(** The zero value [Servent{}]. *)
Definition zero : t := mk [] [] 0 [].
End Servent.

(** The package-level variables. *)
Record Globals : Type := mkGlobals {
  Protocols : list Protoent.t;
  Services : list Servent.t
}.

(** Both slices are [nil] when the program starts. *)
Definition startup : Globals := mkGlobals [] [].

(** Values of the interface type [error] that reach a [panic]. *)
Inductive error : Type :=
| PathErr (e : ioutil.PathError)
| NumErr (e : strconv.NumError).

(** What a panic carries: the argument of [panic(err)], or the run-time
    error of an index or a slice bound out of range. *)
Inductive PanicValue : Type :=
| ErrorValue (e : error)
| IndexOutOfRange (index len : nat)
| SliceBoundsOutOfRange (bound len : nat).

(** The result of running a piece of code on the package-level variables:
    it returns a value, or it panics; either way the variables are as the
    code left them. *)
Inductive Outcome (A : Type) : Type :=
| Returned (a : A) (g : Globals)
| Panicked (v : PanicValue) (g : Globals).

Arguments Returned {A} a g.
Arguments Panicked {A} v g.

Definition M (A : Type) : Type := Globals -> Outcome A.

Definition ret {A : Type} (a : A) : M A := fun g => Returned a g.

Definition bind {A B : Type} (m : M A) (k : A -> M B) : M B :=
  fun g =>
    match m g with
    | Returned a g' => k a g'
    | Panicked v g' => Panicked v g'
    end.

Definition panic {A : Type} (v : PanicValue) : M A :=
  fun g => Panicked v g.

Declare Scope go_scope.
Delimit Scope go_scope with go.
Notation "x <- m ;; k" := (bind m (fun x => k))
  (at level 61, m at next level, right associativity) : go_scope.
Notation "m ;; k" := (bind m (fun _ => k))
  (at level 61, right associativity) : go_scope.

#[local] Open Scope go_scope.

(** [xs[i]]. *)
Definition index {A : Type} (xs : list A) (i : nat) : M A :=
  match nth_error xs i with
  | Some x => ret x
  | None => panic (IndexOutOfRange i (length xs))
  end.

(** [xs[i:]]. *)
Definition sliceFrom {A : Type} (xs : list A) (i : nat) : M (list A) :=
  if (i <=? length xs)%nat then ret (skipn i xs)
  else panic (SliceBoundsOutOfRange i (length xs)).

(** [Protocols = append(Protocols, p)]. *)
Definition appendProtocols (p : Protoent.t) : M unit :=
  fun g => Returned tt (mkGlobals (Protocols g ++ [p]) (Services g)).

(** [Services = append(Services, s)]. *)
Definition appendServices (s : Servent.t) : M unit :=
  fun g => Returned tt (mkGlobals (Protocols g) (Services g ++ [s])).

(** [for _, x := range xs { body }]; a [continue] is the body returning. *)
Fixpoint forRange {A : Type} (xs : list A) (body : A -> M unit) : M unit :=
  match xs with
  | [] => ret tt
  | x :: xs' => body x ;; forRange xs' body
  end.

(** The first three statements of both loop bodies: the fields of a
    line. *)
Definition lineFields (line : gostring) : M (list gostring) :=
  let line := strings.TrimSpace line in
  let split := strings.SplitN line (str "#") 2 in
  split0 <- index split 0 ;;
  ret (strings.Fields split0).

(** The body of the first loop of [init]. *)
Definition protocolLine (line : gostring) : M unit :=
  fields <- lineFields line ;;
  if (length fields <? 2)%nat then ret tt
  else
    field1 <- index fields 1 ;;
    let '(num, err) := strconv.ParseInt field1 10 32 in
    match err with
    | Some e => panic (ErrorValue (NumErr e))
    | None =>
        name <- index fields 0 ;;
        aliases <- sliceFrom fields 2 ;;
        appendProtocols (Protoent.mk name aliases num)
    end.

(** The body of the second loop of [init]. *)
Definition serviceLine (line : gostring) : M unit :=
  fields <- lineFields line ;;
  if (length fields <? 2)%nat then ret tt
  else
    name <- index fields 0 ;;
    field1 <- index fields 1 ;;
    let portproto := strings.SplitN field1 (str "/") 2 in
    portproto0 <- index portproto 0 ;;
    let '(port, err) := strconv.ParseInt portproto0 10 32 in
    match err with
    | Some e => panic (ErrorValue (NumErr e))
    | None =>
        proto <- index portproto 1 ;;
        aliases <- sliceFrom fields 2 ;;
        appendServices (Servent.mk name aliases port proto)
    end.

(** The first loop: the protocols of a source text. *)
Definition loadProtocols (data : gostring) : M unit :=
  forRange (strings.Split data [LF]) protocolLine.

(** The second loop: the services of a source text. *)
Definition loadServices (data : gostring) : M unit :=
  forRange (strings.Split data [LF]) serviceLine.

(** [ioutil.ReadFile] followed by [if err != nil { panic(err) }]. *)
Definition readOrPanic (fs : ioutil.FileSystem) (filename : string)
  : M gostring :=
  match ioutil.ReadFile fs filename with
  | inl data => ret data
  | inr e => panic (ErrorValue (PathErr e))
  end.

(** [func init()]. *)
Definition init (fs : ioutil.FileSystem) : M unit :=
  data <- readOrPanic fs "/etc/protocols" ;;
  loadProtocols data ;;
  data <- readOrPanic fs "/etc/services" ;;
  loadServices data.

(** [Protoent.Equal]. *)
Definition Equal (this other : Protoent.t) : bool :=
  Protoent.Number this =? Protoent.Number other.

(** The loop of [GetProtoByNumber] over [Protocols]. *)
Fixpoint GetProtoByNumber_loop (ps : list Protoent.t) (num : Z)
  : Protoent.t * bool :=
  match ps with
  | [] => (Protoent.zero, false)
  | protoent :: ps' =>
      if Protoent.Number protoent =? num then (protoent, true)
      else GetProtoByNumber_loop ps' num
  end.

Definition GetProtoByNumber (g : Globals) (num : Z) : Protoent.t * bool :=
  GetProtoByNumber_loop (Protocols g) num.

(** The inner loop of both lookups by name:
    [for _, alias := range aliases { if alias == name { return ..., true } }];
    [true] when the loop returns from the function. *)
Fixpoint aliasLoop (aliases : list gostring) (name : gostring) : bool :=
  match aliases with
  | [] => false
  | alias :: aliases' =>
      if gostring_eqb alias name then true else aliasLoop aliases' name
  end.

(** The loop of [GetProtoByName] over [Protocols]. *)
Fixpoint GetProtoByName_loop (ps : list Protoent.t) (name : gostring)
  : Protoent.t * bool :=
  match ps with
  | [] => (Protoent.zero, false)
  | protoent :: ps' =>
      if gostring_eqb (Protoent.Name protoent) name then (protoent, true)
      else if aliasLoop (Protoent.Aliases protoent) name then (protoent, true)
      else GetProtoByName_loop ps' name
  end.

Definition GetProtoByName (g : Globals) (name : gostring)
  : Protoent.t * bool :=
  GetProtoByName_loop (Protocols g) name.

(** The loop of [GetServByName] over [Services]. *)
Fixpoint GetServByName_loop (ss : list Servent.t) (name protocol : gostring)
  : Servent.t * bool :=
  match ss with
  | [] => (Servent.zero, false)
  | servent :: ss' =>
      if negb (gostring_eqb (Servent.Protocol servent) protocol)
         && negb (gostring_eqb protocol [])
      then GetServByName_loop ss' name protocol
      else if gostring_eqb (Servent.Name servent) name then (servent, true)
      else if aliasLoop (Servent.Aliases servent) name then (servent, true)
      else GetServByName_loop ss' name protocol
  end.

Definition GetServByName (g : Globals) (name protocol : gostring)
  : Servent.t * bool :=
  GetServByName_loop (Services g) name protocol.

(** The loop of [GetServByPort] over [Services]. *)
Fixpoint GetServByPort_loop (ss : list Servent.t) (port : Z)
  (protocol : gostring) : Servent.t * bool :=
  match ss with
  | [] => (Servent.zero, false)
  | servent :: ss' =>
      if (Servent.Port servent =? port)
         && (gostring_eqb (Servent.Protocol servent) protocol
             || gostring_eqb protocol [])
      then (servent, true)
      else GetServByPort_loop ss' port protocol
  end.

Definition GetServByPort (g : Globals) (port : Z) (protocol : gostring)
  : Servent.t * bool :=
  GetServByPort_loop (Services g) port protocol.

(** ** Vocabulary of the statements *)

(** [r] is the first element of [l], in order, that satisfies [P]. *)
Definition FirstMatch {A : Type} (P : A -> Prop) (l : list A) (r : A) : Prop :=
  exists pre post, l = pre ++ r :: post /\ Forall (fun x => ~ P x) pre /\ P r.

(** No element of [l] satisfies [P]. *)
Definition NoMatch {A : Type} (P : A -> Prop) (l : list A) : Prop :=
  Forall (fun x => ~ P x) l.

(** A protocol record answers to [name]: by its canonical name or by one
    of its aliases. *)
Definition protoNamed (name : gostring) (p : Protoent.t) : Prop :=
  Protoent.Name p = name \/ In name (Protoent.Aliases p).

(** A service record answers to [name]. *)
Definition servNamed (name : gostring) (s : Servent.t) : Prop :=
  Servent.Name s = name \/ In name (Servent.Aliases s).

(** A service record passes the protocol argument of a query. *)
Definition servAllowed (protocol : gostring) (s : Servent.t) : Prop :=
  protocol = [] \/ Servent.Protocol s = protocol.

(** The outcome of a scan, from the element it stopped at. *)
Definition found {A : Type} (zero : A) (o : option A) : A * bool :=
  match o with
  | Some r => (r, true)
  | None => (zero, false)
  end.

Definition protoNamedb (name : gostring) (p : Protoent.t) : bool :=
  gostring_eqb (Protoent.Name p) name || aliasLoop (Protoent.Aliases p) name.

Definition servNamedb (name : gostring) (s : Servent.t) : bool :=
  gostring_eqb (Servent.Name s) name || aliasLoop (Servent.Aliases s) name.

Definition servAllowedb (protocol : gostring) (s : Servent.t) : bool :=
  gostring_eqb protocol [] || gostring_eqb (Servent.Protocol s) protocol.

(** The code panics, whatever the package-level variables hold. *)
Definition Panics {A : Type} (m : M A) : Prop :=
  forall g, exists v g', m g = Panicked v g'.

(** [s] cut into the pieces between the occurrences of the byte [c]. *)
Fixpoint splitOn (c : ascii) (s : gostring) : list gostring :=
  match s with
  | [] => [[]]
  | x :: s' =>
      if Ascii.eqb x c then [] :: splitOn c s'
      else match splitOn c s' with
           | [] => [[x]]
           | piece :: pieces => (x :: piece) :: pieces
           end
  end.

(** [s] up to its first byte [c], that byte excluded; all of [s] when [c]
    does not occur. *)
Fixpoint cutAt (c : ascii) (s : gostring) : gostring :=
  match s with
  | [] => []
  | x :: s' => if Ascii.eqb x c then [] else x :: cutAt c s'
  end.

(** What follows the first byte [c] of [s], when there is one. *)
Fixpoint afterCut (c : ascii) (s : gostring) : option gostring :=
  match s with
  | [] => None
  | x :: s' => if Ascii.eqb x c then Some s' else afterCut c s'
  end.

(** The number of bytes [c] in [s]. *)
Fixpoint count (c : ascii) (s : gostring) : nat :=
  match s with
  | [] => O
  | x :: s' => if Ascii.eqb x c then S (count c s') else count c s'
  end.

(** The fields of a line: the line trimmed, cut at the first [#], and
    split around white space. *)
Definition fieldsOf (line : gostring) : list gostring :=
  strings.Fields (cutAt "#" (strings.TrimSpace line)).

(** The lines of a source text. *)
Definition linesOf (data : gostring) : list gostring := splitOn LF data.

(** The value of a decimal digit. *)
Definition digitValue (c : ascii) : option Z :=
  if (0x30 <=? b c) && (b c <=? 0x39) then Some (b c - 0x30) else None.

(** The number a run of decimal digits denotes, read after the digits that
    gave [acc]. *)
Fixpoint decimalValue (ds : gostring) (acc : Z) : option Z :=
  match ds with
  | [] => Some acc
  | c :: ds' =>
      match digitValue c with
      | Some d => decimalValue ds' (10 * acc + d)
      | None => None
      end
  end.

(** A base-10 integer that fits the signed 32-bit range: an optional sign,
    then one or more decimal digits, the value from -2^31 to 2^31 - 1. *)
Definition int32Literal (s : gostring) : option Z :=
  let '(neg, ds) :=
    match s with
    | c :: s' =>
        if Ascii.eqb c "+" then (false, s')
        else if Ascii.eqb c "-" then (true, s')
        else (false, s)
    | [] => (false, s)
    end in
  match ds with
  | [] => None
  | _ :: _ =>
      match decimalValue ds 0 with
      | Some v =>
          let z := if neg then - v else v in
          if (- 2 ^ 31 <=? z) && (z <=? 2 ^ 31 - 1) then Some z else None
      | None => None
      end
  end.

(** The decoder of [utf8.DecodeRuneInString] as a function of the length
    of the string and of its first four bytes. *)
Definition decodeBytes (n : nat) (s0 s1 s2 s3 : Z) : Z * nat :=
  if (n <? 1)%nat then (utf8.RuneError, 0%nat)
  else
    let x := utf8.first s0 in
    if utf8.as_ <=? x
    then ((if Z.testbit x 0 then utf8.RuneError else s0), 1%nat)
    else
      let sz := Z.to_nat (Z.land x 7) in
      let accept := utf8.acceptRanges (Z.shiftr x 4) in
      if (n <? sz)%nat then (utf8.RuneError, 1%nat)
      else
        if (s1 <? fst accept) || (snd accept <? s1)
        then (utf8.RuneError, 1%nat)
        else if (sz <=? 2)%nat
        then (Z.lor (Z.shiftl (Z.land s0 utf8.mask2) 6)
                    (Z.land s1 utf8.maskx), 2%nat)
        else
          if (s2 <? utf8.locb) || (utf8.hicb <? s2)
          then (utf8.RuneError, 1%nat)
          else if (sz <=? 3)%nat
          then (Z.lor (Z.lor (Z.shiftl (Z.land s0 utf8.mask3) 12)
                             (Z.shiftl (Z.land s1 utf8.maskx) 6))
                      (Z.land s2 utf8.maskx), 3%nat)
          else
            if (s3 <? utf8.locb) || (utf8.hicb <? s3)
            then (utf8.RuneError, 1%nat)
            else (Z.lor (Z.lor (Z.lor (Z.shiftl (Z.land s0 utf8.mask4) 18)
                                      (Z.shiftl (Z.land s1 utf8.maskx) 12))
                               (Z.shiftl (Z.land s2 utf8.maskx) 6))
                        (Z.land s3 utf8.maskx), 4%nat).

(** A continuation byte of UTF-8. *)
Definition cont (c : Z) : Prop := 0x80 <= c <= 0xBF.

(** A protocol record as the loader makes them: the name and every alias
    are non-empty. *)
Definition protoWellFormed (p : Protoent.t) : Prop :=
  Protoent.Name p <> [] /\ Forall (fun a => a <> []) (Protoent.Aliases p).

(** A service record as the loader makes them. *)
Definition servWellFormed (s : Servent.t) : Prop :=
  Servent.Name s <> [] /\ Forall (fun a => a <> []) (Servent.Aliases s).

(** The tables hold well-formed records only. *)
Definition tablesWellFormed (g : Globals) : Prop :=
  Forall protoWellFormed (Protocols g) /\ Forall servWellFormed (Services g).

(** A blank string: every rune of it is white space. *)
Definition blank (s : gostring) : Prop :=
  Forall (fun rb => unicode.IsSpace (fst rb) = true) (utf8.rangeString s).

(** A source text with every line terminator [LF] replaced by [CR LF]. *)
Fixpoint crlf (data : gostring) : gostring :=
  match data with
  | [] => []
  | c :: data' =>
      if Ascii.eqb c LF then CR :: LF :: crlf data' else c :: crlf data'
  end.

(** The lines of a text under [crlf]: every line but the last ends with
    [CR]. *)
Fixpoint crLines (lines : list gostring) : list gostring :=
  match lines with
  | [] => []
  | [line] => [line]
  | line :: lines' => (line ++ [CR]) :: crLines lines'
  end.

(** The files of a machine, each text with [CR LF] line terminators. *)
Definition crlfFiles (fs : ioutil.FileSystem) : ioutil.FileSystem :=
  fun filename =>
    match fs filename with
    | inl data => inl (crlf data)
    | inr e => inr e
    end.

(** What a line of a source is to a table: nothing, one record, or the end
    of the load. *)
Inductive LineResult (A : Type) : Type :=
| Skip
| Entry (a : A)
| Fatal.

Arguments Skip {A}.
Arguments Entry {A} a.
Arguments Fatal {A}.

(** The loader as the specification words it, to compare [init] with.
    A line of the protocol source: fewer than two fields, no record;
    otherwise the name, the number, which has to be a base-10 integer of
    the signed 32-bit range, and the aliases. *)
Definition protocolOfLine (line : gostring) : LineResult Protoent.t :=
  let fields := fieldsOf line in
  if (length fields <? 2)%nat then Skip
  else match int32Literal (nth 1 fields []) with
       | Some num =>
           Entry (Protoent.mk (nth 0 fields []) (skipn 2 fields) num)
       | None => Fatal
       end.

(** A line of the service source: the second field is the port, a [/] and
    the protocol. *)
Definition serviceOfLine (line : gostring) : LineResult Servent.t :=
  let fields := fieldsOf line in
  if (length fields <? 2)%nat then Skip
  else match int32Literal (cutAt "/" (nth 1 fields [])),
             afterCut "/" (nth 1 fields []) with
       | Some port, Some proto =>
           Entry (Servent.mk (nth 0 fields []) (skipn 2 fields) port proto)
       | _, _ => Fatal
       end.

(** The table of a source, all or nothing: the records of its lines in
    order, or no table when one line is fatal. *)
Fixpoint tableOf {A : Type} (ofLine : gostring -> LineResult A)
  (lines : list gostring) : option (list A) :=
  match lines with
  | [] => Some []
  | line :: lines' =>
      match ofLine line with
      | Skip => tableOf ofLine lines'
      | Entry r => option_map (cons r) (tableOf ofLine lines')
      | Fatal => None
      end
  end.

(** The records of the lines that come before the first fatal line of a
    source, in order; the records of all its lines when none is fatal. *)
Fixpoint recordsBefore {A : Type} (ofLine : gostring -> LineResult A)
  (lines : list gostring) : list A :=
  match lines with
  | [] => []
  | line :: lines' =>
      match ofLine line with
      | Skip => recordsBefore ofLine lines'
      | Entry r => r :: recordsBefore ofLine lines'
      | Fatal => []
      end
  end.

(** A byte of a word: below 0x80, not white space and not [#]. *)
Definition wordByte (c : ascii) : bool :=
  (b c <? 0x80) && negb (unicode.IsSpace (b c)) && negb (Ascii.eqb c "#").

(** A word: one or more such bytes. *)
Definition word (w : gostring) : Prop :=
  w <> [] /\ Forall (fun c => wordByte c = true) w.

(** Words written on a line, a space between two of them. *)
Fixpoint unwords (ws : list gostring) : gostring :=
  match ws with
  | [] => []
  | [w] => w
  | w :: ws' => w ++ " "%char :: unwords ws'
  end.

(** The table of services with the records of another protocol taken
    out. *)
Definition onlyProtocol (protocol : gostring) (g : Globals) : Globals :=
  mkGlobals (Protocols g)
            (filter (fun s => gostring_eqb (Servent.Protocol s) protocol)
                    (Services g)).

(** The tables with further records after the ones they hold. *)
Definition extended (g : Globals) (ps : list Protoent.t)
  (ss : list Servent.t) : Globals :=
  mkGlobals (Protocols g ++ ps) (Services g ++ ss).

(** The first answer when it was found, the second otherwise. *)
Definition orElse {A : Type} (x y : A * bool) : A * bool :=
  if snd x then x else y.

(** The lines that make a record: those of two fields or more. *)
Definition longLines (lines : list gostring) : list gostring :=
  filter (fun line => (2 <=? length (fieldsOf line))%nat) lines.

(** The name and the aliases a line gives to its record. *)
Definition namesOfLine (line : gostring) : gostring * list gostring :=
  (nth 0 (fieldsOf line) [], skipn 2 (fieldsOf line)).

(** A white-space byte: space, tab, line feed, vertical tab, form feed or
    carriage return. *)
Definition spaceByte (c : ascii) : bool :=
  (b c <? 0x80) && unicode.IsSpace (b c).

(** A run of white-space bytes. *)
Definition spaces (s : gostring) : Prop :=
  Forall (fun c => spaceByte c = true) s.

(** What follows the first word of a line: each further word after its
    separator. *)
Fixpoint gaps (rest : list (gostring * gostring)) : gostring :=
  match rest with
  | [] => []
  | (sep, w) :: rest' => sep ++ w ++ gaps rest'
  end.

(** Every further word is a word, after a separator of one or more
    white-space bytes. *)
Definition separated (rest : list (gostring * gostring)) : Prop :=
  Forall (fun sw => spaces (fst sw) /\ fst sw <> [] /\ word (snd sw)) rest.

(** A string that a field can be: no white-space byte and no [#] in it. *)
Definition clean (w : gostring) : Prop :=
  Forall (fun c => spaceByte c = false /\ c <> "#"%char) w.

(** The range of [int32]. *)
Definition int32 (z : Z) : Prop := - 2 ^ 31 <= z <= 2 ^ 31 - 1.

(** What the first loop guarantees of a record. *)
Definition protoClean (p : Protoent.t) : Prop :=
  clean (Protoent.Name p) /\ Forall clean (Protoent.Aliases p)
  /\ int32 (Protoent.Number p).

(** What the second loop guarantees of a record. *)
Definition servClean (s : Servent.t) : Prop :=
  clean (Servent.Name s) /\ Forall clean (Servent.Aliases s)
  /\ int32 (Servent.Port s) /\ clean (Servent.Protocol s).

Definition tablesClean (g : Globals) : Prop :=
  Forall protoClean (Protocols g) /\ Forall servClean (Services g).

(** The decimal digit of a value from 0 to 9. *)
Definition digit (d : Z) : ascii := ascii_of_N (Z.to_N (0x30 + d)).

(** The decimal digits of a natural number, the most significant first;
    [fuel] bounds the number of digits after the first. *)
Fixpoint digitsOf (fuel : nat) (n : Z) : gostring :=
  match fuel with
  | O => [digit n]
  | S fuel' =>
      if n <? 10 then [digit n]
      else digitsOf fuel' (n / 10) ++ [digit (n mod 10)]
  end.

(** An integer written in base 10, with [-] before a negative one. *)
Definition decimal (z : Z) : gostring :=
  if z <? 0 then "-"%char :: digitsOf (Z.to_nat (Z.log2 (- z))) (- z)
  else digitsOf (Z.to_nat (Z.log2 z)) z.

(** ** Sample tables *)

Definition tcp_proto : Protoent.t := Protoent.mk (str "tcp") [str "TCP"] 6.
Definition udp_proto : Protoent.t := Protoent.mk (str "udp") [str "UDP"] 17.
Definition six_proto : Protoent.t := Protoent.mk (str "six") [str "tcp"] 6.

Definition http_tcp : Servent.t :=
  Servent.mk (str "http") [str "www"] 80 (str "tcp").
Definition http_udp : Servent.t :=
  Servent.mk (str "http") [str "www"] 80 (str "udp").
Definition www_udp : Servent.t :=
  Servent.mk (str "www") [] 8080 (str "udp").

Definition sample : Globals :=
  mkGlobals [udp_proto; tcp_proto; six_proto] [http_tcp; www_udp; http_udp].

(** A service source whose second line has no [/] in its second field. *)
Definition services_without_slash : gostring :=
  str "http 80/tcp www" ++ [LF] ++ str "smtp 25 mail" ++ [LF].

(** A protocol source whose second line has no number. *)
Definition protocols_with_bad_number : gostring :=
  str "tcp 6 TCP" ++ [LF] ++ str "foo bar" ++ [LF].

(** A service source whose second line has a malformed port. *)
Definition services_with_bad_port : gostring :=
  str "http 80/tcp www" ++ [LF] ++ str "ftp 2x/tcp" ++ [LF].

(** The files of a machine with the two sources of the package. *)
Definition files (protocols services : gostring) : ioutil.FileSystem :=
  fun filename =>
    if String.eqb filename "/etc/protocols" then inl protocols
    else if String.eqb filename "/etc/services" then inl services
    else inr (ioutil.mkPathError "open" filename).

Definition sample_files : ioutil.FileSystem :=
  files (str "tcp 6 TCP # transmission control" ++ [LF]
           ++ str "udp 17 UDP" ++ [LF])
        (str "http 80/tcp www" ++ [LF]).

Definition sample_loaded : Globals :=
  mkGlobals [tcp_proto; udp_proto] [http_tcp].

(** Files whose protocol source has a malformed second line. *)
Definition broken_files : ioutil.FileSystem :=
  files protocols_with_bad_number (str "http 80/tcp www" ++ [LF]).

(** Files without the services source. *)
Definition files_without_services : ioutil.FileSystem :=
  fun filename =>
    if String.eqb filename "/etc/protocols"
    then inl (str "tcp 6 TCP" ++ [LF])
    else inr (ioutil.mkPathError "open" filename).

Definition smtp_tcp : Servent.t :=
  Servent.mk (str "smtp") [str "mail"] 25 (str "tcp").

(** * Properties *)

(** Splits a conjunction into its parts, and nothing else. *)
Ltac conjs := repeat match goal with |- _ /\ _ => split end.

(** Closes [In x l] and [~ In x l] on concrete lists. *)
Ltac in_list :=
  vm_compute;
  match goal with
  | |- _ -> False =>
      let H := fresh in
      intros H; repeat (destruct H as [H|H]; [discriminate H|]); exact H
  | |- _ => repeat (first [left; reflexivity | right])
  end.

(** ** Scans that stop at the first match *)

Section FirstMatchFacts.

Context {A : Type}.
Variable P : A -> Prop.
Variable p : A -> bool.
Hypothesis p_spec : forall x, p x = true <-> P x.

Lemma find_Some_FirstMatch (l : list A) (r : A) :
  find p l = Some r <-> FirstMatch P l r.
Proof.
  revert r; induction l as [|x l IH]; intros r; simpl.
  - split; [discriminate|].
    intros (pre & post & E & _); destruct pre; discriminate.
  - destruct (p x) eqn:Hx.
    + split.
      * intros [= <-]. exists [], l. repeat split; auto. now apply p_spec.
      * intros (pre & post & E & Hpre & Hr).
        destruct pre as [|y pre]; simpl in E.
        -- now injection E as ->.
        -- injection E as -> _. inversion Hpre; subst.
           exfalso. apply H1. now apply p_spec.
    + split.
      * intros H. apply IH in H as (pre & post & -> & Hpre & Hr).
        exists (x :: pre), post. repeat split; auto.
        constructor; auto. intros HP. apply p_spec in HP. congruence.
      * intros (pre & post & E & Hpre & Hr).
        destruct pre as [|y pre]; simpl in E.
        -- injection E as -> _. apply p_spec in Hr. congruence.
        -- injection E as -> ->. apply IH. exists pre, post.
           inversion Hpre; subst. auto.
Qed.

Lemma find_None_NoMatch (l : list A) :
  find p l = None <-> NoMatch P l.
Proof.
  unfold NoMatch. induction l as [|x l IH]; simpl.
  - split; auto.
  - destruct (p x) eqn:Hx.
    + split; [discriminate|]. intros H. inversion H; subst.
      exfalso. apply H2. now apply p_spec.
    + rewrite IH. split.
      * intros H. constructor; auto. intros HP. apply p_spec in HP. congruence.
      * intros H. now inversion H.
Qed.

Lemma FirstMatch_unique (l : list A) (r r' : A) :
  FirstMatch P l r -> FirstMatch P l r' -> r = r'.
Proof.
  intros H H'. apply find_Some_FirstMatch in H, H'. congruence.
Qed.

Lemma FirstMatch_or_NoMatch (l : list A) :
  (exists r, FirstMatch P l r) \/ NoMatch P l.
Proof.
  destruct (find p l) as [r|] eqn:E.
  - left. exists r. now apply find_Some_FirstMatch.
  - right. now apply find_None_NoMatch.
Qed.

End FirstMatchFacts.

(** ** The four lookups *)

Lemma gostring_eqb_eq (x y : gostring) : gostring_eqb x y = true <-> x = y.
Proof.
  unfold gostring_eqb. destruct (list_eq_dec ascii_dec x y); split; auto.
  discriminate.
Qed.

Lemma gostring_eqb_refl (x : gostring) : gostring_eqb x x = true.
Proof. now apply gostring_eqb_eq. Qed.

Lemma aliasLoop_In (aliases : list gostring) (name : gostring) :
  aliasLoop aliases name = true <-> In name aliases.
Proof.
  induction aliases as [|a l IH]; simpl.
  - split; [discriminate | tauto].
  - destruct (gostring_eqb a name) eqn:E.
    + apply gostring_eqb_eq in E. tauto.
    + rewrite IH. split; auto. intros [->|H]; auto.
      now rewrite gostring_eqb_refl in E.
Qed.

Lemma protoNamedb_spec name p : protoNamedb name p = true <-> protoNamed name p.
Proof.
  unfold protoNamedb, protoNamed.
  now rewrite orb_true_iff, gostring_eqb_eq, aliasLoop_In.
Qed.

Lemma servNamedb_spec name s : servNamedb name s = true <-> servNamed name s.
Proof.
  unfold servNamedb, servNamed.
  now rewrite orb_true_iff, gostring_eqb_eq, aliasLoop_In.
Qed.

Lemma servAllowedb_spec protocol s :
  servAllowedb protocol s = true <-> servAllowed protocol s.
Proof.
  unfold servAllowedb, servAllowed.
  now rewrite orb_true_iff, !gostring_eqb_eq.
Qed.

Lemma GetProtoByNumber_loop_find ps num :
  GetProtoByNumber_loop ps num
  = found Protoent.zero (find (fun p => Protoent.Number p =? num) ps).
Proof.
  induction ps as [|p ps IH]; simpl; auto.
  destruct (Protoent.Number p =? num); auto.
Qed.

Lemma GetProtoByName_loop_find ps name :
  GetProtoByName_loop ps name
  = found Protoent.zero (find (protoNamedb name) ps).
Proof.
  induction ps as [|p ps IH]; simpl; auto. unfold protoNamedb at 1.
  destruct (gostring_eqb (Protoent.Name p) name); simpl; auto.
  destruct (aliasLoop (Protoent.Aliases p) name); auto.
Qed.

Lemma GetServByName_loop_find ss name protocol :
  GetServByName_loop ss name protocol
  = found Servent.zero
      (find (fun s => servAllowedb protocol s && servNamedb name s) ss).
Proof.
  induction ss as [|s ss IH]; simpl; auto.
  unfold servAllowedb at 1, servNamedb at 1.
  destruct (gostring_eqb (Servent.Protocol s) protocol);
    destruct (gostring_eqb protocol []); simpl; auto;
    destruct (gostring_eqb (Servent.Name s) name); simpl; auto;
    destruct (aliasLoop (Servent.Aliases s) name); auto.
Qed.

Lemma GetServByPort_loop_find ss port protocol :
  GetServByPort_loop ss port protocol
  = found Servent.zero
      (find (fun s => servAllowedb protocol s && (Servent.Port s =? port)) ss).
Proof.
  induction ss as [|s ss IH]; simpl; auto.
  unfold servAllowedb at 1.
  destruct (gostring_eqb (Servent.Protocol s) protocol);
    destruct (gostring_eqb protocol []);
    destruct (Servent.Port s =? port); simpl; auto.
Qed.

Lemma found_FirstMatch {A : Type} (P : A -> Prop) (p : A -> bool) (zero : A)
  (l : list A) (r : A) :
  (forall x, p x = true <-> P x) ->
  FirstMatch P l r -> found zero (find p l) = (r, true).
Proof.
  intros Hp H. apply (find_Some_FirstMatch P p Hp) in H. now rewrite H.
Qed.

Lemma found_NoMatch {A : Type} (P : A -> Prop) (p : A -> bool) (zero : A)
  (l : list A) :
  (forall x, p x = true <-> P x) ->
  NoMatch P l -> found zero (find p l) = (zero, false).
Proof.
  intros Hp H. apply (find_None_NoMatch P p Hp) in H. now rewrite H.
Qed.

(** C4. [GetProtoByNumber] returns the first record, in table order, whose
    number is [n], together with [true] (so of two records with the same
    number the earlier one), and the zero record with [false] when no
    record has number [n]. *)
Theorem GetProtoByNumber_first_match (g : Globals) (n : Z) :
  (forall r, FirstMatch (fun p => Protoent.Number p = n) (Protocols g) r ->
             GetProtoByNumber g n = (r, true))
  /\ (forall pre r mid r' post,
        Protocols g = pre ++ r :: mid ++ r' :: post ->
        NoMatch (fun p => Protoent.Number p = n) pre ->
        Protoent.Number r = n -> Protoent.Number r' = n ->
        GetProtoByNumber g n = (r, true))
  /\ (NoMatch (fun p => Protoent.Number p = n) (Protocols g) ->
      GetProtoByNumber g n = (Protoent.zero, false)).
Proof.
  unfold GetProtoByNumber. rewrite GetProtoByNumber_loop_find.
  assert (Hp : forall x : Protoent.t,
             (Protoent.Number x =? n) = true <-> Protoent.Number x = n)
    by (intros; apply Z.eqb_eq).
  split; [|split].
  - intros r H. now apply (found_FirstMatch _ _ _ _ _ Hp).
  - intros pre r mid r' post E Hpre Hr _.
    apply (found_FirstMatch _ _ _ _ _ Hp).
    exists pre, (mid ++ r' :: post). auto.
  - intros H. now apply (found_NoMatch _ _ _ _ Hp).
Qed.

Lemma GetProtoByNumber_first_match_witness :
  GetProtoByNumber sample 6 = (tcp_proto, true)
  /\ GetProtoByNumber sample 99 = (Protoent.zero, false).
Proof.
  split.
  - apply (proj1 (proj2 (GetProtoByNumber_first_match sample 6))
             [udp_proto] tcp_proto [] six_proto []); try reflexivity.
    repeat constructor. simpl. discriminate.
  - apply (proj2 (proj2 (GetProtoByNumber_first_match sample 99))).
    repeat constructor; simpl; discriminate.
Defined.

(** C5. The lookups by name scan the table in order and return the first
    record whose canonical name is [s] or whose aliases contain [s], the
    strings compared byte for byte; a record earlier in the table whose
    canonical name is [s] wins over a later one that has [s] as an alias;
    when no record answers to [s] the result is not found.  The service
    lookup does so among the records its protocol argument admits, which
    is every record when that argument is empty. *)
Theorem byName_first_match (g : Globals) (s : gostring) :
  (forall r, FirstMatch (protoNamed s) (Protocols g) r ->
             GetProtoByName g s = (r, true))
  /\ (forall pre rb mid ra post,
        Protocols g = pre ++ rb :: mid ++ ra :: post ->
        NoMatch (protoNamed s) pre ->
        Protoent.Name rb = s -> In s (Protoent.Aliases ra) ->
        GetProtoByName g s = (rb, true))
  /\ (NoMatch (protoNamed s) (Protocols g) ->
      GetProtoByName g s = (Protoent.zero, false))
  /\ (forall r, FirstMatch (servNamed s) (Services g) r ->
                GetServByName g s [] = (r, true))
  /\ (forall protocol r,
        FirstMatch (fun x => servAllowed protocol x /\ servNamed s x)
                   (Services g) r ->
        GetServByName g s protocol = (r, true))
  /\ (forall pre rb mid ra post,
        Services g = pre ++ rb :: mid ++ ra :: post ->
        NoMatch (servNamed s) pre ->
        Servent.Name rb = s -> In s (Servent.Aliases ra) ->
        GetServByName g s [] = (rb, true))
  /\ (forall protocol,
        NoMatch (fun x => servAllowed protocol x /\ servNamed s x)
                (Services g) ->
        GetServByName g s protocol = (Servent.zero, false)).
Proof.
  assert (Hs : forall protocol (x : Servent.t),
             servAllowedb protocol x && servNamedb s x = true
             <-> servAllowed protocol x /\ servNamed s x).
  { intros. now rewrite andb_true_iff, servAllowedb_spec, servNamedb_spec. }
  assert (Hany : forall pre,
             Forall (fun x => ~ servNamed s x) pre ->
             Forall (fun x => ~ (servAllowed [] x /\ servNamed s x)) pre).
  { intros pre H. eapply Forall_impl; [|exact H]. simpl. tauto. }
  unfold GetProtoByName, GetServByName.
  rewrite GetProtoByName_loop_find.
  conjs.
  - intros r H. now apply (found_FirstMatch _ _ _ _ _ (protoNamedb_spec s)).
  - intros pre rb mid ra post E Hpre Hb _.
    apply (found_FirstMatch _ _ _ _ _ (protoNamedb_spec s)).
    exists pre, (mid ++ ra :: post). repeat split; auto. now left.
  - intros H. now apply (found_NoMatch _ _ _ _ (protoNamedb_spec s)).
  - intros r (pre & post & E & Hpre & Hr).
    rewrite GetServByName_loop_find.
    apply (found_FirstMatch _ _ _ _ _ (Hs [])).
    exists pre, post. repeat split; auto. now left.
  - intros protocol r H. rewrite GetServByName_loop_find.
    now apply (found_FirstMatch _ _ _ _ _ (Hs protocol)).
  - intros pre rb mid ra post E Hpre Hb _.
    rewrite GetServByName_loop_find.
    apply (found_FirstMatch _ _ _ _ _ (Hs [])).
    exists pre, (mid ++ ra :: post). repeat split; auto; now left.
  - intros protocol H. rewrite GetServByName_loop_find.
    now apply (found_NoMatch _ _ _ _ (Hs protocol)).
Qed.

Lemma byName_first_match_witness :
  GetProtoByName sample (str "tcp") = (tcp_proto, true)
  /\ GetProtoByName sample (str "Tcp") = (Protoent.zero, false)
  /\ GetServByName sample (str "www") [] = (http_tcp, true)
  /\ GetServByName sample (str "www") (str "udp") = (www_udp, true).
Proof.
  conjs.
  - apply (proj1 (proj2 (byName_first_match sample (str "tcp")))
             [udp_proto] tcp_proto [] six_proto []); try reflexivity.
    + repeat constructor. intros [H|[H|[]]]; discriminate H.
    + simpl. left. reflexivity.
  - apply (proj1 (proj2 (proj2 (byName_first_match sample (str "Tcp"))))).
    repeat constructor; intros [H|[H|[]]]; discriminate H.
  - apply (proj1 (proj2 (proj2 (proj2 (byName_first_match sample (str "www")))))).
    exists [], [www_udp; http_udp]. repeat split.
    + constructor.
    + right. simpl. left. reflexivity.
  - apply (proj1 (proj2 (proj2 (proj2 (proj2
             (byName_first_match sample (str "www")))))) (str "udp")).
    exists [http_tcp], [http_udp]. repeat split.
    + repeat constructor. intros [[H|H] _]; discriminate H.
    + right. reflexivity.
    + left. reflexivity.
Defined.

(** C6. The protocol argument of the two service lookups is a filter that
    the empty string turns off: with an empty protocol the first record, in
    table order, with the name (or alias) or with the port is returned
    whatever its protocol; with a non-empty protocol the first record with
    the name or the port whose protocol is exactly the argument is
    returned, and records with another protocol are passed over. *)
Theorem protocol_filter_wildcard (g : Globals) :
  (forall name r,
      FirstMatch (servNamed name) (Services g) r ->
      GetServByName g name [] = (r, true))
  /\ (forall port r,
        FirstMatch (fun x => Servent.Port x = port) (Services g) r ->
        GetServByPort g port [] = (r, true))
  /\ (forall name protocol r,
        protocol <> [] ->
        FirstMatch (fun x => Servent.Protocol x = protocol /\ servNamed name x)
                   (Services g) r ->
        GetServByName g name protocol = (r, true))
  /\ (forall port protocol r,
        protocol <> [] ->
        FirstMatch (fun x => Servent.Protocol x = protocol
                             /\ Servent.Port x = port)
                   (Services g) r ->
        GetServByPort g port protocol = (r, true))
  /\ (forall name protocol,
        protocol <> [] ->
        NoMatch (fun x => Servent.Protocol x = protocol /\ servNamed name x)
                (Services g) ->
        GetServByName g name protocol = (Servent.zero, false))
  /\ (forall port protocol,
        protocol <> [] ->
        NoMatch (fun x => Servent.Protocol x = protocol
                          /\ Servent.Port x = port)
                (Services g) ->
        GetServByPort g port protocol = (Servent.zero, false))
  /\ (forall name, NoMatch (servNamed name) (Services g) ->
                   GetServByName g name [] = (Servent.zero, false))
  /\ (forall port, NoMatch (fun x => Servent.Port x = port) (Services g) ->
                   GetServByPort g port [] = (Servent.zero, false)).
Proof.
  assert (Hn : forall name protocol (x : Servent.t),
             servAllowedb protocol x && servNamedb name x = true
             <-> servAllowed protocol x /\ servNamed name x).
  { intros. now rewrite andb_true_iff, servAllowedb_spec, servNamedb_spec. }
  assert (Hp : forall port protocol (x : Servent.t),
             servAllowedb protocol x && (Servent.Port x =? port) = true
             <-> servAllowed protocol x /\ Servent.Port x = port).
  { intros. now rewrite andb_true_iff, servAllowedb_spec, Z.eqb_eq. }
  assert (Hfm : forall (P Q : Servent.t -> Prop) l r,
             (forall x, P x <-> Q x) -> FirstMatch P l r -> FirstMatch Q l r).
  { intros P Q l r HPQ (pre & post & E & Hpre & Hr).
    exists pre, post. repeat split; auto.
    - eapply Forall_impl; [|exact Hpre]. intros x Hx HQ. now apply Hx, HPQ.
    - now apply HPQ. }
  assert (Hnm : forall (P Q : Servent.t -> Prop) l,
             (forall x, P x <-> Q x) -> NoMatch P l -> NoMatch Q l).
  { intros P Q l HPQ H. eapply Forall_impl; [|exact H].
    intros x Hx HQ. now apply Hx, HPQ. }
  unfold GetServByName, GetServByPort, servAllowed in *.
  conjs; intros;
    rewrite ?GetServByName_loop_find, ?GetServByPort_loop_find.
  - apply (found_FirstMatch _ _ _ _ _ (Hn name [])).
    eapply Hfm; [|eassumption]. intros x; simpl; tauto.
  - apply (found_FirstMatch _ _ _ _ _ (Hp port [])).
    eapply Hfm; [|eassumption]. intros x; simpl; tauto.
  - apply (found_FirstMatch _ _ _ _ _ (Hn name protocol)).
    eapply Hfm; [|eassumption]. intros x; simpl; tauto.
  - apply (found_FirstMatch _ _ _ _ _ (Hp port protocol)).
    eapply Hfm; [|eassumption]. intros x; simpl; tauto.
  - apply (found_NoMatch _ _ _ _ (Hn name protocol)).
    eapply Hnm; [|eassumption]. intros x; simpl; tauto.
  - apply (found_NoMatch _ _ _ _ (Hp port protocol)).
    eapply Hnm; [|eassumption]. intros x; simpl; tauto.
  - apply (found_NoMatch _ _ _ _ (Hn name [])).
    eapply Hnm; [|eassumption]. intros x; simpl; tauto.
  - apply (found_NoMatch _ _ _ _ (Hp port [])).
    eapply Hnm; [|eassumption]. intros x; simpl; tauto.
Qed.

Lemma protocol_filter_wildcard_witness :
  GetServByPort sample 80 [] = (http_tcp, true)
  /\ GetServByPort sample 80 (str "udp") = (http_udp, true)
  /\ GetServByName sample (str "www") (str "udp") = (www_udp, true)
  /\ GetServByPort sample 80 (str "sctp") = (Servent.zero, false).
Proof.
  conjs.
  - apply (proj1 (proj2 (protocol_filter_wildcard sample)) 80 http_tcp).
    exists [], [www_udp; http_udp]. conjs; [reflexivity | constructor | reflexivity].
  - apply (proj1 (proj2 (proj2 (proj2 (protocol_filter_wildcard sample))))
             80 (str "udp") http_udp); [discriminate|].
    exists [http_tcp; www_udp], []. conjs; try reflexivity.
    repeat constructor; intros [H1 H2]; discriminate.
  - apply (proj1 (proj2 (proj2 (protocol_filter_wildcard sample)))
             (str "www") (str "udp") www_udp); [discriminate|].
    exists [http_tcp], [http_udp]. conjs; try reflexivity.
    + repeat constructor; intros [H1 H2]; discriminate.
    + left; reflexivity.
  - apply (proj1 (proj2 (proj2 (proj2 (proj2 (proj2
             (protocol_filter_wildcard sample))))))
             80 (str "sctp")); [discriminate|].
    repeat constructor; intros [H1 H2]; discriminate.
Defined.

(** ** [strings.Split] and [strings.SplitN] on a one-byte separator *)

Lemma HasPrefix_single (x c : ascii) (s : gostring) :
  strings.HasPrefix (x :: s) [c] = Ascii.eqb x c.
Proof. simpl. destruct s; apply andb_true_r. Qed.

Lemma Index_single_cons (x c : ascii) (s : gostring) :
  strings.Index (x :: s) [c]
  = if Ascii.eqb x c then Some O else option_map S (strings.Index s [c]).
Proof.
  change (strings.Index (x :: s) [c])
    with (if strings.HasPrefix (x :: s) [c] then Some O
          else option_map S (strings.Index s [c])).
  now rewrite HasPrefix_single.
Qed.

Lemma Index_single_nil (c : ascii) : strings.Index [] [c] = None.
Proof. reflexivity. Qed.

Lemma Index_single_cut (c : ascii) (s : gostring) :
  match strings.Index s [c] with
  | Some m => firstn m s = cutAt c s
              /\ afterCut c s = Some (skipn (m + 1) s)
              /\ (m < length s)%nat
  | None => cutAt c s = s /\ afterCut c s = None
  end.
Proof.
  induction s as [|x s IH].
  - simpl. auto.
  - rewrite Index_single_cons. simpl cutAt. simpl afterCut.
    destruct (Ascii.eqb x c).
    + simpl. repeat split. lia.
    + destruct (strings.Index s [c]) as [m|]; simpl.
      * destruct IH as (H1 & H2 & H3). rewrite H1, H2. repeat split. lia.
      * destruct IH as (H1 & H2). now rewrite H1, H2.
Qed.

Lemma SplitN_two (c : ascii) (s : gostring) :
  strings.SplitN s [c] 2
  = cutAt c s :: match afterCut c s with
                 | Some rest => [rest]
                 | None => []
                 end.
Proof.
  unfold strings.SplitN, strings.genSplit.
  change (2 =? 0) with false. change (2 <? 0) with false. cbv iota.
  pose proof (Index_single_cut c s) as H.
  destruct s as [|x s].
  - reflexivity.
  - replace (Z.of_nat (length (x :: s)) + 1 <? 2) with false
      by (symmetry; apply Z.ltb_ge; simpl length; lia).
    change (Z.to_nat (2 - 1)) with 1%nat.
    unfold strings.genSplit_loop.
    destruct (strings.Index (x :: s) [c]) as [m|].
    + destruct H as (H1 & H2 & _). rewrite H2, Nat.add_0_r, H1. reflexivity.
    + destruct H as (H1 & H2). now rewrite H1, H2.
Qed.

Lemma SplitN_two_head (c : ascii) (s : gostring) :
  nth_error (strings.SplitN s [c] 2) 0 = Some (cutAt c s).
Proof. now rewrite SplitN_two. Qed.

Lemma SplitN_two_second (c : ascii) (s : gostring) :
  nth_error (strings.SplitN s [c] 2) 1 = afterCut c s.
Proof. rewrite SplitN_two. now destruct (afterCut c s). Qed.

Lemma afterCut_None (c : ascii) (s : gostring) :
  afterCut c s = None <-> ~ In c s.
Proof.
  induction s as [|x s IH]; simpl.
  - tauto.
  - destruct (Ascii.eqb x c) eqn:E.
    + apply Ascii.eqb_eq in E. split; [discriminate | tauto].
    + apply Ascii.eqb_neq in E. rewrite IH. tauto.
Qed.

Lemma cutAt_not_In (c : ascii) (s : gostring) : ~ In c s -> cutAt c s = s.
Proof.
  induction s as [|x s IH]; simpl; auto. intros H.
  destruct (Ascii.eqb x c) eqn:E.
  - apply Ascii.eqb_eq in E. tauto.
  - f_equal. tauto.
Qed.

Lemma cutAt_app (c : ascii) (s rest : gostring) :
  ~ In c s -> cutAt c (s ++ c :: rest) = s.
Proof.
  induction s as [|x s IH]; simpl; intros H.
  - now rewrite Ascii.eqb_refl.
  - destruct (Ascii.eqb x c) eqn:E.
    + apply Ascii.eqb_eq in E. tauto.
    + f_equal. tauto.
Qed.

Lemma count_le_length (c : ascii) (s : gostring) : (count c s <= length s)%nat.
Proof.
  induction s as [|x s IH]; simpl; auto.
  destruct (Ascii.eqb x c); lia.
Qed.

Lemma Index_single_count (c : ascii) (s : gostring) :
  match strings.Index s [c] with
  | Some m => count c s = S (count c (skipn (m + 1) s))
  | None => count c s = O
  end.
Proof.
  induction s as [|x s IH].
  - reflexivity.
  - rewrite Index_single_cons. simpl count.
    destruct (Ascii.eqb x c); [reflexivity|].
    destruct (strings.Index s [c]) as [m|]; simpl; auto.
Qed.

Lemma Count_loop_single (c : ascii) (fuel : nat) :
  forall s n, (length s <= fuel)%nat ->
              strings.Count_loop fuel s [c] n = (n + count c s)%nat.
Proof.
  induction fuel as [|fuel IH]; intros s n Hlen.
  - destruct s; [simpl; lia | simpl in Hlen; lia].
  - simpl. pose proof (Index_single_count c s) as Hc.
    pose proof (Index_single_cut c s) as Hi.
    destruct (strings.Index s [c]) as [m|].
    + destruct Hi as (_ & _ & Hm). rewrite IH.
      * rewrite Hc. simpl length. lia.
      * rewrite length_skipn. simpl length. lia.
    + lia.
Qed.

Lemma Count_single (c : ascii) (s : gostring) :
  strings.Count s [c] = count c s.
Proof. unfold strings.Count. now rewrite Count_loop_single. Qed.

Lemma splitOn_not_nil (c : ascii) (s : gostring) : splitOn c s <> [].
Proof.
  induction s as [|x s IH]; simpl; [discriminate|].
  destruct (Ascii.eqb x c); [discriminate|].
  destruct (splitOn c s); discriminate.
Qed.

Lemma genSplit_loop_splitOn (c : ascii) (s : gostring) :
  forall k, (count c s <= k)%nat ->
            strings.genSplit_loop k s [c] 0 = splitOn c s.
Proof.
  induction s as [|x s IH]; intros k Hk.
  - destruct k; reflexivity.
  - simpl count in Hk. simpl splitOn.
    destruct k as [|k].
    + destruct (Ascii.eqb x c); [lia|].
      specialize (IH O Hk). simpl in IH. simpl. now rewrite <- IH.
    + cbn [strings.genSplit_loop]. rewrite Index_single_cons.
      destruct (Ascii.eqb x c).
      * simpl. f_equal. apply IH. lia.
      * specialize (IH (S k) Hk). cbn [strings.genSplit_loop] in IH.
        destruct (strings.Index s [c]) as [m|]; simpl option_map; cbv iota.
        -- rewrite <- IH. rewrite !Nat.add_0_r. reflexivity.
        -- now rewrite <- IH.
Qed.

Lemma Split_splitOn (c : ascii) (s : gostring) :
  strings.Split s [c] = splitOn c s.
Proof.
  unfold strings.Split, strings.genSplit.
  change (-1 =? 0) with false. change (-1 <? 0) with true. cbv iota.
  rewrite Count_single.
  pose proof (count_le_length c s) as Hle.
  replace (Z.of_nat (length s) + 1 <? Z.of_nat (count c s) + 1) with false
    by (symmetry; apply Z.ltb_ge; lia).
  apply genSplit_loop_splitOn. lia.
Qed.

Lemma splitOn_not_In (c : ascii) (s : gostring) :
  ~ In c s -> splitOn c s = [s].
Proof.
  induction s as [|x s IH]; simpl; auto. intros H.
  destruct (Ascii.eqb x c) eqn:E.
  - apply Ascii.eqb_eq in E. tauto.
  - rewrite IH by tauto. reflexivity.
Qed.

Lemma splitOn_app (c : ascii) (s rest : gostring) :
  ~ In c s -> splitOn c (s ++ c :: rest) = s :: splitOn c rest.
Proof.
  induction s as [|x s IH]; simpl; intros H.
  - now rewrite Ascii.eqb_refl.
  - destruct (Ascii.eqb x c) eqn:E.
    + apply Ascii.eqb_eq in E. tauto.
    + rewrite IH by tauto. reflexivity.
Qed.

Lemma splitOn_pieces (c : ascii) (s piece : gostring) :
  In piece (splitOn c s) -> ~ In c piece.
Proof.
  revert piece. induction s as [|x s IH]; simpl; intros piece H.
  - destruct H as [<-|[]]. simpl. tauto.
  - destruct (Ascii.eqb x c) eqn:E.
    + destruct H as [<-|H]; [simpl; tauto | now apply IH].
    + apply Ascii.eqb_neq in E.
      destruct (splitOn c s) as [|h r] eqn:Es.
      * now apply splitOn_not_nil in Es.
      * destruct H as [<-|H].
        -- simpl. intros [->|Hin]; [tauto|].
           revert Hin. apply IH. now left.
        -- apply IH. now right.
Qed.

(** ** The loop bodies of [init] *)

Lemma bind_Returned {A B : Type} (m : M A) (k : A -> M B) (g g' : Globals)
  (a : A) :
  m g = Returned a g' -> bind m k g = k a g'.
Proof. unfold bind. now intros ->. Qed.

Lemma bind_Panicked {A B : Type} (m : M A) (k : A -> M B) (g g' : Globals)
  (v : PanicValue) :
  m g = Panicked v g' -> bind m k g = Panicked v g'.
Proof. unfold bind. now intros ->. Qed.

Lemma index_nth {A : Type} (xs : list A) (i : nat) (d : A) (g : Globals) :
  (i < length xs)%nat -> index xs i g = Returned (nth i xs d) g.
Proof.
  intros H. unfold index.
  destruct (nth_error xs i) as [x|] eqn:E.
  - now rewrite (nth_error_nth _ _ d E).
  - apply nth_error_None in E. lia.
Qed.

Lemma sliceFrom_skipn {A : Type} (xs : list A) (i : nat) (g : Globals) :
  (i <= length xs)%nat -> sliceFrom xs i g = Returned (skipn i xs) g.
Proof.
  intros H. unfold sliceFrom.
  now replace (i <=? length xs)%nat with true by (symmetry; now apply Nat.leb_le).
Qed.

Lemma lineFields_returns (line : gostring) (g : Globals) :
  lineFields line g = Returned (fieldsOf line) g.
Proof.
  unfold lineFields, fieldsOf, bind, index.
  change (str "#") with ["#"%char]. now rewrite SplitN_two_head.
Qed.

Lemma protocolLine_short (line : gostring) (g : Globals) :
  (length (fieldsOf line) < 2)%nat -> protocolLine line g = Returned tt g.
Proof.
  intros H. unfold protocolLine.
  rewrite (bind_Returned _ _ _ _ _ (lineFields_returns line g)).
  now replace (length (fieldsOf line) <? 2)%nat with true
    by (symmetry; now apply Nat.ltb_lt).
Qed.

Lemma protocolLine_long (line : gostring) (g : Globals) :
  (2 <= length (fieldsOf line))%nat ->
  protocolLine line g
  = match strconv.ParseInt (nth 1 (fieldsOf line) []) 10 32 with
    | (_, Some e) => Panicked (ErrorValue (NumErr e)) g
    | (num, None) =>
        Returned tt
          (mkGlobals
             (Protocols g ++ [Protoent.mk (nth 0 (fieldsOf line) [])
                                          (skipn 2 (fieldsOf line)) num])
             (Services g))
    end.
Proof.
  intros H. unfold protocolLine.
  rewrite (bind_Returned _ _ _ _ _ (lineFields_returns line g)).
  replace (length (fieldsOf line) <? 2)%nat with false
    by (symmetry; apply Nat.ltb_ge; lia).
  rewrite (bind_Returned _ _ _ _ _ (index_nth (fieldsOf line) 1 [] g H)).
  destruct (strconv.ParseInt (nth 1 (fieldsOf line) []) 10 32) as [num [e|]].
  - reflexivity.
  - rewrite (bind_Returned _ _ _ _ _
               (index_nth (fieldsOf line) 0 [] g ltac:(lia))).
    rewrite (bind_Returned _ _ _ _ _
               (sliceFrom_skipn (fieldsOf line) 2 g H)).
    reflexivity.
Qed.

Lemma serviceLine_short (line : gostring) (g : Globals) :
  (length (fieldsOf line) < 2)%nat -> serviceLine line g = Returned tt g.
Proof.
  intros H. unfold serviceLine.
  rewrite (bind_Returned _ _ _ _ _ (lineFields_returns line g)).
  now replace (length (fieldsOf line) <? 2)%nat with true
    by (symmetry; now apply Nat.ltb_lt).
Qed.

Lemma serviceLine_long (line : gostring) (g : Globals) :
  (2 <= length (fieldsOf line))%nat ->
  serviceLine line g
  = match strconv.ParseInt (cutAt "/" (nth 1 (fieldsOf line) [])) 10 32 with
    | (_, Some e) => Panicked (ErrorValue (NumErr e)) g
    | (port, None) =>
        match afterCut "/" (nth 1 (fieldsOf line) []) with
        | None => Panicked (IndexOutOfRange 1 1) g
        | Some proto =>
            Returned tt
              (mkGlobals
                 (Protocols g)
                 (Services g ++ [Servent.mk (nth 0 (fieldsOf line) [])
                                            (skipn 2 (fieldsOf line))
                                            port proto]))
        end
    end.
Proof.
  intros H. unfold serviceLine.
  rewrite (bind_Returned _ _ _ _ _ (lineFields_returns line g)).
  replace (length (fieldsOf line) <? 2)%nat with false
    by (symmetry; apply Nat.ltb_ge; lia).
  rewrite (bind_Returned _ _ _ _ _
             (index_nth (fieldsOf line) 0 [] g ltac:(lia))).
  rewrite (bind_Returned _ _ _ _ _ (index_nth (fieldsOf line) 1 [] g H)).
  change (str "/") with ["/"%char].
  set (field1 := nth 1 (fieldsOf line) []).
  assert (H0 : index (strings.SplitN field1 ["/"%char] 2) 0 g
               = Returned (cutAt "/" field1) g).
  { unfold index. now rewrite SplitN_two_head. }
  rewrite (bind_Returned _ _ _ _ _ H0).
  destruct (strconv.ParseInt (cutAt "/" field1) 10 32) as [port [e|]].
  - reflexivity.
  - unfold bind at 1, index at 1. rewrite SplitN_two_second, SplitN_two.
    destruct (afterCut "/" field1) as [proto|].
    + unfold ret. rewrite (bind_Returned _ _ _ _ _
                             (sliceFrom_skipn (fieldsOf line) 2 g H)).
      reflexivity.
    + reflexivity.
Qed.

Lemma forRange_app {A : Type} (xs ys : list A) (body : A -> M unit)
  (g : Globals) :
  forRange (xs ++ ys) body g
  = match forRange xs body g with
    | Returned _ g' => forRange ys body g'
    | Panicked v g' => Panicked v g'
    end.
Proof.
  revert g. induction xs as [|x xs IH]; intros g; simpl.
  - reflexivity.
  - unfold bind. destruct (body x g) as [[] g'|v g']; auto.
Qed.

Lemma forRange_Panics {A : Type} (xs : list A) (body : A -> M unit) (x : A) :
  In x xs -> Panics (body x) -> Panics (forRange xs body).
Proof.
  intros Hin Hx. induction xs as [|y xs IH]; [destruct Hin|].
  intros g. simpl. unfold bind.
  destruct (body y g) as [[] g'|v g'] eqn:E.
  - destruct Hin as [->|Hin].
    + destruct (Hx g) as (v & g'' & Hp). congruence.
    + apply IH, Hin.
  - eauto.
Qed.

Lemma loadProtocols_lines (data : gostring) :
  loadProtocols data = forRange (linesOf data) protocolLine.
Proof.
  unfold loadProtocols, linesOf.
  now rewrite Split_splitOn.
Qed.

Lemma loadServices_lines (data : gostring) :
  loadServices data = forRange (linesOf data) serviceLine.
Proof.
  unfold loadServices, linesOf.
  now rewrite Split_splitOn.
Qed.

(** ** [strconv.ParseInt] in base 10 on 32 bits *)

Lemma b_range (c : ascii) : 0 <= b c < 256.
Proof.
  unfold b. pose proof (N_ascii_bounded c) as H. lia.
Qed.

Lemma decimalValue_ge (ds : gostring) :
  forall acc v, 0 <= acc -> decimalValue ds acc = Some v -> acc <= v.
Proof.
  induction ds as [|c ds IH]; cbn [decimalValue]; intros acc v Hacc H.
  - injection H as <-. lia.
  - unfold digitValue in H.
    destruct ((48 <=? b c) && (b c <=? 57)) eqn:E; [|discriminate].
    apply andb_true_iff in E as [E1 E2]. apply Z.leb_le in E1, E2.
    apply IH in H; lia.
Qed.

Lemma ParseUint_loop_decimal (s0 : gostring) (bs : gostring) :
  forall n, 0 <= n <= 4294967295 ->
    let r := strconv.ParseUint_loop bs s0 10
               1844674407370955162 4294967295 n in
    match decimalValue bs n with
    | Some v =>
        if v <=? 4294967295 then r = (v, None)
        else r = (4294967295, Some (strconv.rangeError "ParseUint" s0))
    | None =>
        r = (0, Some (strconv.syntaxError "ParseUint" s0))
        \/ r = (4294967295, Some (strconv.rangeError "ParseUint" s0))
    end.
Proof.
  induction bs as [|c bs IH]; intros n Hn; cbn zeta.
  - simpl. replace (n <=? 4294967295) with true
      by (symmetry; apply Z.leb_le; lia). reflexivity.
  - cbn [strconv.ParseUint_loop decimalValue]. unfold digitValue.
    pose proof (b_range c) as Hc.
    destruct ((48 <=? b c) && (b c <=? 57)) eqn:E.
    + apply andb_true_iff in E as [E1 E2]. apply Z.leb_le in E1, E2.
      replace (10 <=? b c - 48) with false by (symmetry; apply Z.leb_gt; lia).
      replace (1844674407370955162 <=? n) with false
        by (symmetry; apply Z.leb_gt; lia).
      unfold strconv.u64.
      rewrite (Z.mod_small (n * 10)) by lia.
      rewrite (Z.mod_small (n * 10 + (b c - 48))) by lia.
      replace (n * 10 + (b c - 48) <? n * 10) with false
        by (symmetry; apply Z.ltb_ge; lia).
      replace (10 * n + (b c - 48)) with (n * 10 + (b c - 48)) by lia.
      simpl orb.
      destruct (4294967295 <? n * 10 + (b c - 48)) eqn:Hov.
      * apply Z.ltb_lt in Hov.
        destruct (decimalValue bs (n * 10 + (b c - 48))) as [v|] eqn:Ev.
        -- apply decimalValue_ge in Ev; [|lia].
           replace (v <=? 4294967295) with false
             by (symmetry; apply Z.leb_gt; lia).
           reflexivity.
        -- now right.
      * apply Z.ltb_ge in Hov. apply IH. lia.
    + left.
      destruct ((97 <=? strconv.lower (b c)) && (strconv.lower (b c) <=? 122))
        eqn:El; [|reflexivity].
      apply andb_true_iff in El as [El _]. apply Z.leb_le in El.
      replace (10 <=? strconv.lower (b c) - 97 + 10) with true
        by (symmetry; apply Z.leb_le; lia).
      reflexivity.
Qed.

Lemma ParseUint_decimal (s : gostring) :
  s <> [] ->
  let r := strconv.ParseUint s 10 32 in
  match decimalValue s 0 with
  | Some v =>
      if v <=? 4294967295 then r = (v, None)
      else r = (4294967295, Some (strconv.rangeError "ParseUint" s))
  | None =>
      r = (0, Some (strconv.syntaxError "ParseUint" s))
      \/ r = (4294967295, Some (strconv.rangeError "ParseUint" s))
  end.
Proof.
  intros Hs. destruct s as [|c s]; [congruence|].
  unfold strconv.ParseUint.
  change (strconv.maxUint64 / 10 + 1) with 1844674407370955162.
  change (strconv.u64 (strconv.u64 (Z.shiftl 1 32) - 1)) with 4294967295.
  apply (ParseUint_loop_decimal (c :: s) (c :: s) 0). lia.
Qed.

(** [ParseInt] in base 10 on 32 bits accepts exactly the literals of
    [int32Literal], with their value. *)
Lemma ParseInt_int32Literal (s : gostring) :
  match int32Literal s with
  | Some z => strconv.ParseInt s 10 32 = (z, None)
  | None => exists v e, strconv.ParseInt s 10 32 = (v, Some e)
  end.
Proof.
  assert (Hafter : forall (neg : bool) (ds s0 : gostring),
    ds <> [] ->
    match decimalValue ds 0 with
    | Some v =>
        let z := if neg then - v else v in
        if (- 2 ^ 31 <=? z) && (z <=? 2 ^ 31 - 1)
        then (let '(un, err) := strconv.ParseUint ds 10 32 in
              match match err with
                    | Some e => match strconv.Err e with
                                | strconv.ErrRange => None
                                | strconv.ErrSyntax =>
                                    Some (strconv.mkNumError "ParseInt" s0
                                            (strconv.Err e))
                                end
                    | None => None
                    end with
              | Some e => (0, Some e)
              | None =>
                  if negb neg && (Z.shiftl 1 (32 - 1) <=? un)
                  then (Z.shiftl 1 (32 - 1) - 1,
                        Some (strconv.rangeError "ParseInt" s0))
                  else if neg && (Z.shiftl 1 (32 - 1) <? un)
                  then (- Z.shiftl 1 (32 - 1),
                        Some (strconv.rangeError "ParseInt" s0))
                  else ((if neg then - un else un), None)
              end) = (z, None)
        else exists w e,
            (let '(un, err) := strconv.ParseUint ds 10 32 in
              match match err with
                    | Some e => match strconv.Err e with
                                | strconv.ErrRange => None
                                | strconv.ErrSyntax =>
                                    Some (strconv.mkNumError "ParseInt" s0
                                            (strconv.Err e))
                                end
                    | None => None
                    end with
              | Some e => (0, Some e)
              | None =>
                  if negb neg && (Z.shiftl 1 (32 - 1) <=? un)
                  then (Z.shiftl 1 (32 - 1) - 1,
                        Some (strconv.rangeError "ParseInt" s0))
                  else if neg && (Z.shiftl 1 (32 - 1) <? un)
                  then (- Z.shiftl 1 (32 - 1),
                        Some (strconv.rangeError "ParseInt" s0))
                  else ((if neg then - un else un), None)
              end) = (w, Some e)
    | None => exists w e,
            (let '(un, err) := strconv.ParseUint ds 10 32 in
              match match err with
                    | Some e => match strconv.Err e with
                                | strconv.ErrRange => None
                                | strconv.ErrSyntax =>
                                    Some (strconv.mkNumError "ParseInt" s0
                                            (strconv.Err e))
                                end
                    | None => None
                    end with
              | Some e => (0, Some e)
              | None =>
                  if negb neg && (Z.shiftl 1 (32 - 1) <=? un)
                  then (Z.shiftl 1 (32 - 1) - 1,
                        Some (strconv.rangeError "ParseInt" s0))
                  else if neg && (Z.shiftl 1 (32 - 1) <? un)
                  then (- Z.shiftl 1 (32 - 1),
                        Some (strconv.rangeError "ParseInt" s0))
                  else ((if neg then - un else un), None)
              end) = (w, Some e)
    end).
  { intros neg ds s0 Hds.
    pose proof (ParseUint_decimal ds Hds) as Hu. cbn zeta in Hu.
    change (Z.shiftl 1 (32 - 1)) with 2147483648.
    change (- 2 ^ 31) with (-2147483648). change (2 ^ 31 - 1) with 2147483647.
    destruct (decimalValue ds 0) as [v|] eqn:Ev.
    - apply decimalValue_ge in Ev; [|lia]. cbn zeta.
      destruct (v <=? 4294967295) eqn:Hv; rewrite Hu; cbn iota beta.
      + apply Z.leb_le in Hv.
        destruct neg; cbn [negb andb].
        * destruct (2147483648 <? v) eqn:Hc.
          -- apply Z.ltb_lt in Hc.
             replace ((-2147483648 <=? - v) && (- v <=? 2147483647)) with false
               by (symmetry; apply andb_false_iff; left; apply Z.leb_gt; lia).
             eauto.
          -- apply Z.ltb_ge in Hc.
             replace ((-2147483648 <=? - v) && (- v <=? 2147483647)) with true
               by (symmetry; apply andb_true_iff; split; apply Z.leb_le; lia).
             reflexivity.
        * destruct (2147483648 <=? v) eqn:Hc.
          -- apply Z.leb_le in Hc.
             replace ((-2147483648 <=? v) && (v <=? 2147483647)) with false
               by (symmetry; apply andb_false_iff; right; apply Z.leb_gt; lia).
             eauto.
          -- apply Z.leb_gt in Hc.
             replace ((-2147483648 <=? v) && (v <=? 2147483647)) with true
               by (symmetry; apply andb_true_iff; split; apply Z.leb_le; lia).
             reflexivity.
      + apply Z.leb_gt in Hv. cbn [strconv.rangeError strconv.Err].
        destruct neg; cbn [negb andb].
        * replace ((-2147483648 <=? - v) && (- v <=? 2147483647)) with false
            by (symmetry; apply andb_false_iff; left; apply Z.leb_gt; lia).
          cbn. eauto.
        * replace ((-2147483648 <=? v) && (v <=? 2147483647)) with false
            by (symmetry; apply andb_false_iff; right; apply Z.leb_gt; lia).
          cbn. eauto.
    - destruct Hu as [Hu|Hu]; rewrite Hu; cbn.
      + eauto.
      + destruct neg; cbn; eauto. }
  unfold int32Literal, strconv.ParseInt.
  destruct s as [|c s]; [eauto|].
  destruct (Ascii.eqb c "+").
  - destruct s as [|d s]; [cbn; eauto|].
    specialize (Hafter false (d :: s) (c :: d :: s) ltac:(discriminate)).
    cbv beta iota zeta in Hafter |- *.
    destruct (decimalValue (d :: s) 0) as [v|]; [|exact Hafter].
    destruct ((- 2 ^ 31 <=? v) && (v <=? 2 ^ 31 - 1)); exact Hafter.
  - destruct (Ascii.eqb c "-").
    + destruct s as [|d s]; [cbn; eauto|].
      specialize (Hafter true (d :: s) (c :: d :: s) ltac:(discriminate)).
      cbv beta iota zeta in Hafter |- *.
      destruct (decimalValue (d :: s) 0) as [v|]; [|exact Hafter].
      destruct ((- 2 ^ 31 <=? - v) && (- v <=? 2 ^ 31 - 1)); exact Hafter.
    + specialize (Hafter false (c :: s) (c :: s) ltac:(discriminate)).
      cbv beta iota zeta in Hafter |- *.
      destruct (decimalValue (c :: s) 0) as [v|]; [|exact Hafter].
      destruct ((- 2 ^ 31 <=? v) && (v <=? 2 ^ 31 - 1)); exact Hafter.
Qed.

Lemma ParseInt_accepts (s : gostring) (z : Z) :
  int32Literal s = Some z -> strconv.ParseInt s 10 32 = (z, None).
Proof.
  intros H. pose proof (ParseInt_int32Literal s) as P. now rewrite H in P.
Qed.

Lemma ParseInt_rejects (s : gostring) :
  int32Literal s = None -> exists v e, strconv.ParseInt s 10 32 = (v, Some e).
Proof.
  intros H. pose proof (ParseInt_int32Literal s) as P. now rewrite H in P.
Qed.

(** ** Fatal lines *)

Lemma init_Panics_protocols (fs : ioutil.FileSystem) (data : gostring) :
  fs "/etc/protocols"%string = inl data ->
  Panics (loadProtocols data) -> Panics (init fs).
Proof.
  intros Hfs Hp g. unfold init, bind, readOrPanic, ioutil.ReadFile.
  rewrite Hfs. unfold ret. destruct (Hp g) as (v & g' & ->). eauto.
Qed.

Lemma init_Panics_services (fs : ioutil.FileSystem) (data : gostring) :
  fs "/etc/services"%string = inl data ->
  Panics (loadServices data) -> Panics (init fs).
Proof.
  intros Hfs Hp g. unfold init, bind, readOrPanic, ioutil.ReadFile.
  destruct (fs "/etc/protocols"%string) as [pdata|e]; [|unfold panic; eauto].
  unfold ret. destruct (loadProtocols pdata g) as [[] g1|v g1]; [|eauto].
  rewrite Hfs. destruct (Hp g1) as (v & g' & ->). eauto.
Qed.

Lemma In_Split_linesOf (data line : gostring) :
  In line (strings.Split data [LF]) <-> In line (linesOf data).
Proof. unfold linesOf. now rewrite Split_splitOn. Qed.

(** C1. A service source with a line of at least two fields whose second
    field has no [/] does not load: the line makes the loop body panic, on
    the failed conversion of the field or on the missing second part of
    the split, without a record appended for it, so the load panics and
    with it [init]. *)
Theorem service_line_without_slash_is_fatal (data line : gostring) :
  In line (strings.Split data [LF]) ->
  (2 <= length (fieldsOf line))%nat ->
  ~ In "/"%char (nth 1 (fieldsOf line) []) ->
  (forall g,
      (exists e, serviceLine line g = Panicked (ErrorValue (NumErr e)) g)
      \/ serviceLine line g = Panicked (IndexOutOfRange 1 1) g)
  /\ Panics (loadServices data)
  /\ (forall fs, fs "/etc/services"%string = inl data -> Panics (init fs)).
Proof.
  intros Hin Hlen Hslash.
  assert (Hline : forall g,
             (exists e, serviceLine line g = Panicked (ErrorValue (NumErr e)) g)
             \/ serviceLine line g = Panicked (IndexOutOfRange 1 1) g).
  { intros g. rewrite serviceLine_long by assumption.
    apply afterCut_None in Hslash. rewrite Hslash.
    destruct (strconv.ParseInt _ 10 32) as [port [e|]]; eauto. }
  assert (Hload : Panics (loadServices data)).
  { rewrite loadServices_lines.
    apply forRange_Panics with (x := line).
    - now apply In_Split_linesOf.
    - intros g. destruct (Hline g) as [(e & Hv)|Hv]; eauto. }
  conjs; auto.
  intros fs Hfs. now apply init_Panics_services with (data := data).
Qed.

(** C3. A source with a line of at least two fields whose number is not a
    base-10 integer of the signed 32-bit range does not load: for the
    protocols the number is the second field, for the services the part of
    the second field before its first [/].  The loop body panics with the
    error of the conversion, no record is appended for the line, and the
    load and [init] panic. *)
Theorem malformed_number_is_fatal (data line : gostring) :
  In line (strings.Split data [LF]) ->
  (2 <= length (fieldsOf line))%nat ->
  (int32Literal (nth 1 (fieldsOf line) []) = None ->
   (forall g, exists e,
       protocolLine line g = Panicked (ErrorValue (NumErr e)) g)
   /\ Panics (loadProtocols data)
   /\ (forall fs, fs "/etc/protocols"%string = inl data -> Panics (init fs)))
  /\ (int32Literal (cutAt "/" (nth 1 (fieldsOf line) [])) = None ->
      (forall g, exists e,
          serviceLine line g = Panicked (ErrorValue (NumErr e)) g)
      /\ Panics (loadServices data)
      /\ (forall fs, fs "/etc/services"%string = inl data ->
                     Panics (init fs))).
Proof.
  intros Hin Hlen. apply In_Split_linesOf in Hin. split; intros Hbad.
  - assert (Hline : forall g, exists e,
               protocolLine line g = Panicked (ErrorValue (NumErr e)) g).
    { intros g. rewrite protocolLine_long by assumption.
      destruct (ParseInt_rejects _ Hbad) as (v & e & ->). eauto. }
    assert (Hload : Panics (loadProtocols data)).
    { rewrite loadProtocols_lines.
      apply forRange_Panics with (x := line); auto.
      intros g. destruct (Hline g) as (e & He). eauto. }
    conjs; auto.
    intros fs Hfs. now apply init_Panics_protocols with (data := data).
  - assert (Hline : forall g, exists e,
               serviceLine line g = Panicked (ErrorValue (NumErr e)) g).
    { intros g. rewrite serviceLine_long by assumption.
      destruct (ParseInt_rejects _ Hbad) as (v & e & ->). eauto. }
    assert (Hload : Panics (loadServices data)).
    { rewrite loadServices_lines.
      apply forRange_Panics with (x := line); auto.
      intros g. destruct (Hline g) as (e & He). eauto. }
    conjs; auto.
    intros fs Hfs. now apply init_Panics_services with (data := data).
Qed.

Lemma service_line_without_slash_is_fatal_witness :
  (forall g,
      (exists e, serviceLine (str "smtp 25 mail") g
                 = Panicked (ErrorValue (NumErr e)) g)
      \/ serviceLine (str "smtp 25 mail") g
         = Panicked (IndexOutOfRange 1 1) g)
  /\ Panics (loadServices services_without_slash).
Proof.
  assert (H1 : In (str "smtp 25 mail")
                  (strings.Split services_without_slash [LF])) by in_list.
  assert (H2 : (2 <= length (fieldsOf (str "smtp 25 mail")))%nat)
    by (vm_compute; repeat constructor).
  assert (H3 : ~ In "/"%char (nth 1 (fieldsOf (str "smtp 25 mail")) []))
    by in_list.
  destruct (service_line_without_slash_is_fatal
              services_without_slash (str "smtp 25 mail") H1 H2 H3)
    as (Hline & Hload & _).
  split; assumption.
Defined.

Lemma malformed_number_is_fatal_witness :
  Panics (loadProtocols protocols_with_bad_number)
  /\ Panics (loadServices services_with_bad_port).
Proof.
  assert (H1 : In (str "foo bar")
                  (strings.Split protocols_with_bad_number [LF])) by in_list.
  assert (H2 : (2 <= length (fieldsOf (str "foo bar")))%nat)
    by (vm_compute; repeat constructor).
  assert (H3 : int32Literal (nth 1 (fieldsOf (str "foo bar")) []) = None)
    by (vm_compute; reflexivity).
  assert (H4 : In (str "ftp 2x/tcp")
                  (strings.Split services_with_bad_port [LF])) by in_list.
  assert (H5 : (2 <= length (fieldsOf (str "ftp 2x/tcp")))%nat)
    by (vm_compute; repeat constructor).
  assert (H6 : int32Literal (cutAt "/" (nth 1 (fieldsOf (str "ftp 2x/tcp")) []))
               = None)
    by (vm_compute; reflexivity).
  destruct (malformed_number_is_fatal
              protocols_with_bad_number (str "foo bar") H1 H2) as [Hp _].
  destruct (malformed_number_is_fatal
              services_with_bad_port (str "ftp 2x/tcp") H4 H5) as [_ Hs].
  destruct (Hp H3) as (_ & Hpl & _).
  destruct (Hs H6) as (_ & Hsl & _).
  split; assumption.
Defined.

(** ** UTF-8 decoding *)

Lemma DecodeRune_decodeBytes (s : gostring) :
  utf8.DecodeRuneInString s
  = decodeBytes (length s) (byteAt s 0) (byteAt s 1) (byteAt s 2) (byteAt s 3).
Proof. reflexivity. Qed.

Lemma first_cases (c : Z) :
  (c < 0x80 /\ utf8.first c = utf8.as_)
  \/ ((0x80 <= c < 0xC2 \/ 0xF4 < c) /\ utf8.first c = utf8.xx)
  \/ (0xC2 <= c < 0xE0 /\ utf8.first c = utf8.s1)
  \/ (c = 0xE0 /\ utf8.first c = utf8.s2)
  \/ ((0xE0 < c < 0xED \/ 0xED < c < 0xF0) /\ utf8.first c = utf8.s3)
  \/ (c = 0xED /\ utf8.first c = utf8.s4)
  \/ (c = 0xF0 /\ utf8.first c = utf8.s5)
  \/ (0xF0 < c < 0xF4 /\ utf8.first c = utf8.s6)
  \/ (c = 0xF4 /\ utf8.first c = utf8.s7).
Proof.
  unfold utf8.first.
  repeat match goal with
         | |- context [if ?x <? ?y then _ else _] =>
             destruct (Z.ltb_spec x y)
         | |- context [if ?x =? ?y then _ else _] =>
             destruct (Z.eqb_spec x y)
         end; intuition lia.
Qed.

Ltac first_cases c :=
  let H := fresh "Hfirst" in
  let E := fresh "Efirst" in
  destruct (first_cases c) as
    [[H E]|[[H E]|[[H E]|[[H E]|[[H E]|[[H E]|[[H E]|[[H E]|[H E]]]]]]]]].

Ltac eval_sub t := let v := eval vm_compute in t in change t with v.

Ltac eval_first :=
  repeat match goal with
         | |- context [utf8.as_ <=? ?x] => eval_sub (utf8.as_ <=? x)
         | |- context [Z.testbit ?x 0] => eval_sub (Z.testbit x 0)
         | |- context [Z.to_nat (Z.land ?x 7)] =>
             eval_sub (Z.to_nat (Z.land x 7))
         | |- context [utf8.acceptRanges ?a] => eval_sub (utf8.acceptRanges a)
         end;
  cbn [fst snd Nat.leb]; cbv iota.

Ltac split_ifs :=
  repeat match goal with
         | |- context [if (?x <? ?y)%nat then _ else _] =>
             destruct (Nat.ltb_spec x y)
         | |- context [if (?x <? ?y) || (?z <? ?w) then _ else _] =>
             destruct (Z.ltb_spec x y); destruct (Z.ltb_spec z w);
             cbn [orb]
         end.

Lemma decodeBytes_size (n : nat) (s0 s1 s2 s3 : Z) :
  (1 <= n)%nat ->
  (1 <= snd (decodeBytes n s0 s1 s2 s3) <= n)%nat
  /\ (snd (decodeBytes n s0 s1 s2 s3) <= 4)%nat.
Proof.
  intros Hn. unfold decodeBytes.
  replace (n <? 1)%nat with false by (symmetry; apply Nat.ltb_ge; lia).
  first_cases s0; rewrite Efirst; eval_first;
  split_ifs; cbn [snd]; lia.
Qed.

(** Bytes appended to a string do not change its first rune when the
    first of them is not a continuation byte. *)
Lemma decodeBytes_sync (n n' : nat) (s0 s1 s2 s3 s1' s2' s3' : Z) :
  (1 <= n <= n')%nat ->
  ((1 < n)%nat -> s1' = s1) ->
  ((2 < n)%nat -> s2' = s2) ->
  ((3 < n)%nat -> s3' = s3) ->
  (n = 1%nat -> (1 < n')%nat -> ~ cont s1') ->
  (n = 2%nat -> (2 < n')%nat -> ~ cont s2') ->
  (n = 3%nat -> (3 < n')%nat -> ~ cont s3') ->
  decodeBytes n' s0 s1' s2' s3' = decodeBytes n s0 s1 s2 s3.
Proof.
  unfold cont. intros Hn H1 H2 H3 C1 C2 C3. unfold decodeBytes.
  replace (n <? 1)%nat with false by (symmetry; apply Nat.ltb_ge; lia).
  replace (n' <? 1)%nat with false by (symmetry; apply Nat.ltb_ge; lia).
  first_cases s0; rewrite Efirst; eval_first; try reflexivity;
    unfold utf8.locb, utf8.hicb in *;
    split_ifs; try reflexivity; try lia;
    try (rewrite ?H1, ?H2, ?H3 by lia; reflexivity).
Qed.

Lemma DecodeRune_size (s : gostring) :
  s <> [] ->
  (1 <= snd (utf8.DecodeRuneInString s) <= length s)%nat
  /\ (snd (utf8.DecodeRuneInString s) <= 4)%nat.
Proof.
  intros Hs. rewrite DecodeRune_decodeBytes. apply decodeBytes_size.
  destruct s; [congruence | simpl; lia].
Qed.

Lemma byteAt_app_l (l u : gostring) (i : nat) :
  (i < length l)%nat -> byteAt (l ++ u) i = byteAt l i.
Proof. intros H. unfold byteAt. now rewrite app_nth1. Qed.

Lemma byteAt_app_r (l u : gostring) :
  byteAt (l ++ u) (length l) = byteAt u 0.
Proof. unfold byteAt. now rewrite app_nth2, Nat.sub_diag by lia. Qed.

(** The first rune of [l] is still the first rune of [l ++ u] when [u]
    starts a rune of its own. *)
Lemma DecodeRune_app (l u : gostring) :
  l <> [] ->
  (u = [] \/ ~ cont (byteAt u 0)) ->
  utf8.DecodeRuneInString (l ++ u) = utf8.DecodeRuneInString l.
Proof.
  intros Hl [->|Hu]; [now rewrite app_nil_r|].
  rewrite !DecodeRune_decodeBytes.
  assert (1 <= length l)%nat by (destruct l; [congruence | simpl; lia]).
  rewrite (byteAt_app_l l u 0) by lia.
  apply decodeBytes_sync.
  - rewrite length_app. lia.
  - intros. apply byteAt_app_l. lia.
  - intros. apply byteAt_app_l. lia.
  - intros. apply byteAt_app_l. lia.
  - intros E _. rewrite <- E. now rewrite byteAt_app_r.
  - intros E _. rewrite <- E. now rewrite byteAt_app_r.
  - intros E _. rewrite <- E. now rewrite byteAt_app_r.
Qed.

Lemma DecodeRune_ascii (c : ascii) (s : gostring) :
  b c < 0x80 -> utf8.DecodeRuneInString (c :: s) = (b c, 1%nat).
Proof.
  intros Hc. rewrite DecodeRune_decodeBytes.
  change (byteAt (c :: s) 0) with (b c). unfold decodeBytes.
  change (length (c :: s) <? 1)%nat with false. cbv iota.
  first_cases (b c); try lia. rewrite Efirst. reflexivity.
Qed.

(** Induction along the runes of a string. *)
Lemma rune_ind (P : gostring -> Prop) :
  P [] ->
  (forall s, s <> [] ->
             P (skipn (snd (utf8.DecodeRuneInString s)) s) -> P s) ->
  forall s, P s.
Proof.
  intros Hnil Hstep s.
  remember (length s) as n eqn:En. revert s En.
  induction n as [n IH] using lt_wf_ind. intros s En.
  destruct s as [|c s]; [exact Hnil|].
  apply Hstep; [discriminate|].
  destruct (DecodeRune_size (c :: s)) as [[H1 H2] _]; [discriminate|].
  apply (IH (length (skipn (snd (utf8.DecodeRuneInString (c :: s))) (c :: s)))).
  - rewrite length_skipn. subst n. simpl length in *. lia.
  - reflexivity.
Qed.

Lemma runes_fuel_irrelevant (fuel1 : nat) :
  forall fuel2 s, (length s <= fuel1)%nat -> (length s <= fuel2)%nat ->
                  utf8.runes fuel1 s = utf8.runes fuel2 s.
Proof.
  induction fuel1 as [|fuel1 IH]; intros fuel2 s H1 H2.
  - destruct s; [now destruct fuel2 | simpl in H1; lia].
  - destruct s as [|c s]; [now destruct fuel2|].
    destruct fuel2 as [|fuel2]; [simpl in H2; lia|].
    cbn [utf8.runes].
    destruct (DecodeRune_size (c :: s)) as [[Hs1 Hs2] _]; [discriminate|].
    destruct (utf8.DecodeRuneInString (c :: s)) as [r size].
    cbn [snd] in *. f_equal.
    apply IH; rewrite length_skipn; simpl length in *; lia.
Qed.

Lemma runes_fuel (fuel : nat) (s : gostring) :
  (length s <= fuel)%nat -> utf8.runes fuel s = utf8.rangeString s.
Proof.
  intros H. unfold utf8.rangeString. now apply runes_fuel_irrelevant.
Qed.

Lemma rangeString_nil : utf8.rangeString [] = [].
Proof. reflexivity. Qed.

Lemma rangeString_step (s : gostring) :
  s <> [] ->
  utf8.rangeString s
  = (fst (utf8.DecodeRuneInString s),
     firstn (snd (utf8.DecodeRuneInString s)) s)
      :: utf8.rangeString (skipn (snd (utf8.DecodeRuneInString s)) s).
Proof.
  intros Hs. destruct s as [|c s]; [congruence|].
  unfold utf8.rangeString at 1. cbn [utf8.runes length].
  destruct (DecodeRune_size (c :: s)) as [[H1 H2] _]; [discriminate|].
  destruct (utf8.DecodeRuneInString (c :: s)) as [r size].
  cbn [fst snd] in *. f_equal.
  apply runes_fuel. rewrite length_skipn. simpl length in *. lia.
Qed.

Lemma rangeString_ascii (c : ascii) (s : gostring) :
  b c < 0x80 -> utf8.rangeString (c :: s) = (b c, [c]) :: utf8.rangeString s.
Proof.
  intros Hc. rewrite rangeString_step by discriminate.
  now rewrite DecodeRune_ascii.
Qed.

(** The runes of [l ++ u] are those of [l] followed by those of [u] when
    [u] starts a rune of its own. *)
Lemma rangeString_app (l u : gostring) :
  (u = [] \/ ~ cont (byteAt u 0)) ->
  utf8.rangeString (l ++ u) = utf8.rangeString l ++ utf8.rangeString u.
Proof.
  intros Hu. induction l as [|s Hs IH] using rune_ind.
  - reflexivity.
  - destruct (DecodeRune_size s Hs) as [[H1 H2] _].
    rewrite (rangeString_step s Hs).
    rewrite rangeString_step by (destruct s; [congruence | discriminate]).
    rewrite DecodeRune_app by assumption.
    rewrite firstn_app, skipn_app.
    replace (snd (utf8.DecodeRuneInString s) - length s)%nat with O by lia.
    cbn [firstn skipn]. rewrite app_nil_r, IH. reflexivity.
Qed.

Lemma rangeString_concat (s : gostring) :
  concat (map snd (utf8.rangeString s)) = s.
Proof.
  induction s as [|s Hs IH] using rune_ind.
  - reflexivity.
  - rewrite (rangeString_step s Hs). cbn [map concat snd].
    rewrite IH. apply firstn_skipn.
Qed.

Lemma rangeString_chunks (s : gostring) :
  Forall (fun rb => snd rb <> []) (utf8.rangeString s).
Proof.
  induction s as [|s Hs IH] using rune_ind.
  - constructor.
  - rewrite (rangeString_step s Hs). constructor; [|exact IH].
    cbn [snd]. destruct (DecodeRune_size s Hs) as [[H1 H2] _].
    destruct s as [|c s]; [congruence|].
    destruct (snd (utf8.DecodeRuneInString (c :: s))); [lia | discriminate].
Qed.

(** ** Fields *)

Lemma FieldsFunc_loop_nonempty (f : Z -> bool) (rs : list (Z * gostring)) :
  forall cur,
    Forall (fun rb => snd rb <> []) rs ->
    (forall w, cur = Some w -> w <> []) ->
    Forall (fun w => w <> []) (strings.FieldsFunc_loop rs f cur).
Proof.
  induction rs as [|[r bytes] rs IH]; intros cur Hrs Hcur.
  - simpl. destruct cur as [w|]; repeat constructor. now apply Hcur.
  - inversion Hrs as [|? ? Hb Hrs']; subst. cbn [snd] in Hb.
    cbn [strings.FieldsFunc_loop]. destruct (f r).
    + destruct cur as [w|].
      * constructor; [now apply Hcur|]. apply IH; auto; discriminate.
      * apply IH; auto; discriminate.
    + destruct cur as [w|]; apply IH; auto; intros w' [= <-]; auto.
      intros E. apply app_eq_nil in E as [_ E]. contradiction.
Qed.

(** No field of [strings.Fields] is empty. *)
Lemma Fields_nonempty (s : gostring) :
  Forall (fun w => w <> []) (strings.Fields s).
Proof.
  apply FieldsFunc_loop_nonempty.
  - apply rangeString_chunks.
  - discriminate.
Qed.

Lemma fieldsOf_nonempty (line : gostring) :
  Forall (fun w => w <> []) (fieldsOf line).
Proof. apply Fields_nonempty. Qed.

Lemma Forall_nth_nonempty (fields : list gostring) (i : nat) :
  Forall (fun w => w <> []) fields -> (i < length fields)%nat ->
  nth i fields [] <> [].
Proof.
  intros H Hi. rewrite Forall_forall in H. apply H. now apply nth_In.
Qed.

Lemma Forall_skipn {A : Type} (P : A -> Prop) (n : nat) (l : list A) :
  Forall P l -> Forall P (skipn n l).
Proof.
  revert l. induction n as [|n IH]; intros l H; [exact H|].
  destruct l; [constructor|]. inversion H; subst. now apply IH.
Qed.

(** ** What a load leaves in the tables *)

Lemma forRange_invariant {A : Type} (I : Globals -> Prop)
  (body : A -> M unit) (xs : list A) :
  (forall x g g', I g -> body x g = Returned tt g' -> I g') ->
  forall g g', I g -> forRange xs body g = Returned tt g' -> I g'.
Proof.
  intros Hbody. induction xs as [|x xs IH]; intros g g' Hg H.
  - injection H as <-. exact Hg.
  - simpl in H. unfold bind in H.
    destruct (body x g) as [[] g1|v g1] eqn:E; [|discriminate].
    eapply IH; [|exact H]. eapply Hbody; eauto.
Qed.

Lemma protocolLine_wellFormed (line : gostring) (g g' : Globals) :
  tablesWellFormed g -> protocolLine line g = Returned tt g' ->
  tablesWellFormed g'.
Proof.
  intros [Hp Hs] H.
  destruct (Nat.lt_ge_cases (length (fieldsOf line)) 2) as [Hlen|Hlen].
  - rewrite protocolLine_short in H by assumption. now injection H as <-.
  - rewrite protocolLine_long in H by assumption.
    destruct (strconv.ParseInt _ 10 32) as [num [e|]]; [discriminate|].
    injection H as <-. split; [|exact Hs]. cbn [Protocols].
    apply Forall_app. split; [exact Hp|]. constructor; [|constructor].
    split.
    + change (nth 0 (fieldsOf line) [] <> []).
      apply Forall_nth_nonempty; [apply fieldsOf_nonempty | lia].
    + change (Forall (fun a => a <> []) (skipn 2 (fieldsOf line))).
      apply Forall_skipn, fieldsOf_nonempty.
Qed.

Lemma serviceLine_wellFormed (line : gostring) (g g' : Globals) :
  tablesWellFormed g -> serviceLine line g = Returned tt g' ->
  tablesWellFormed g'.
Proof.
  intros [Hp Hs] H.
  destruct (Nat.lt_ge_cases (length (fieldsOf line)) 2) as [Hlen|Hlen].
  - rewrite serviceLine_short in H by assumption. now injection H as <-.
  - rewrite serviceLine_long in H by assumption.
    destruct (strconv.ParseInt _ 10 32) as [port [e|]]; [discriminate|].
    destruct (afterCut "/" _) as [proto|]; [|discriminate].
    injection H as <-. split; [exact Hp|]. cbn [Services].
    apply Forall_app. split; [exact Hs|]. constructor; [|constructor].
    split.
    + change (nth 0 (fieldsOf line) [] <> []).
      apply Forall_nth_nonempty; [apply fieldsOf_nonempty | lia].
    + change (Forall (fun a => a <> []) (skipn 2 (fieldsOf line))).
      apply Forall_skipn, fieldsOf_nonempty.
Qed.

Lemma init_Returned (fs : ioutil.FileSystem) (g g' : Globals) :
  init fs g = Returned tt g' ->
  exists pdata sdata g1,
    fs "/etc/protocols"%string = inl pdata
    /\ fs "/etc/services"%string = inl sdata
    /\ loadProtocols pdata g = Returned tt g1
    /\ loadServices sdata g1 = Returned tt g'.
Proof.
  unfold init, bind, readOrPanic, ioutil.ReadFile. intros H.
  destruct (fs "/etc/protocols"%string) as [pdata|e]; [|discriminate].
  unfold ret in H.
  destruct (loadProtocols pdata g) as [[] g1|v g1] eqn:E1; [|discriminate].
  destruct (fs "/etc/services"%string) as [sdata|e]; [|discriminate].
  exists pdata, sdata, g1. auto.
Qed.

Lemma loadProtocols_wellFormed (data : gostring) (g g' : Globals) :
  tablesWellFormed g -> loadProtocols data g = Returned tt g' ->
  tablesWellFormed g'.
Proof.
  rewrite loadProtocols_lines. apply forRange_invariant.
  intros x g1 g2. apply protocolLine_wellFormed.
Qed.

Lemma loadServices_wellFormed (data : gostring) (g g' : Globals) :
  tablesWellFormed g -> loadServices data g = Returned tt g' ->
  tablesWellFormed g'.
Proof.
  rewrite loadServices_lines. apply forRange_invariant.
  intros x g1 g2. apply serviceLine_wellFormed.
Qed.

Lemma startup_wellFormed : tablesWellFormed startup.
Proof. split; constructor. Qed.

Lemma wellFormed_no_empty_name (g : Globals) :
  tablesWellFormed g ->
  NoMatch (protoNamed []) (Protocols g)
  /\ NoMatch (servNamed []) (Services g).
Proof.
  intros [Hp Hs]. split.
  - eapply Forall_impl; [|exact Hp]. intros p [Hn Ha] [E|E]; [congruence|].
    rewrite Forall_forall in Ha. now apply (Ha [] E).
  - eapply Forall_impl; [|exact Hs]. intros s [Hn Ha] [E|E]; [congruence|].
    rewrite Forall_forall in Ha. now apply (Ha [] E).
Qed.

(** C10. After a load that succeeded every record of both tables has a
    non-empty name and non-empty aliases, since [strings.Fields] returns no
    empty field; so the lookups by name of the empty string find nothing,
    in the protocol table and, for every protocol argument, in the service
    table. *)
Theorem loaded_names_are_nonempty (fs : ioutil.FileSystem) (g : Globals) :
  init fs startup = Returned tt g ->
  Forall protoWellFormed (Protocols g)
  /\ Forall servWellFormed (Services g)
  /\ GetProtoByName g [] = (Protoent.zero, false)
  /\ (forall protocol, GetServByName g [] protocol = (Servent.zero, false)).
Proof.
  intros H.
  apply init_Returned in H as (pdata & sdata & g1 & _ & _ & H1 & H2).
  assert (Hwf : tablesWellFormed g).
  { eapply loadServices_wellFormed; [|exact H2].
    eapply loadProtocols_wellFormed; [|exact H1].
    exact startup_wellFormed. }
  destruct (wellFormed_no_empty_name g Hwf) as [Hp Hs].
  destruct Hwf as [Hwp Hws]. conjs; auto.
  - unfold GetProtoByName. rewrite GetProtoByName_loop_find.
    now apply (found_NoMatch _ _ _ _ (protoNamedb_spec [])).
  - intros protocol. unfold GetServByName. rewrite GetServByName_loop_find.
    apply (found_NoMatch
             (fun x => servAllowed protocol x /\ servNamed [] x)).
    + intros x.
      now rewrite andb_true_iff, servAllowedb_spec, servNamedb_spec.
    + eapply Forall_impl; [|exact Hs]. simpl. tauto.
Qed.

Lemma loaded_names_are_nonempty_witness :
  init sample_files startup = Returned tt sample_loaded
  /\ Forall protoWellFormed (Protocols sample_loaded)
  /\ GetProtoByName sample_loaded [] = (Protoent.zero, false).
Proof.
  assert (H : init sample_files startup = Returned tt sample_loaded)
    by (vm_compute; reflexivity).
  destruct (loaded_names_are_nonempty sample_files sample_loaded H)
    as (Hp & _ & Hn & _).
  conjs; assumption.
Defined.

(** ** A source of one line *)

Lemma linesOf_single (line : gostring) :
  ~ In LF line -> linesOf line = [line].
Proof. apply splitOn_not_In. Qed.

Lemma linesOf_terminated (line : gostring) :
  ~ In LF line -> linesOf (line ++ [LF]) = [line; []].
Proof. intros H. unfold linesOf. now rewrite splitOn_app. Qed.

Lemma fieldsOf_nil : fieldsOf [] = [].
Proof. reflexivity. Qed.

(** A line alone in the protocol source, with or without the line
    terminator: one record. *)
Lemma protocol_line_alone (line : gostring) (num : Z) :
  ~ In LF line ->
  (2 <= length (fieldsOf line))%nat ->
  int32Literal (nth 1 (fieldsOf line) []) = Some num ->
  let record := Protoent.mk (nth 0 (fieldsOf line) [])
                            (skipn 2 (fieldsOf line)) num in
  loadProtocols line startup = Returned tt (mkGlobals [record] [])
  /\ loadProtocols (line ++ [LF]) startup
     = Returned tt (mkGlobals [record] [])
  /\ GetProtoByNumber (mkGlobals [record] []) num = (record, true).
Proof.
  intros Hlf Hlen Hnum record.
  assert (Hline : protocolLine line startup
                  = Returned tt (mkGlobals [record] [])).
  { rewrite protocolLine_long by assumption.
    now rewrite (ParseInt_accepts _ _ Hnum). }
  conjs.
  - rewrite loadProtocols_lines, linesOf_single by assumption.
    cbn [forRange]. unfold bind. now rewrite Hline.
  - rewrite loadProtocols_lines, linesOf_terminated by assumption.
    cbn [forRange]. unfold bind. rewrite Hline.
    rewrite protocolLine_short by (rewrite fieldsOf_nil; simpl; lia).
    reflexivity.
  - unfold GetProtoByNumber. cbn [Protocols GetProtoByNumber_loop].
    change (Protoent.Number record) with num. now rewrite Z.eqb_refl.
Qed.

(** ** Trimming on the left *)

Lemma indexFunc_loop_shift (f : Z -> bool) (truth : bool)
  (rs : list (Z * gostring)) :
  forall i k,
    strings.indexFunc_loop rs f truth (k + i)
    = option_map (fun j => (k + j)%nat) (strings.indexFunc_loop rs f truth i).
Proof.
  induction rs as [|[r bytes] rs IH]; intros i k; simpl.
  - reflexivity.
  - destruct (Bool.eqb (f r) truth); [reflexivity|].
    rewrite <- IH. f_equal. lia.
Qed.

Lemma TrimLeftFunc_nil (f : Z -> bool) : strings.TrimLeftFunc [] f = [].
Proof. reflexivity. Qed.

Lemma TrimLeftFunc_step (f : Z -> bool) (s : gostring) :
  s <> [] ->
  strings.TrimLeftFunc s f
  = if f (fst (utf8.DecodeRuneInString s))
    then strings.TrimLeftFunc (skipn (snd (utf8.DecodeRuneInString s)) s) f
    else s.
Proof.
  intros Hs. unfold strings.TrimLeftFunc, strings.indexFunc.
  rewrite (rangeString_step s Hs). cbn [strings.indexFunc_loop].
  destruct (DecodeRune_size s Hs) as [[H1 H2] _].
  destruct (utf8.DecodeRuneInString s) as [r k]. cbn [fst snd] in *.
  destruct (f r); cbn [Bool.eqb].
  - rewrite length_firstn, Nat.min_l by lia.
    replace (0 + k)%nat with (k + 0)%nat by lia.
    rewrite indexFunc_loop_shift.
    destruct (strings.indexFunc_loop _ f false 0) as [j|]; cbn [option_map].
    + rewrite Nat.add_comm. now rewrite skipn_skipn.
    + reflexivity.
  - reflexivity.
Qed.

(** A byte below 0x80 that is not white space stops the trimming on the
    left, whatever precedes it. *)
Lemma TrimLeftFunc_app_ascii (f : Z -> bool) (l u : gostring) (a : ascii) :
  b a < 0x80 -> f (b a) = false ->
  strings.TrimLeftFunc (l ++ a :: u) f = strings.TrimLeftFunc l f ++ a :: u.
Proof.
  intros Ha Hf.
  assert (Hcont : a :: u = [] \/ ~ cont (byteAt (a :: u) 0)).
  { right. change (byteAt (a :: u) 0) with (b a). unfold cont. lia. }
  induction l as [|s Hs IH] using rune_ind.
  - rewrite TrimLeftFunc_nil. cbn [app].
    rewrite TrimLeftFunc_step by discriminate.
    rewrite DecodeRune_ascii by assumption. cbn [fst snd].
    now rewrite Hf.
  - destruct (DecodeRune_size s Hs) as [[H1 H2] _].
    rewrite (TrimLeftFunc_step f s Hs).
    rewrite TrimLeftFunc_step by (destruct s; [congruence | discriminate]).
    rewrite DecodeRune_app by assumption.
    destruct (f (fst (utf8.DecodeRuneInString s))); [|reflexivity].
    rewrite skipn_app.
    replace (snd (utf8.DecodeRuneInString s) - length s)%nat with O by lia.
    exact IH.
Qed.

(** White space below 0x80 at the end of a string: it is trimmed on the
    left only when everything before it is. *)
Lemma TrimLeftFunc_app_space (f : Z -> bool) (l : gostring) (a : ascii) :
  b a < 0x80 -> f (b a) = true ->
  strings.TrimLeftFunc (l ++ [a]) f
  = match strings.TrimLeftFunc l f with
    | [] => []
    | c :: t => (c :: t) ++ [a]
    end.
Proof.
  intros Ha Hf.
  assert (Hcont : [a] = [] \/ ~ cont (byteAt [a] 0)).
  { right. change (byteAt [a] 0) with (b a). unfold cont. lia. }
  induction l as [|s Hs IH] using rune_ind.
  - rewrite TrimLeftFunc_nil. cbn [app].
    rewrite TrimLeftFunc_step by discriminate.
    rewrite DecodeRune_ascii by assumption. cbn [fst snd].
    now rewrite Hf.
  - destruct (DecodeRune_size s Hs) as [[H1 H2] _].
    rewrite (TrimLeftFunc_step f s Hs).
    rewrite TrimLeftFunc_step by (destruct s; [congruence | discriminate]).
    rewrite DecodeRune_app by assumption.
    destruct (f (fst (utf8.DecodeRuneInString s))).
    + rewrite skipn_app.
      replace (snd (utf8.DecodeRuneInString s) - length s)%nat with O by lia.
      exact IH.
    + destruct s; [congruence | reflexivity].
Qed.

Lemma FieldsFunc_TrimLeftFunc (f : Z -> bool) (s : gostring) :
  strings.FieldsFunc (strings.TrimLeftFunc s f) f = strings.FieldsFunc s f.
Proof.
  induction s as [|s Hs IH] using rune_ind.
  - reflexivity.
  - rewrite (TrimLeftFunc_step f s Hs).
    destruct (f (fst (utf8.DecodeRuneInString s))) eqn:E; [|reflexivity].
    rewrite IH. unfold strings.FieldsFunc at 2.
    rewrite (rangeString_step s Hs). cbn [strings.FieldsFunc_loop].
    now rewrite E.
Qed.

(** ** Decoding from the end *)

Lemma decodeBytes_cont (n : nat) (s0 s1 s2 s3 : Z) :
  (1 <= n)%nat ->
  (s0 < 0x80 -> decodeBytes n s0 s1 s2 s3 = (s0, 1%nat))
  /\ ((2 <= snd (decodeBytes n s0 s1 s2 s3))%nat -> 0xC2 <= s0 /\ cont s1)
  /\ ((3 <= snd (decodeBytes n s0 s1 s2 s3))%nat -> cont s2)
  /\ ((4 <= snd (decodeBytes n s0 s1 s2 s3))%nat -> cont s3).
Proof.
  intros Hn. unfold decodeBytes, cont.
  replace (n <? 1)%nat with false by (symmetry; apply Nat.ltb_ge; lia).
  first_cases s0; rewrite Efirst; eval_first;
    unfold utf8.locb, utf8.hicb in *;
    split_ifs; cbn [snd]; conjs; intros; try lia; try reflexivity.
Qed.

(** A rune that is decoded over a byte below 0x80 is that byte alone. *)
Lemma DecodeRune_over_ascii (y : gostring) (p : nat) :
  (p < snd (utf8.DecodeRuneInString y))%nat ->
  byteAt y p < 0x80 ->
  p = O /\ utf8.DecodeRuneInString y = (byteAt y 0, 1%nat).
Proof.
  intros Hp Ha.
  assert (Hy : y <> []) by (intros ->; simpl in Hp; lia).
  assert (Hn : (1 <= length y)%nat)
    by (destruct y; [congruence | simpl; lia]).
  rewrite DecodeRune_decodeBytes in *.
  destruct (decodeBytes_cont (length y) (byteAt y 0) (byteAt y 1)
              (byteAt y 2) (byteAt y 3) Hn) as (H0 & H1 & H2 & H3).
  destruct (decodeBytes_size (length y) (byteAt y 0) (byteAt y 1)
              (byteAt y 2) (byteAt y 3) Hn) as [_ H4].
  unfold cont in *.
  destruct p as [|[|[|[|p]]]]; [auto | | | | lia].
  - specialize (H1 ltac:(lia)). lia.
  - specialize (H2 ltac:(lia)). lia.
  - specialize (H3 ltac:(lia)). lia.
Qed.

Lemma backToRuneStart_le (k : nat) (s : gostring) :
  forall start lim i,
    utf8.backToRuneStart k s start lim = Some i -> (i <= start)%nat.
Proof.
  induction k as [|k IH]; intros start lim i H; simpl in H.
  - injection H as <-. lia.
  - destruct (start <? lim)%nat; [injection H as <-; lia|].
    destruct (utf8.RuneStart (byteAt s start)); [injection H as <-; lia|].
    destruct start as [|start']; [discriminate|].
    apply IH in H. lia.
Qed.

Lemma skipn_last (s : gostring) (n : nat) :
  length s = S n -> skipn n s = [nth n s zero].
Proof.
  revert s. induction n as [|n IH]; intros s H.
  - destruct s as [|c [|d s]]; try discriminate. reflexivity.
  - destruct s as [|c s]; [discriminate|]. simpl. apply IH.
    simpl in H. lia.
Qed.

(** What [DecodeLastRuneInString] returns: the error rune on one byte, or
    the rune that [DecodeRuneInString] reads on the last [size] bytes. *)
Lemma DecodeLast_spec (x : gostring) :
  x <> [] ->
  (utf8.DecodeLastRuneInString x = (utf8.RuneError, 1%nat))
  \/ ((1 <= snd (utf8.DecodeLastRuneInString x) <= length x)%nat
      /\ utf8.DecodeRuneInString
           (skipn (length x - snd (utf8.DecodeLastRuneInString x)) x)
         = utf8.DecodeLastRuneInString x).
Proof.
  intros Hx. unfold utf8.DecodeLastRuneInString.
  destruct (length x) as [|n] eqn:En; [destruct x; [congruence|discriminate]|].
  destruct (byteAt x n <? utf8.RuneSelf) eqn:Ea.
  - right. cbn [snd]. split; [lia|].
    replace (S n - 1)%nat with n by lia.
    rewrite (skipn_last x n En). unfold byteAt in *.
    apply DecodeRune_ascii. apply Z.ltb_lt in Ea. exact Ea.
  - set (start :=
           match n with
           | O => O
           | S start' =>
               match utf8.backToRuneStart utf8.UTFMax x start'
                       (S n - utf8.UTFMax) with
               | Some i => i
               | None => O
               end
           end).
    assert (Hstart : (start <= n)%nat).
    { subst start. destruct n as [|n']; [lia|].
      destruct (utf8.backToRuneStart _ _ _ _) as [i|] eqn:Eb; [|lia].
      apply backToRuneStart_le in Eb. lia. }
    destruct (utf8.DecodeRuneInString (skipn start x)) as [r size] eqn:Ed.
    destruct (start + size =? S n)%nat eqn:Ee; [|now left].
    apply Nat.eqb_eq in Ee. right. cbn [snd].
    assert (Hne : skipn start x <> []).
    { intros E. apply (f_equal (@length _)) in E.
      rewrite length_skipn in E. simpl in E. lia. }
    destruct (DecodeRune_size _ Hne) as [[H1 H2] _].
    rewrite Ed in *. cbn [snd] in *. split; [lia|].
    replace (S n - size)%nat with start by lia. exact Ed.
Qed.

Lemma DecodeLast_size (x : gostring) :
  x <> [] -> (1 <= snd (utf8.DecodeLastRuneInString x) <= length x)%nat.
Proof.
  intros Hx. destruct (DecodeLast_spec x Hx) as [E|[H _]]; [|exact H].
  rewrite E. cbn [snd]. destruct x; [congruence | simpl; lia].
Qed.

Lemma DecodeLast_ascii_end (x : gostring) (c : ascii) :
  b c < 0x80 -> utf8.DecodeLastRuneInString (x ++ [c]) = (b c, 1%nat).
Proof.
  intros Hc. unfold utf8.DecodeLastRuneInString.
  rewrite length_app. cbn [length]. rewrite Nat.add_1_r.
  rewrite byteAt_app_r. change (byteAt [c] 0) with (b c).
  now replace (b c <? utf8.RuneSelf) with true
    by (symmetry; apply Z.ltb_lt; exact Hc).
Qed.

(** After a byte below 0x80 the last rune starts at that byte or later;
    when it starts there it is the byte itself. *)
Lemma DecodeLast_after_ascii (u w : gostring) (a : ascii) :
  b a < 0x80 ->
  (snd (utf8.DecodeLastRuneInString (u ++ a :: w)) <= S (length w))%nat
  /\ (snd (utf8.DecodeLastRuneInString (u ++ a :: w)) = S (length w) ->
      fst (utf8.DecodeLastRuneInString (u ++ a :: w)) = b a).
Proof.
  intros Ha.
  destruct w as [|c w'] using rev_ind.
  - rewrite DecodeLast_ascii_end by assumption. cbn. split; [lia | auto].
  - clear IHw'. set (w := w' ++ [c]) in *.
    assert (Hw : (1 <= length w)%nat)
      by (subst w; rewrite length_app; simpl; lia).
    set (x := u ++ a :: w).
    assert (Hx : x <> []) by (subst x; destruct u; discriminate).
    assert (Hlen : length x = (length u + S (length w))%nat)
      by (subst x; rewrite length_app; reflexivity).
    destruct (DecodeLast_spec x Hx) as [E|[[H1 H2] Hd]].
    + rewrite E. cbn [fst snd]. split; intros; lia.
    + set (size := snd (utf8.DecodeLastRuneInString x)) in *.
      destruct (Nat.le_gt_cases size (length w)) as [Hle|Hgt];
        [split; intros; lia|].
      exfalso.
      set (y := skipn (length x - size) x) in *.
      assert (Hy : byteAt y (size - S (length w)) = b a).
      { subst y. unfold byteAt. rewrite nth_skipn.
        replace (length x - size + (size - S (length w)))%nat
          with (length u) by lia.
        subst x. now rewrite app_nth2, Nat.sub_diag by lia. }
      assert (Hp : (size - S (length w)
                    < snd (utf8.DecodeRuneInString y))%nat).
      { rewrite Hd. fold size. lia. }
      destruct (DecodeRune_over_ascii y _ Hp ltac:(rewrite Hy; exact Ha))
        as [H0 Hdy].
      rewrite Hd in Hdy.
      assert (size = 1%nat) by (unfold size; now rewrite Hdy). lia.
Qed.

(** ** Trimming on the right *)

Lemma lastIndexFunc_loop_lt (f : Z -> bool) (truth : bool) (s : gostring)
  (fuel : nat) :
  forall i j, (i <= length s)%nat ->
              strings.lastIndexFunc_loop fuel s f truth i = Some j ->
              (j < i)%nat.
Proof.
  induction fuel as [|fuel IH]; intros i j Hi H;
    cbn [strings.lastIndexFunc_loop] in H; [discriminate|].
  destruct i as [|i]; [discriminate|].
  change (0 <? S i)%nat with true in H. cbv iota in H.
  assert (Hne : firstn (S i) s <> []).
  { destruct s; [simpl in Hi; lia | discriminate]. }
  pose proof (DecodeLast_size _ Hne) as Hsz.
  rewrite length_firstn in Hsz.
  destruct (utf8.DecodeLastRuneInString (firstn (S i) s)) as [r size].
  cbn [snd] in Hsz.
  destruct (Bool.eqb (f r) truth).
  - injection H as <-. destruct size; lia.
  - apply IH in H; destruct size; lia.
Qed.

Lemma lastIndexFunc_loop_prefix (f : Z -> bool) (truth : bool)
  (x y : gostring) (fuel : nat) :
  forall i, (i <= length x)%nat ->
            strings.lastIndexFunc_loop fuel (x ++ y) f truth i
            = strings.lastIndexFunc_loop fuel x f truth i.
Proof.
  induction fuel as [|fuel IH]; intros i Hi;
    cbn [strings.lastIndexFunc_loop]; [reflexivity|].
  destruct (0 <? i)%nat eqn:Ei; [|reflexivity]. apply Nat.ltb_lt in Ei.
  rewrite firstn_app. replace (i - length x)%nat with O by lia.
  cbn [firstn]. rewrite app_nil_r.
  destruct (utf8.DecodeLastRuneInString (firstn i x)) as [r size].
  destruct (Bool.eqb (f r) truth); [reflexivity|].
  apply IH. lia.
Qed.

Lemma lastIndexFunc_loop_S (f : Z -> bool) (truth : bool) (s : gostring)
  (fuel i : nat) :
  strings.lastIndexFunc_loop (S fuel) s f truth (S i)
  = (let '(r, size) := utf8.DecodeLastRuneInString (firstn (S i) s) in
     if Bool.eqb (f r) truth then Some (S i - size)%nat
     else strings.lastIndexFunc_loop fuel s f truth (S i - size)%nat).
Proof. reflexivity. Qed.

(** White space below 0x80 at the end of a string is trimmed. *)
Lemma TrimRightFunc_app_space (f : Z -> bool) (x : gostring) (c : ascii) :
  b c < 0x80 -> f (b c) = true ->
  strings.TrimRightFunc (x ++ [c]) f = strings.TrimRightFunc x f.
Proof.
  intros Hc Hf. unfold strings.TrimRightFunc.
  assert (Hlast : strings.lastIndexFunc (x ++ [c]) f false
                  = strings.lastIndexFunc x f false).
  { unfold strings.lastIndexFunc. rewrite length_app. cbn [length].
    rewrite Nat.add_1_r. rewrite lastIndexFunc_loop_S.
    replace (firstn (S (length x)) (x ++ [c])) with (x ++ [c])
      by (symmetry; apply firstn_all2; rewrite length_app; simpl; lia).
    rewrite DecodeLast_ascii_end by assumption.
    rewrite Hf. cbn [Bool.eqb].
    replace (S (length x) - 1)%nat with (length x) by lia.
    now apply lastIndexFunc_loop_prefix. }
  rewrite Hlast.
  destruct (strings.lastIndexFunc x f false) as [j|] eqn:Ej; [|reflexivity].
  assert (Hj : (j < length x)%nat).
  { unfold strings.lastIndexFunc in Ej.
    eapply lastIndexFunc_loop_lt; [|exact Ej]. lia. }
  rewrite byteAt_app_l by assumption.
  rewrite skipn_app. replace (j - length x)%nat with O by lia.
  cbn [skipn].
  assert (Hne : skipn j x <> []).
  { intros E. apply (f_equal (@length _)) in E.
    rewrite length_skipn in E. simpl in E. lia. }
  rewrite DecodeRune_app;
    [|assumption
     |right; change (byteAt [c] 0) with (b c); unfold cont; lia].
  destruct (DecodeRune_size _ Hne) as [[H1 H2] _].
  rewrite length_skipn in H2.
  destruct (utf8.DecodeRuneInString (skipn j x)) as [r wid]. cbn [snd] in *.
  destruct (utf8.RuneSelf <=? byteAt x j).
  - rewrite firstn_app. replace (j + wid - length x)%nat with O by lia.
    cbn [firstn]. now rewrite app_nil_r.
  - rewrite firstn_app. replace (j + 1 - length x)%nat with O by lia.
    cbn [firstn]. now rewrite app_nil_r.
Qed.

Lemma lastIndexFunc_loop_after_ascii (f : Z -> bool) (u v : gostring)
  (a : ascii) (fuel : nat) :
  b a < 0x80 -> f (b a) = false ->
  forall i, (S (length u) <= i <= length (u ++ a :: v))%nat ->
            (i <= fuel)%nat ->
            exists j, strings.lastIndexFunc_loop fuel (u ++ a :: v) f false i
                      = Some j
                      /\ (length u <= j < i)%nat.
Proof.
  intros Ha Hf. induction fuel as [|fuel IH]; intros i Hi Hfuel; [lia|].
  destruct i as [|i']; [lia|]. rewrite lastIndexFunc_loop_S.
  set (i := S i') in *.
  assert (Hfirst : firstn i (u ++ a :: v)
                   = u ++ a :: firstn (i - S (length u)) v).
  { rewrite firstn_app. rewrite firstn_all2 by lia. f_equal.
    destruct (i - length u)%nat as [|k] eqn:Ek; [lia|].
    cbn [firstn]. f_equal. f_equal. lia. }
  rewrite Hfirst.
  set (w := firstn (i - S (length u)) v).
  assert (Hw : length w = (i - S (length u))%nat).
  { subst w. rewrite length_firstn. rewrite length_app in Hi.
    simpl in Hi. lia. }
  destruct (DecodeLast_after_ascii u w a Ha) as [H1 H2].
  assert (Hne : u ++ a :: w <> []) by (destruct u; discriminate).
  pose proof (DecodeLast_size _ Hne) as [H3 _].
  destruct (utf8.DecodeLastRuneInString (u ++ a :: w)) as [r size].
  cbn [fst snd] in *.
  destruct (f r) eqn:Er; cbn [Bool.eqb].
  - assert (size <> S (length w)).
    { intros E. specialize (H2 E). congruence. }
    destruct (IH (i - size)%nat) as (j & Hj & Hr); [lia | lia|].
    exists j. split; [exact Hj | lia].
  - exists (i - size)%nat. split; [reflexivity | lia].
Qed.

(** The trimming on the right stops after the last byte below 0x80 that
    is not white space. *)
Lemma TrimRightFunc_after_ascii (f : Z -> bool) (u v : gostring) (a : ascii) :
  b a < 0x80 -> f (b a) = false ->
  exists k, strings.TrimRightFunc (u ++ a :: v) f = u ++ a :: firstn k v.
Proof.
  intros Ha Hf. unfold strings.TrimRightFunc, strings.lastIndexFunc.
  set (s := u ++ a :: v).
  assert (Hlen : length s = (length u + S (length v))%nat)
    by (subst s; rewrite length_app; reflexivity).
  destruct (lastIndexFunc_loop_after_ascii f u v a (S (length s)) Ha Hf
              (length s)) as (j & Hj & Hr); [fold s; lia | lia|].
  fold s in Hj. rewrite Hj.
  assert (Hcut : forall k, (S (length u) <= k)%nat ->
                           firstn k s = u ++ a :: firstn (k - S (length u)) v).
  { intros k Hk. subst s. rewrite firstn_app. rewrite firstn_all2 by lia.
    f_equal. destruct (k - length u)%nat as [|m] eqn:Em; [lia|].
    cbn [firstn]. f_equal. f_equal. lia. }
  assert (Hne : skipn j s <> []).
  { intros E. apply (f_equal (@length _)) in E.
    rewrite length_skipn in E. simpl in E. lia. }
  destruct (DecodeRune_size _ Hne) as [[H1 _] _].
  destruct (utf8.DecodeRuneInString (skipn j s)) as [r wid]. cbn [snd] in H1.
  destruct (utf8.RuneSelf <=? byteAt s j); eexists; apply Hcut; lia.
Qed.

Lemma TrimLeftFunc_incl (f : Z -> bool) (s : gostring) (c : ascii) :
  In c (strings.TrimLeftFunc s f) -> In c s.
Proof.
  unfold strings.TrimLeftFunc.
  destruct (strings.indexFunc s f false) as [i|]; [|intros []].
  rewrite <- (firstn_skipn i s) at 2. intros H. apply in_or_app. now right.
Qed.

(** ** The fields of a line *)

Lemma IsSpace_hash : unicode.IsSpace (b "#") = false.
Proof. reflexivity. Qed.

Lemma IsSpace_CR : unicode.IsSpace (b CR) = true.
Proof. reflexivity. Qed.

(** The fields of a line with a comment are the fields of what precedes
    the first [#]. *)
Lemma fieldsOf_comment (pre post : gostring) :
  ~ In "#"%char pre ->
  fieldsOf (pre ++ "#"%char :: post) = strings.Fields pre.
Proof.
  intros Hpre. unfold fieldsOf, strings.TrimSpace, strings.TrimFunc.
  rewrite TrimLeftFunc_app_ascii;
    [|vm_compute; reflexivity | exact IsSpace_hash].
  destruct (TrimRightFunc_after_ascii unicode.IsSpace
              (strings.TrimLeftFunc pre unicode.IsSpace) post "#"%char)
    as (k & ->); [vm_compute; reflexivity | exact IsSpace_hash|].
  rewrite cutAt_app.
  - apply FieldsFunc_TrimLeftFunc.
  - intros H. apply Hpre. eapply TrimLeftFunc_incl, H.
Qed.

(** A [CR] at the end of a line does not change its fields. *)
Lemma TrimSpace_CR (line : gostring) :
  strings.TrimSpace (line ++ [CR]) = strings.TrimSpace line.
Proof.
  unfold strings.TrimSpace, strings.TrimFunc.
  rewrite TrimLeftFunc_app_space;
    [|vm_compute; reflexivity | exact IsSpace_CR].
  destruct (strings.TrimLeftFunc line unicode.IsSpace) as [|c t];
    [reflexivity|].
  apply TrimRightFunc_app_space; [vm_compute; reflexivity | exact IsSpace_CR].
Qed.

Lemma fieldsOf_CR (line : gostring) : fieldsOf (line ++ [CR]) = fieldsOf line.
Proof. unfold fieldsOf. now rewrite TrimSpace_CR. Qed.

Lemma blank_TrimLeft (s : gostring) :
  blank s -> strings.TrimLeftFunc s unicode.IsSpace = [].
Proof.
  unfold blank. induction s as [|s Hs IH] using rune_ind; intros H.
  - reflexivity.
  - rewrite (rangeString_step s Hs) in H. inversion H as [|? ? Hr Hrest]; subst.
    cbn [fst] in Hr. rewrite (TrimLeftFunc_step _ s Hs), Hr. now apply IH.
Qed.

Lemma blank_Fields (s : gostring) : blank s -> strings.Fields s = [].
Proof.
  intros H. unfold strings.Fields.
  rewrite <- FieldsFunc_TrimLeftFunc. now rewrite blank_TrimLeft.
Qed.

Lemma blank_no_ascii (s : gostring) (c : ascii) :
  blank s -> b c < 0x80 -> unicode.IsSpace (b c) = false -> ~ In c s.
Proof.
  unfold blank. intros Hs Hc Hf Hin.
  apply in_split in Hin as (l & u & ->).
  rewrite rangeString_app in Hs
    by (right; change (byteAt (c :: u) 0) with (b c); unfold cont; lia).
  apply Forall_app in Hs as [_ Hs].
  rewrite rangeString_ascii in Hs by assumption.
  inversion Hs as [|? ? Hr _]; subst. cbn [fst] in Hr. congruence.
Qed.

Lemma fieldsOf_blank (s : gostring) : blank s -> fieldsOf s = [].
Proof.
  intros H. unfold fieldsOf, strings.TrimSpace, strings.TrimFunc.
  now rewrite (blank_TrimLeft s H).
Qed.

Lemma fieldsOf_comment_only (ws rest : gostring) :
  blank ws -> fieldsOf (ws ++ "#"%char :: rest) = [].
Proof.
  intros H. rewrite fieldsOf_comment.
  - now apply blank_Fields.
  - apply blank_no_ascii; [exact H | vm_compute; reflexivity
                           | exact IsSpace_hash].
Qed.

(** Both loop bodies see a line through its fields only. *)
Lemma protocolLine_fields (l1 l2 : gostring) (g : Globals) :
  fieldsOf l1 = fieldsOf l2 -> protocolLine l1 g = protocolLine l2 g.
Proof.
  intros E.
  destruct (Nat.lt_ge_cases (length (fieldsOf l1)) 2) as [Hlen|Hlen].
  - rewrite (protocolLine_short l1), (protocolLine_short l2);
      [reflexivity | rewrite <- E; exact Hlen | exact Hlen].
  - rewrite (protocolLine_long l1), (protocolLine_long l2);
      [now rewrite E | rewrite <- E; exact Hlen | exact Hlen].
Qed.

Lemma serviceLine_fields (l1 l2 : gostring) (g : Globals) :
  fieldsOf l1 = fieldsOf l2 -> serviceLine l1 g = serviceLine l2 g.
Proof.
  intros E.
  destruct (Nat.lt_ge_cases (length (fieldsOf l1)) 2) as [Hlen|Hlen].
  - rewrite (serviceLine_short l1), (serviceLine_short l2);
      [reflexivity | rewrite <- E; exact Hlen | exact Hlen].
  - rewrite (serviceLine_long l1), (serviceLine_long l2);
      [now rewrite E | rewrite <- E; exact Hlen | exact Hlen].
Qed.

(** ** Comments and blank lines *)

Lemma cutAt_spec (c : ascii) (s : gostring) :
  ~ In c (cutAt c s)
  /\ (s = cutAt c s \/ exists rest, s = cutAt c s ++ c :: rest).
Proof.
  induction s as [|x s [IH1 IH2]]; simpl.
  - split; [tauto | now left].
  - destruct (Ascii.eqb x c) eqn:E.
    + apply Ascii.eqb_eq in E. subst x. split; [simpl; tauto|].
      right. now exists s.
    + apply Ascii.eqb_neq in E. split.
      * simpl. tauto.
      * destruct IH2 as [IH2|[rest IH2]].
        -- left. now f_equal.
        -- right. exists rest. simpl. now f_equal.
Qed.

(** C8. The fields of a line are those of the trimmed line cut at its
    first [#], the [#] and what follows it dropped; so the fields of a line
    with a comment are the fields of what precedes the [#], the line
    [foo 6 bar # trailing comment] loads as [foo 6 bar] does, and a line
    that is blank or a comment only has no field and is skipped by both
    loops. *)
Theorem comment_is_cut_before_fields :
  (forall line g,
      lineFields line g
      = Returned (strings.Fields (cutAt "#" (strings.TrimSpace line))) g
      /\ ~ In "#"%char (cutAt "#" (strings.TrimSpace line))
      /\ (strings.TrimSpace line = cutAt "#" (strings.TrimSpace line)
          \/ exists rest,
              strings.TrimSpace line
              = cutAt "#" (strings.TrimSpace line) ++ "#"%char :: rest))
  /\ (forall pre post,
         ~ In "#"%char pre ->
         fieldsOf (pre ++ "#"%char :: post) = strings.Fields pre)
  /\ (forall g,
         loadProtocols (str "foo 6 bar # trailing comment") g
         = loadProtocols (str "foo 6 bar") g
         /\ loadProtocols (str "foo 6 bar") g
            = Returned tt
                (mkGlobals
                   (Protocols g ++ [Protoent.mk (str "foo") [str "bar"] 6])
                   (Services g)))
  /\ (forall ws g,
         blank ws ->
         fieldsOf ws = []
         /\ protocolLine ws g = Returned tt g
         /\ serviceLine ws g = Returned tt g)
  /\ (forall ws rest g,
         blank ws ->
         fieldsOf (ws ++ "#"%char :: rest) = []
         /\ protocolLine (ws ++ "#"%char :: rest) g = Returned tt g
         /\ serviceLine (ws ++ "#"%char :: rest) g = Returned tt g).
Proof.
  conjs.
  - intros line g. destruct (cutAt_spec "#" (strings.TrimSpace line)) as [H1 H2].
    conjs; auto. apply lineFields_returns.
  - exact fieldsOf_comment.
  - intros g.
    assert (H1 : linesOf (str "foo 6 bar # trailing comment")
                 = [str "foo 6 bar # trailing comment"])
      by (vm_compute; reflexivity).
    assert (H2 : linesOf (str "foo 6 bar") = [str "foo 6 bar"])
      by (vm_compute; reflexivity).
    assert (H3 : fieldsOf (str "foo 6 bar # trailing comment")
                 = fieldsOf (str "foo 6 bar"))
      by (vm_compute; reflexivity).
    assert (H4 : fieldsOf (str "foo 6 bar") = [str "foo"; str "6"; str "bar"])
      by (vm_compute; reflexivity).
    rewrite !loadProtocols_lines, H1, H2. cbn [forRange]. unfold bind.
    rewrite (protocolLine_fields _ _ g H3). split; [reflexivity|].
    rewrite protocolLine_long by (rewrite H4; simpl; lia).
    rewrite H4. reflexivity.
  - intros ws g Hws. pose proof (fieldsOf_blank ws Hws) as E.
    conjs; [exact E | |].
    + apply protocolLine_short. rewrite E. simpl. lia.
    + apply serviceLine_short. rewrite E. simpl. lia.
  - intros ws rest g Hws. pose proof (fieldsOf_comment_only ws rest Hws) as E.
    conjs; [exact E | |].
    + apply protocolLine_short. rewrite E. simpl. lia.
    + apply serviceLine_short. rewrite E. simpl. lia.
Qed.

Lemma comment_is_cut_before_fields_witness :
  fieldsOf (str "foo 6 bar # trailing comment")
  = [str "foo"; str "6"; str "bar"]
  /\ protocolLine (str "   ") startup = Returned tt startup
  /\ serviceLine (str "  # a comment, 1/tcp") startup = Returned tt startup.
Proof.
  destruct comment_is_cut_before_fields as (_ & Hcut & _ & Hblank & Hcomment).
  assert (Hb : blank (str "  ")) by (vm_compute; repeat constructor).
  assert (Hb3 : blank (str "   ")) by (vm_compute; repeat constructor).
  assert (Hpre : ~ In "#"%char (str "foo 6 bar ")) by in_list.
  conjs.
  - exact (Hcut (str "foo 6 bar ") (str " trailing comment") Hpre).
  - exact (proj1 (proj2 (Hblank (str "   ") startup Hb3))).
  - exact (proj2 (proj2 (Hcomment (str "  ") (str " a comment, 1/tcp")
                           startup Hb))).
Defined.

(** ** Line terminators *)

Lemma crLines_cons (line : gostring) (lines : list gostring) :
  lines <> [] -> crLines (line :: lines) = (line ++ [CR]) :: crLines lines.
Proof. destruct lines; [congruence | reflexivity]. Qed.

Lemma linesOf_crlf (data : gostring) :
  linesOf (crlf data) = crLines (linesOf data).
Proof.
  unfold linesOf. induction data as [|c data IH].
  - reflexivity.
  - cbn [crlf splitOn]. destruct (Ascii.eqb c LF) eqn:E.
    + cbn [splitOn]. change (Ascii.eqb CR LF) with false.
      rewrite Ascii.eqb_refl. cbv iota.
      rewrite crLines_cons by apply splitOn_not_nil.
      now rewrite IH.
    + cbn [splitOn]. rewrite E, IH.
      destruct (splitOn LF data) as [|h [|h' r]] eqn:Es.
      * now apply splitOn_not_nil in Es.
      * reflexivity.
      * reflexivity.
Qed.

Lemma forRange_crLines (body : gostring -> M unit) (lines : list gostring) :
  (forall line g, body (line ++ [CR]) g = body line g) ->
  forall g, forRange (crLines lines) body g = forRange lines body g.
Proof.
  intros Hbody. induction lines as [|l [|l' lines] IH]; intros g.
  - reflexivity.
  - reflexivity.
  - change (crLines (l :: l' :: lines))
      with ((l ++ [CR]) :: crLines (l' :: lines)).
    cbn [forRange]. unfold bind. rewrite Hbody.
    destruct (body l g) as [[] g'|v g']; [apply IH | reflexivity].
Qed.

(** C9. A source text loads the same with [CR LF] line terminators as with
    [LF] alone: the text is split at [LF], and the [CR] left at the end of
    a line is white space that [TrimSpace] removes.  The two loads end in
    the same tables, or in the same panic. *)
Theorem crlf_insensitive (data : gostring) (g : Globals) :
  loadProtocols (crlf data) g = loadProtocols data g
  /\ loadServices (crlf data) g = loadServices data g
  /\ (forall fs, init (crlfFiles fs) g = init fs g).
Proof.
  assert (Hp : forall d g', loadProtocols (crlf d) g' = loadProtocols d g').
  { intros d g'. rewrite !loadProtocols_lines, linesOf_crlf.
    apply forRange_crLines. intros line g''.
    apply protocolLine_fields, fieldsOf_CR. }
  assert (Hs : forall d g', loadServices (crlf d) g' = loadServices d g').
  { intros d g'. rewrite !loadServices_lines, linesOf_crlf.
    apply forRange_crLines. intros line g''.
    apply serviceLine_fields, fieldsOf_CR. }
  conjs; auto.
  intros fs. unfold init, bind, readOrPanic, ioutil.ReadFile, crlfFiles.
  destruct (fs "/etc/protocols"%string) as [pdata|e]; [|reflexivity].
  unfold ret. rewrite Hp.
  destruct (loadProtocols pdata g) as [[] g1|v g1]; [|reflexivity].
  destruct (fs "/etc/services"%string) as [sdata|e]; [|reflexivity].
  apply Hs.
Qed.

(** ** The loader and the first fatal line *)

Lemma protocolLine_ofLine (line : gostring) (g : Globals) :
  match protocolOfLine line with
  | Skip => protocolLine line g = Returned tt g
  | Entry r =>
      protocolLine line g
      = Returned tt (mkGlobals (Protocols g ++ [r]) (Services g))
  | Fatal => exists v, protocolLine line g = Panicked v g
  end.
Proof.
  unfold protocolOfLine. cbv zeta.
  destruct (length (fieldsOf line) <? 2)%nat eqn:E.
  - apply Nat.ltb_lt in E. now apply protocolLine_short.
  - apply Nat.ltb_ge in E. rewrite protocolLine_long by assumption.
    pose proof (ParseInt_int32Literal (nth 1 (fieldsOf line) [])) as P.
    destruct (int32Literal (nth 1 (fieldsOf line) [])) as [num|].
    + now rewrite P.
    + destruct P as (v & e & ->). eauto.
Qed.

Lemma serviceLine_ofLine (line : gostring) (g : Globals) :
  match serviceOfLine line with
  | Skip => serviceLine line g = Returned tt g
  | Entry r =>
      serviceLine line g
      = Returned tt (mkGlobals (Protocols g) (Services g ++ [r]))
  | Fatal => exists v, serviceLine line g = Panicked v g
  end.
Proof.
  unfold serviceOfLine. cbv zeta.
  destruct (length (fieldsOf line) <? 2)%nat eqn:E.
  - apply Nat.ltb_lt in E. now apply serviceLine_short.
  - apply Nat.ltb_ge in E. rewrite serviceLine_long by assumption.
    pose proof (ParseInt_int32Literal
                  (cutAt "/" (nth 1 (fieldsOf line) []))) as P.
    destruct (int32Literal (cutAt "/" (nth 1 (fieldsOf line) [])))
      as [port|].
    + rewrite P.
      destruct (afterCut "/" (nth 1 (fieldsOf line) [])); eauto.
    + destruct P as (v & e & ->). eauto.
Qed.

Lemma forRange_protocolLine (lines : list gostring) :
  forall g,
    match tableOf protocolOfLine lines with
    | Some rs =>
        forRange lines protocolLine g
        = Returned tt (mkGlobals (Protocols g ++ rs) (Services g))
    | None => exists v g', forRange lines protocolLine g = Panicked v g'
    end.
Proof.
  induction lines as [|line lines IH]; intros g.
  - simpl. rewrite app_nil_r. now destruct g.
  - cbn [tableOf forRange]. unfold bind.
    pose proof (protocolLine_ofLine line g) as Hl.
    destruct (protocolOfLine line) as [|r|].
    + rewrite Hl. apply IH.
    + rewrite Hl.
      specialize (IH (mkGlobals (Protocols g ++ [r]) (Services g))).
      destruct (tableOf protocolOfLine lines) as [rs|]; cbn [option_map].
      * rewrite IH. cbn [Protocols Services]. now rewrite <- app_assoc.
      * exact IH.
    + destruct Hl as (v & ->). eauto.
Qed.

Lemma forRange_serviceLine (lines : list gostring) :
  forall g,
    match tableOf serviceOfLine lines with
    | Some rs =>
        forRange lines serviceLine g
        = Returned tt (mkGlobals (Protocols g) (Services g ++ rs))
    | None => exists v g', forRange lines serviceLine g = Panicked v g'
    end.
Proof.
  induction lines as [|line lines IH]; intros g.
  - simpl. rewrite app_nil_r. now destruct g.
  - cbn [tableOf forRange]. unfold bind.
    pose proof (serviceLine_ofLine line g) as Hl.
    destruct (serviceOfLine line) as [|r|].
    + rewrite Hl. apply IH.
    + rewrite Hl.
      specialize (IH (mkGlobals (Protocols g) (Services g ++ [r]))).
      destruct (tableOf serviceOfLine lines) as [rs|]; cbn [option_map].
      * rewrite IH. cbn [Protocols Services]. now rewrite <- app_assoc.
      * exact IH.
    + destruct Hl as (v & ->). eauto.
Qed.

Lemma tableOf_None {A : Type} (ofLine : gostring -> LineResult A)
  (lines : list gostring) :
  tableOf ofLine lines = None
  <-> exists line, In line lines /\ ofLine line = Fatal.
Proof.
  induction lines as [|l lines IH]; cbn [tableOf].
  - split; [discriminate | intros (line & [] & _)].
  - destruct (ofLine l) as [|r|] eqn:E.
    + rewrite IH. split.
      * intros (line & Hin & Hf). exists line. split; [now right | exact Hf].
      * intros (line & [->|Hin] & Hf); [congruence | eauto].
    + destruct (tableOf ofLine lines) as [rs|]; cbn [option_map].
      * split; [discriminate|].
        intros (line & [->|Hin] & Hf); [congruence|].
        assert (H : @None (list A) = None) by reflexivity.
        destruct IH as [_ IH]. discriminate IH. eauto.
      * split; [|reflexivity]. intros _.
        destruct IH as [IH _]. destruct (IH eq_refl) as (line & Hin & Hf).
        exists line. split; [now right | exact Hf].
    + split; [|reflexivity]. intros _. exists l. split; [now left | exact E].
Qed.

Lemma protocolOfLine_Fatal (line : gostring) :
  protocolOfLine line = Fatal
  <-> (2 <= length (fieldsOf line))%nat
      /\ int32Literal (nth 1 (fieldsOf line) []) = None.
Proof.
  unfold protocolOfLine. cbv zeta.
  destruct (length (fieldsOf line) <? 2)%nat eqn:E.
  - apply Nat.ltb_lt in E. split; [discriminate | lia].
  - apply Nat.ltb_ge in E.
    destruct (int32Literal (nth 1 (fieldsOf line) [])).
    + split; [discriminate | intros [_ H]; discriminate].
    + tauto.
Qed.

Lemma serviceOfLine_Fatal (line : gostring) :
  serviceOfLine line = Fatal
  <-> (2 <= length (fieldsOf line))%nat
      /\ (int32Literal (cutAt "/" (nth 1 (fieldsOf line) [])) = None
          \/ ~ In "/"%char (nth 1 (fieldsOf line) [])).
Proof.
  unfold serviceOfLine. cbv zeta. rewrite <- afterCut_None.
  destruct (length (fieldsOf line) <? 2)%nat eqn:E.
  - apply Nat.ltb_lt in E. split; [discriminate | lia].
  - apply Nat.ltb_ge in E.
    destruct (int32Literal (cutAt "/" (nth 1 (fieldsOf line) []))).
    + destruct (afterCut "/" (nth 1 (fieldsOf line) [])).
      * split; [discriminate | intros [_ [H|H]]; discriminate].
      * tauto.
    + tauto.
Qed.

(** A source has no table exactly when one of its lines is fatal. *)
Lemma no_table_protocols (data : gostring) :
  tableOf protocolOfLine (linesOf data) = None
  <-> exists line,
      In line (strings.Split data [LF])
      /\ (2 <= length (fieldsOf line))%nat
      /\ int32Literal (nth 1 (fieldsOf line) []) = None.
Proof.
  rewrite tableOf_None. split; intros (line & Hin & H); exists line.
  - apply protocolOfLine_Fatal in H. now rewrite In_Split_linesOf.
  - rewrite In_Split_linesOf in Hin. now rewrite protocolOfLine_Fatal.
Qed.

Lemma no_table_services (data : gostring) :
  tableOf serviceOfLine (linesOf data) = None
  <-> exists line,
      In line (strings.Split data [LF])
      /\ (2 <= length (fieldsOf line))%nat
      /\ (int32Literal (cutAt "/" (nth 1 (fieldsOf line) [])) = None
          \/ ~ In "/"%char (nth 1 (fieldsOf line) [])).
Proof.
  rewrite tableOf_None. split; intros (line & Hin & H); exists line.
  - apply serviceOfLine_Fatal in H. now rewrite In_Split_linesOf.
  - rewrite In_Split_linesOf in Hin. now rewrite serviceOfLine_Fatal.
Qed.

Lemma forRange_protocolLine_before (lines : list gostring) :
  forall g,
    tableOf protocolOfLine lines = None ->
    exists v,
      forRange lines protocolLine g
      = Panicked v (mkGlobals
                      (Protocols g ++ recordsBefore protocolOfLine lines)
                      (Services g)).
Proof.
  induction lines as [|line lines IH]; intros g; [discriminate|].
  cbn [tableOf recordsBefore forRange]. unfold bind.
  pose proof (protocolLine_ofLine line g) as Hl.
  destruct (protocolOfLine line) as [|r|]; intros Ht.
  - rewrite Hl. now apply IH.
  - rewrite Hl.
    destruct (tableOf protocolOfLine lines) as [rs|] eqn:E; [discriminate|].
    destruct (IH (mkGlobals (Protocols g ++ [r]) (Services g)) eq_refl)
      as (v & ->).
    exists v. cbn [Protocols Services]. now rewrite <- app_assoc.
  - destruct Hl as (v & ->). exists v. rewrite app_nil_r. now destruct g.
Qed.

Lemma forRange_serviceLine_before (lines : list gostring) :
  forall g,
    tableOf serviceOfLine lines = None ->
    exists v,
      forRange lines serviceLine g
      = Panicked v (mkGlobals
                      (Protocols g)
                      (Services g ++ recordsBefore serviceOfLine lines)).
Proof.
  induction lines as [|line lines IH]; intros g; [discriminate|].
  cbn [tableOf recordsBefore forRange]. unfold bind.
  pose proof (serviceLine_ofLine line g) as Hl.
  destruct (serviceOfLine line) as [|r|]; intros Ht.
  - rewrite Hl. now apply IH.
  - rewrite Hl.
    destruct (tableOf serviceOfLine lines) as [rs|] eqn:E; [discriminate|].
    destruct (IH (mkGlobals (Protocols g) (Services g ++ [r])) eq_refl)
      as (v & ->).
    exists v. cbn [Protocols Services]. now rewrite <- app_assoc.
  - destruct Hl as (v & ->). exists v. rewrite app_nil_r. now destruct g.
Qed.

(** The records before the first fatal line are those of the lines before
    it. *)
Lemma recordsBefore_first_fatal {A : Type}
  (ofLine : gostring -> LineResult A) (pre : list gostring)
  (line : gostring) (post : list gostring) :
  forall rs,
    tableOf ofLine pre = Some rs -> ofLine line = Fatal ->
    recordsBefore ofLine (pre ++ line :: post) = rs.
Proof.
  induction pre as [|l pre IH]; intros rs Hpre Hline.
  - injection Hpre as <-. cbn [app recordsBefore]. now rewrite Hline.
  - cbn [app recordsBefore]. cbn [tableOf] in Hpre.
    destruct (ofLine l) as [|r|]; [now apply IH| |discriminate].
    destruct (tableOf ofLine pre) as [rs'|]; [|discriminate].
    injection Hpre as <-. f_equal. now apply IH.
Qed.

Lemma first_fatal_line {A : Type} (ofLine : gostring -> LineResult A)
  (lines : list gostring) :
  tableOf ofLine lines = None ->
  exists pre line post rs,
    lines = pre ++ line :: post
    /\ tableOf ofLine pre = Some rs
    /\ ofLine line = Fatal.
Proof.
  induction lines as [|l lines IH]; [discriminate|].
  cbn [tableOf]. destruct (ofLine l) as [|r|] eqn:E; intros H.
  - destruct (IH H) as (pre & line & post & rs & -> & Hpre & Hline).
    exists (l :: pre), line, post, rs. cbn [tableOf app]. rewrite E. auto.
  - destruct (tableOf ofLine lines) as [rs'|]; [discriminate|].
    destruct (IH eq_refl) as (pre & line & post & rs & -> & Hpre & Hline).
    exists (l :: pre), line, post, (r :: rs). cbn [tableOf app].
    rewrite E, Hpre. auto.
  - exists [], l, lines, []. auto.
Qed.

(** C2, as the claim states it, fails: a load that fails does not leave
    the table empty or unchanged.  The first line of each of these sources
    is a record and the second is fatal; at the panic the slice holds the
    record of the first line, for the loops and for [init]. *)
Lemma failed_load_leaves_partial_table :
  loadProtocols protocols_with_bad_number startup
  = Panicked
      (ErrorValue
         (NumErr (strconv.mkNumError "ParseInt" (str "bar") strconv.ErrSyntax)))
      (mkGlobals [tcp_proto] [])
  /\ loadServices services_without_slash startup
     = Panicked (IndexOutOfRange 1 1) (mkGlobals [] [http_tcp])
  /\ (exists v, init broken_files startup
                = Panicked v (mkGlobals [tcp_proto] []))
  /\ ~ (forall data g v g',
           loadProtocols data g = Panicked v g' -> Protocols g' = Protocols g)
  /\ ~ (forall data g v g',
           loadServices data g = Panicked v g' -> Services g' = Services g).
Proof.
  assert (H1 : loadProtocols protocols_with_bad_number startup
               = Panicked
                   (ErrorValue
                      (NumErr (strconv.mkNumError "ParseInt" (str "bar")
                                 strconv.ErrSyntax)))
                   (mkGlobals [tcp_proto] []))
    by (vm_compute; reflexivity).
  assert (H2 : loadServices services_without_slash startup
               = Panicked (IndexOutOfRange 1 1) (mkGlobals [] [http_tcp]))
    by (vm_compute; reflexivity).
  conjs.
  - exact H1.
  - exact H2.
  - eexists. vm_compute. reflexivity.
  - intros H. specialize (H _ _ _ _ H1). discriminate.
  - intros H. specialize (H _ _ _ _ H2). discriminate.
Qed.

(** C2, amended.  A load stops at the first fatal line and rolls nothing
    back.  A source has a fatal line when a line of at least two fields
    has a malformed number or, for the services, no [/] in its second
    field.  Without a fatal line the loop returns and has appended the
    records of all the lines, in order.  With one, the loop panics and the
    slice holds what it held followed by the records of the lines before
    the first fatal line; the other slice is as it was.  So for [init]:
    with a fatal protocol line it panics with [Protocols] holding the
    records before that line and [Services] empty; with a fatal service
    line it panics with [Protocols] complete and [Services] holding the
    records before that line; otherwise it returns with both tables
    complete. *)
Theorem load_stops_at_first_fatal_line :
  (forall data g,
      match tableOf protocolOfLine (linesOf data) with
      | Some rs =>
          loadProtocols data g
          = Returned tt (mkGlobals (Protocols g ++ rs) (Services g))
      | None =>
          exists v,
            loadProtocols data g
            = Panicked v
                (mkGlobals
                   (Protocols g
                      ++ recordsBefore protocolOfLine (linesOf data))
                   (Services g))
      end)
  /\ (forall data g,
         match tableOf serviceOfLine (linesOf data) with
         | Some rs =>
             loadServices data g
             = Returned tt (mkGlobals (Protocols g) (Services g ++ rs))
         | None =>
             exists v,
               loadServices data g
               = Panicked v
                   (mkGlobals
                      (Protocols g)
                      (Services g
                         ++ recordsBefore serviceOfLine (linesOf data)))
         end)
  /\ (forall fs pdata sdata,
         fs "/etc/protocols"%string = inl pdata ->
         fs "/etc/services"%string = inl sdata ->
         match tableOf protocolOfLine (linesOf pdata),
               tableOf serviceOfLine (linesOf sdata) with
         | Some ps, Some ss => init fs startup = Returned tt (mkGlobals ps ss)
         | Some ps, None =>
             exists v,
               init fs startup
               = Panicked v
                   (mkGlobals ps
                      (recordsBefore serviceOfLine (linesOf sdata)))
         | None, _ =>
             exists v,
               init fs startup
               = Panicked v
                   (mkGlobals
                      (recordsBefore protocolOfLine (linesOf pdata)) [])
         end)
  /\ (forall data,
         tableOf protocolOfLine (linesOf data) = None
         <-> exists line,
             In line (strings.Split data [LF])
             /\ (2 <= length (fieldsOf line))%nat
             /\ int32Literal (nth 1 (fieldsOf line) []) = None)
  /\ (forall data,
         tableOf serviceOfLine (linesOf data) = None
         <-> exists line,
             In line (strings.Split data [LF])
             /\ (2 <= length (fieldsOf line))%nat
             /\ (int32Literal (cutAt "/" (nth 1 (fieldsOf line) [])) = None
                 \/ ~ In "/"%char (nth 1 (fieldsOf line) [])))
  /\ (forall (ofLine : gostring -> LineResult Protoent.t) lines,
         tableOf ofLine lines = None ->
         exists pre line post rs,
           lines = pre ++ line :: post
           /\ tableOf ofLine pre = Some rs
           /\ ofLine line = Fatal
           /\ recordsBefore ofLine lines = rs)
  /\ (forall (ofLine : gostring -> LineResult Servent.t) lines,
         tableOf ofLine lines = None ->
         exists pre line post rs,
           lines = pre ++ line :: post
           /\ tableOf ofLine pre = Some rs
           /\ ofLine line = Fatal
           /\ recordsBefore ofLine lines = rs).
Proof.
  assert (Hp : forall data g,
      match tableOf protocolOfLine (linesOf data) with
      | Some rs =>
          loadProtocols data g
          = Returned tt (mkGlobals (Protocols g ++ rs) (Services g))
      | None =>
          exists v,
            loadProtocols data g
            = Panicked v
                (mkGlobals
                   (Protocols g
                      ++ recordsBefore protocolOfLine (linesOf data))
                   (Services g))
      end).
  { intros data g. rewrite loadProtocols_lines.
    pose proof (forRange_protocolLine (linesOf data) g) as H.
    destruct (tableOf protocolOfLine (linesOf data)) as [rs|] eqn:E;
      [exact H|].
    now apply forRange_protocolLine_before. }
  assert (Hs : forall data g,
      match tableOf serviceOfLine (linesOf data) with
      | Some rs =>
          loadServices data g
          = Returned tt (mkGlobals (Protocols g) (Services g ++ rs))
      | None =>
          exists v,
            loadServices data g
            = Panicked v
                (mkGlobals
                   (Protocols g)
                   (Services g
                      ++ recordsBefore serviceOfLine (linesOf data)))
      end).
  { intros data g. rewrite loadServices_lines.
    pose proof (forRange_serviceLine (linesOf data) g) as H.
    destruct (tableOf serviceOfLine (linesOf data)) as [rs|] eqn:E;
      [exact H|].
    now apply forRange_serviceLine_before. }
  assert (Hcut : forall (A : Type) (ofLine : gostring -> LineResult A) lines,
             tableOf ofLine lines = None ->
             exists pre line post rs,
               lines = pre ++ line :: post
               /\ tableOf ofLine pre = Some rs
               /\ ofLine line = Fatal
               /\ recordsBefore ofLine lines = rs).
  { intros A ofLine lines H.
    destruct (first_fatal_line ofLine lines H)
      as (pre & line & post & rs & -> & Hpre & Hline).
    exists pre, line, post, rs. conjs; auto.
    now apply recordsBefore_first_fatal. }
  conjs.
  - exact Hp.
  - exact Hs.
  - intros fs pdata sdata Hpf Hsf.
    assert (Hinit : init fs startup
                    = match loadProtocols pdata startup with
                      | Returned _ g1 => loadServices sdata g1
                      | Panicked v g1 => Panicked v g1
                      end).
    { unfold init, bind, readOrPanic, ioutil.ReadFile. rewrite Hpf.
      unfold ret.
      destruct (loadProtocols pdata startup) as [[] g1|v g1]; [|reflexivity].
      now rewrite Hsf. }
    specialize (Hp pdata startup).
    destruct (tableOf protocolOfLine (linesOf pdata)) as [ps|].
    + rewrite Hp in Hinit. cbn [Protocols Services startup app] in Hinit.
      specialize (Hs sdata (mkGlobals ps [])).
      cbn [Protocols Services app] in Hs.
      destruct (tableOf serviceOfLine (linesOf sdata)) as [ss|].
      * now rewrite Hinit.
      * destruct Hs as (v & Hs). exists v. now rewrite Hinit.
    + destruct Hp as (v & Hp). exists v. now rewrite Hinit, Hp.
  - apply no_table_protocols.
  - apply no_table_services.
  - apply Hcut.
  - apply Hcut.
Qed.

Lemma load_stops_at_first_fatal_line_witness :
  (exists v, init broken_files startup
             = Panicked v (mkGlobals [tcp_proto] []))
  /\ init sample_files startup = Returned tt sample_loaded.
Proof.
  destruct load_stops_at_first_fatal_line as (_ & _ & Hinit & _).
  pose proof (Hinit broken_files _ _ eq_refl eq_refl) as H1.
  pose proof (Hinit sample_files _ _ eq_refl eq_refl) as H2.
  vm_compute tableOf in H1, H2.
  split; [exact H1 | exact H2].
Defined.

(** ** Lines written as words *)

Lemma wordByte_spec (c : ascii) :
  wordByte c = true ->
  b c < 0x80 /\ unicode.IsSpace (b c) = false /\ c <> "#"%char.
Proof.
  unfold wordByte. rewrite !andb_true_iff, !negb_true_iff.
  intros [[H1 H2] H3]. apply Z.ltb_lt in H1. apply Ascii.eqb_neq in H3. auto.
Qed.

Lemma IsSpace_space : unicode.IsSpace (b " ") = true.
Proof. reflexivity. Qed.

Lemma FieldsFunc_loop_word (w u : gostring) :
  Forall (fun c => wordByte c = true) w -> w <> [] ->
  forall cur,
    strings.FieldsFunc_loop (utf8.rangeString (w ++ u)) unicode.IsSpace cur
    = strings.FieldsFunc_loop (utf8.rangeString u) unicode.IsSpace
        (Some (match cur with Some x => x | None => [] end ++ w)).
Proof.
  induction w as [|c w IH]; intros Hw Hne cur; [congruence|].
  inversion Hw as [|? ? Hc Hw']; subst.
  apply wordByte_spec in Hc as (Hc1 & Hc2 & _).
  cbn [app]. rewrite rangeString_ascii by assumption.
  cbn [strings.FieldsFunc_loop]. rewrite Hc2.
  destruct w as [|d w].
  - cbn [app]. now destruct cur.
  - destruct cur as [x|].
    + rewrite IH by (auto; discriminate). cbn iota.
      now rewrite <- app_assoc.
    + rewrite IH by (auto; discriminate). reflexivity.
Qed.

Lemma Fields_unwords (ws : list gostring) :
  Forall word ws -> strings.Fields (unwords ws) = ws.
Proof.
  unfold strings.Fields, strings.FieldsFunc.
  induction ws as [|w [|w' ws] IH]; intros H.
  - reflexivity.
  - inversion H as [|? ? [Hne Hw] _]; subst. cbn [unwords].
    rewrite <- (app_nil_r w) at 1.
    rewrite FieldsFunc_loop_word by assumption. reflexivity.
  - inversion H as [|? ? [Hne Hw] H']; subst.
    change (unwords (w :: w' :: ws))
      with (w ++ " "%char :: unwords (w' :: ws)).
    rewrite FieldsFunc_loop_word by assumption.
    rewrite rangeString_ascii by (vm_compute; reflexivity).
    cbn [strings.FieldsFunc_loop]. rewrite IsSpace_space.
    cbn [app]. f_equal. now apply IH.
Qed.

Lemma unwords_bytes (ws : list gostring) :
  Forall word ws ->
  Forall (fun c => wordByte c = true \/ c = " "%char) (unwords ws).
Proof.
  induction ws as [|w [|w' ws] IH]; intros H.
  - constructor.
  - inversion H as [|? ? [_ Hw] _]; subst. cbn [unwords].
    eapply Forall_impl; [|exact Hw]. auto.
  - inversion H as [|? ? [_ Hw] H']; subst.
    change (unwords (w :: w' :: ws))
      with (w ++ " "%char :: unwords (w' :: ws)).
    apply Forall_app. split.
    + eapply Forall_impl; [|exact Hw]. auto.
    + constructor; [now right | now apply IH].
Qed.

Lemma unwords_ends (ws : list gostring) :
  ws <> [] -> Forall word ws ->
  (exists a u, unwords ws = a :: u /\ wordByte a = true)
  /\ (exists u a, unwords ws = u ++ [a] /\ wordByte a = true).
Proof.
  induction ws as [|w [|w' ws] IH]; intros Hne H; [congruence| |].
  - inversion H as [|? ? [Hw1 Hw] _]; subst. cbn [unwords]. split.
    + destruct w as [|a u]; [congruence|]. exists a, u.
      inversion Hw; subst. auto.
    + destruct (exists_last Hw1) as (u & a & ->). exists u, a.
      apply Forall_app in Hw as [_ Hw]. inversion Hw; subst. auto.
  - inversion H as [|? ? [Hw1 Hw] H']; subst.
    change (unwords (w :: w' :: ws))
      with (w ++ " "%char :: unwords (w' :: ws)).
    destruct (IH ltac:(discriminate) H') as [_ (u & a & E & Ha)]. split.
    + destruct w as [|a0 u0]; [congruence|]. exists a0, (u0 ++ " "%char :: unwords (w' :: ws)).
      inversion Hw; subst. auto.
    + exists (w ++ " "%char :: u), a. rewrite E.
      split; [|exact Ha]. now rewrite <- app_assoc.
Qed.

Lemma TrimSpace_unwords (ws : list gostring) :
  Forall word ws -> strings.TrimSpace (unwords ws) = unwords ws.
Proof.
  intros H. destruct ws as [|w ws]; [reflexivity|].
  destruct (unwords_ends (w :: ws) ltac:(discriminate) H)
    as [(a & u & E1 & Ha) (u' & a' & E2 & Ha')].
  unfold strings.TrimSpace, strings.TrimFunc.
  apply wordByte_spec in Ha as (Ha1 & Ha2 & _).
  apply wordByte_spec in Ha' as (Hb1 & Hb2 & _).
  assert (Hl : strings.TrimLeftFunc (unwords (w :: ws)) unicode.IsSpace
               = unwords (w :: ws)).
  { rewrite E1. rewrite TrimLeftFunc_step by discriminate.
    rewrite DecodeRune_ascii by assumption. cbn [fst]. now rewrite Ha2. }
  rewrite Hl, E2.
  destruct (TrimRightFunc_after_ascii unicode.IsSpace u' [] a' Hb1 Hb2)
    as (k & ->).
  now rewrite firstn_nil.
Qed.

Lemma fieldsOf_unwords (ws : list gostring) :
  Forall word ws -> fieldsOf (unwords ws) = ws.
Proof.
  intros H. unfold fieldsOf. rewrite TrimSpace_unwords by assumption.
  rewrite cutAt_not_In; [now apply Fields_unwords|].
  intros Hin. pose proof (unwords_bytes ws H) as Hb.
  rewrite Forall_forall in Hb. destruct (Hb _ Hin) as [Hw|E]; [|discriminate].
  apply wordByte_spec in Hw as (_ & _ & Hw). congruence.
Qed.

Lemma unwords_no_LF (ws : list gostring) :
  Forall word ws -> ~ In LF (unwords ws).
Proof.
  intros H Hin. pose proof (unwords_bytes ws H) as Hb.
  rewrite Forall_forall in Hb. destruct (Hb _ Hin) as [Hw|E]; discriminate.
Qed.

Lemma digit_wordByte (c : ascii) :
  digitValue c <> None -> wordByte c = true.
Proof.
  destruct c as [[] [] [] [] [] [] [] []]; vm_compute; congruence.
Qed.

Lemma decimalValue_digits (ds : gostring) :
  forall acc v, decimalValue ds acc = Some v ->
                Forall (fun c => wordByte c = true) ds.
Proof.
  induction ds as [|c ds IH]; intros acc v H; [constructor|].
  cbn [decimalValue] in H.
  destruct (digitValue c) as [d|] eqn:E; [|discriminate].
  constructor; [apply digit_wordByte; congruence | eapply IH, H].
Qed.

Lemma int32Literal_word (s : gostring) (z : Z) :
  int32Literal s = Some z -> word s.
Proof.
  unfold int32Literal, word. destruct s as [|c s]; [discriminate|].
  intros H. split; [discriminate|].
  destruct (Ascii.eqb c "+") eqn:Ep.
  - apply Ascii.eqb_eq in Ep. subst c.
    destruct s as [|d s]; [discriminate|].
    destruct (decimalValue (d :: s) 0) as [v|] eqn:Ev; [|discriminate].
    constructor; [reflexivity | eapply decimalValue_digits, Ev].
  - destruct (Ascii.eqb c "-") eqn:Em.
    + apply Ascii.eqb_eq in Em. subst c.
      destruct s as [|d s]; [discriminate|].
      destruct (decimalValue (d :: s) 0) as [v|] eqn:Ev; [|discriminate].
      constructor; [reflexivity | eapply decimalValue_digits, Ev].
    + destruct (decimalValue (c :: s) 0) as [v|] eqn:Ev; [|discriminate].
      eapply decimalValue_digits, Ev.
Qed.

(** C7. A source that is one valid protocol line, with or without the
    line terminator, loads as a table of one record: its name is the first
    field of the line, its number the value of the second, its aliases the
    fields from the third on, in order; [GetProtoByNumber] of the number
    returns that record.  The fields of the line [name num alias...],
    written with one space between its words, are these words. *)
Theorem single_protocol_line_loads :
  (forall line num,
      ~ In LF line ->
      (2 <= length (fieldsOf line))%nat ->
      int32Literal (nth 1 (fieldsOf line) []) = Some num ->
      let record := Protoent.mk (nth 0 (fieldsOf line) [])
                                (skipn 2 (fieldsOf line)) num in
      loadProtocols line startup = Returned tt (mkGlobals [record] [])
      /\ loadProtocols (line ++ [LF]) startup
         = Returned tt (mkGlobals [record] [])
      /\ GetProtoByNumber (mkGlobals [record] []) num = (record, true))
  /\ (forall name number aliases num,
         word name -> int32Literal number = Some num -> Forall word aliases ->
         let line := unwords (name :: number :: aliases) in
         let record := Protoent.mk name aliases num in
         fieldsOf line = name :: number :: aliases
         /\ loadProtocols line startup = Returned tt (mkGlobals [record] [])
         /\ loadProtocols (line ++ [LF]) startup
            = Returned tt (mkGlobals [record] [])
         /\ GetProtoByNumber (mkGlobals [record] []) num = (record, true)).
Proof.
  split; [exact protocol_line_alone|].
  intros name number aliases num Hname Hnum Haliases line record.
  assert (Hwords : Forall word (name :: number :: aliases)).
  { constructor; [exact Hname|].
    constructor; [exact (int32Literal_word number num Hnum) | exact Haliases]. }
  assert (Hfields : fieldsOf line = name :: number :: aliases)
    by now apply fieldsOf_unwords.
  assert (Hlf : ~ In LF line) by now apply unwords_no_LF.
  assert (Hlen : (2 <= length (fieldsOf line))%nat)
    by (rewrite Hfields; simpl; lia).
  assert (Hsecond : int32Literal (nth 1 (fieldsOf line) []) = Some num)
    by now rewrite Hfields.
  pose proof (protocol_line_alone line num Hlf Hlen Hsecond) as H.
  cbv zeta in H. rewrite Hfields in H. cbn [nth skipn] in H.
  split; [exact Hfields | exact H].
Qed.

Lemma single_protocol_line_loads_witness :
  loadProtocols (str "tcp 6 TCP") startup
  = Returned tt (mkGlobals [tcp_proto] [])
  /\ GetProtoByNumber (mkGlobals [tcp_proto] []) 6 = (tcp_proto, true)
  /\ fieldsOf (unwords [str "udp"; str "17"; str "UDP"])
     = [str "udp"; str "17"; str "UDP"].
Proof.
  assert (H1 : ~ In LF (str "tcp 6 TCP")) by in_list.
  assert (H2 : (2 <= length (fieldsOf (str "tcp 6 TCP")))%nat)
    by (vm_compute; repeat constructor).
  assert (H3 : int32Literal (nth 1 (fieldsOf (str "tcp 6 TCP")) []) = Some 6)
    by (vm_compute; reflexivity).
  assert (H4 : word (str "udp"))
    by (split; [discriminate | repeat constructor]).
  assert (H5 : int32Literal (str "17") = Some 17) by (vm_compute; reflexivity).
  assert (H6 : Forall word [str "UDP"])
    by (repeat constructor; discriminate).
  destruct single_protocol_line_loads as [Hfields Hwords].
  destruct (Hfields (str "tcp 6 TCP") 6 H1 H2 H3) as (Hload & _ & Hget).
  destruct (Hwords (str "udp") (str "17") [str "UDP"] 17 H4 H5 H6)
    as (Hf & _).
  conjs; [exact Hload | exact Hget | exact Hf].
Defined.

(** ** The scenarios of the specification *)

Example protocol_scenario :
  init sample_files startup = Returned tt sample_loaded
  /\ GetProtoByNumber sample_loaded 6 = (tcp_proto, true)
  /\ GetProtoByName sample_loaded (str "UDP") = (udp_proto, true)
  /\ GetProtoByNumber sample_loaded 99 = (Protoent.zero, false).
Proof. vm_compute. conjs; reflexivity. Qed.

Example service_scenario :
  GetServByName sample_loaded (str "www") [] = (http_tcp, true)
  /\ GetServByPort sample_loaded 80 (str "udp") = (Servent.zero, false)
  /\ GetServByPort sample_loaded 80 [] = (http_tcp, true)
  /\ GetServByPort sample_loaded 80 (str "tcp") = (http_tcp, true).
Proof. vm_compute. conjs; reflexivity. Qed.

(** [Equal] compares the numbers and nothing else. *)
Lemma Equal_spec (this other : Protoent.t) :
  Equal this other = true <-> Protoent.Number this = Protoent.Number other.
Proof. unfold Equal. apply Z.eqb_eq. Qed.

(** ** What a lookup returns *)

Lemma found_true {A : Type} (p : A -> bool) (zero : A) (l : list A) (r : A) :
  found zero (find p l) = (r, true) -> In r l /\ p r = true.
Proof.
  destruct (find p l) as [x|] eqn:E; simpl; [|discriminate].
  intros [= <-]. now apply find_some in E.
Qed.

Lemma found_false {A : Type} (p : A -> bool) (zero : A) (l : list A) (r : A) :
  found zero (find p l) = (r, false) ->
  r = zero /\ forall x, In x l -> p x = false.
Proof.
  destruct (find p l) as [x|] eqn:E; simpl; [discriminate|].
  intros [= <-]. split; [reflexivity|]. intros x Hx.
  now apply (find_none _ _ E).
Qed.

Lemma found_exists {A : Type} (p : A -> bool) (zero : A) (l : list A) (x : A) :
  In x l -> p x = true -> snd (found zero (find p l)) = true.
Proof.
  intros Hin Hp. destruct (find p l) as [r|] eqn:E; [reflexivity|].
  rewrite (find_none _ _ E x Hin) in Hp. discriminate.
Qed.

Lemma find_app {A : Type} (p : A -> bool) (l l' : list A) :
  find p (l ++ l') = match find p l with
                     | Some r => Some r
                     | None => find p l'
                     end.
Proof.
  induction l as [|x l IH]; simpl; [reflexivity|].
  now destruct (p x).
Qed.

Lemma found_app {A : Type} (p : A -> bool) (zero : A) (l l' : list A) :
  found zero (find p (l ++ l'))
  = orElse (found zero (find p l)) (found zero (find p l')).
Proof. rewrite find_app. now destruct (find p l). Qed.

Lemma find_filter {A : Type} (p q : A -> bool) (l : list A) :
  find p (filter q l) = find (fun x => q x && p x) l.
Proof.
  induction l as [|x l IH]; simpl; [reflexivity|].
  destruct (q x); simpl; [|exact IH]. now destruct (p x).
Qed.

Lemma find_ext {A : Type} (p q : A -> bool) (l : list A) :
  (forall x, p x = q x) -> find p l = find q l.
Proof.
  intros H. induction l as [|x l IH]; simpl; [reflexivity|].
  rewrite H, IH. reflexivity.
Qed.

(** X1. A lookup that finds returns a record of the table that the query
    fits; a lookup that does not find returns the zero record, and then no
    record of the table fits the query. *)
Theorem lookups_sound_and_complete (g : Globals) :
  (forall n r, GetProtoByNumber g n = (r, true) ->
               In r (Protocols g) /\ Protoent.Number r = n)
  /\ (forall n r, GetProtoByNumber g n = (r, false) ->
                  r = Protoent.zero
                  /\ forall p, In p (Protocols g) -> Protoent.Number p <> n)
  /\ (forall name r, GetProtoByName g name = (r, true) ->
                     In r (Protocols g) /\ protoNamed name r)
  /\ (forall name r, GetProtoByName g name = (r, false) ->
                     r = Protoent.zero
                     /\ forall p, In p (Protocols g) -> ~ protoNamed name p)
  /\ (forall name protocol r,
         GetServByName g name protocol = (r, true) ->
         In r (Services g) /\ servAllowed protocol r /\ servNamed name r)
  /\ (forall name protocol r,
         GetServByName g name protocol = (r, false) ->
         r = Servent.zero
         /\ forall s, In s (Services g) ->
                      ~ (servAllowed protocol s /\ servNamed name s))
  /\ (forall port protocol r,
         GetServByPort g port protocol = (r, true) ->
         In r (Services g) /\ servAllowed protocol r /\ Servent.Port r = port)
  /\ (forall port protocol r,
         GetServByPort g port protocol = (r, false) ->
         r = Servent.zero
         /\ forall s, In s (Services g) ->
                      ~ (servAllowed protocol s /\ Servent.Port s = port)).
Proof.
  unfold GetProtoByNumber, GetProtoByName, GetServByName, GetServByPort.
  conjs.
  - intros n r H. rewrite GetProtoByNumber_loop_find in H.
    apply found_true in H as [Hin Hp]. now apply Z.eqb_eq in Hp.
  - intros n r H. rewrite GetProtoByNumber_loop_find in H.
    apply found_false in H as [-> Hp]. split; [reflexivity|].
    intros p Hin E. apply Hp in Hin. apply Z.eqb_neq in Hin. contradiction.
  - intros name r H. rewrite GetProtoByName_loop_find in H.
    apply found_true in H as [Hin Hp]. now apply protoNamedb_spec in Hp.
  - intros name r H. rewrite GetProtoByName_loop_find in H.
    apply found_false in H as [-> Hp]. split; [reflexivity|].
    intros p Hin E. apply Hp in Hin. apply protoNamedb_spec in E. congruence.
  - intros name protocol r H. rewrite GetServByName_loop_find in H.
    apply found_true in H as [Hin Hp]. apply andb_true_iff in Hp as [H1 H2].
    apply servAllowedb_spec in H1. apply servNamedb_spec in H2. auto.
  - intros name protocol r H. rewrite GetServByName_loop_find in H.
    apply found_false in H as [-> Hp]. split; [reflexivity|].
    intros s Hin [H1 H2]. apply Hp in Hin.
    apply servAllowedb_spec in H1. apply servNamedb_spec in H2.
    rewrite H1, H2 in Hin. discriminate.
  - intros port protocol r H. rewrite GetServByPort_loop_find in H.
    apply found_true in H as [Hin Hp]. apply andb_true_iff in Hp as [H1 H2].
    apply servAllowedb_spec in H1. apply Z.eqb_eq in H2. auto.
  - intros port protocol r H. rewrite GetServByPort_loop_find in H.
    apply found_false in H as [-> Hp]. split; [reflexivity|].
    intros s Hin [H1 H2]. apply Hp in Hin.
    apply servAllowedb_spec in H1. apply Z.eqb_eq in H2.
    rewrite H1, H2 in Hin. discriminate.
Qed.

Lemma lookups_sound_and_complete_witness :
  (In tcp_proto (Protocols sample) /\ Protoent.Number tcp_proto = 6)
  /\ (forall p, In p (Protocols sample) -> Protoent.Number p <> 99).
Proof.
  destruct (lookups_sound_and_complete sample) as (H1 & H2 & _).
  split.
  - apply (H1 6 tcp_proto). reflexivity.
  - apply (H2 99 Protoent.zero). reflexivity.
Defined.

(** X2. [Equal] is an equivalence on the protocol records that looks at
    the number only, and for every record of the table the lookup of its
    number finds a record that is [Equal] to it. *)
Theorem Equal_equivalence_and_lookup :
  (forall a, Equal a a = true)
  /\ (forall a c, Equal a c = Equal c a)
  /\ (forall a c d, Equal a c = true -> Equal c d = true -> Equal a d = true)
  /\ (forall n name aliases name' aliases',
         Equal (Protoent.mk name aliases n) (Protoent.mk name' aliases' n)
         = true)
  /\ (forall a c, Equal a c = true
                  <-> Protoent.Number a = Protoent.Number c)
  /\ (forall g p, In p (Protocols g) ->
                  exists r, GetProtoByNumber g (Protoent.Number p) = (r, true)
                            /\ In r (Protocols g)
                            /\ Equal r p = true).
Proof.
  unfold Equal. conjs.
  - intros a. apply Z.eqb_refl.
  - intros a c. apply Z.eqb_sym.
  - intros a c d H1 H2. apply Z.eqb_eq in H1, H2. apply Z.eqb_eq. congruence.
  - intros. apply Z.eqb_refl.
  - intros a c. apply Z.eqb_eq.
  - intros g p Hin. unfold GetProtoByNumber.
    rewrite GetProtoByNumber_loop_find.
    destruct (find (fun q => Protoent.Number q =? Protoent.Number p)
                   (Protocols g)) as [r|] eqn:E.
    + exists r. apply find_some in E as [Hr Hn]. auto.
    + apply (find_none _ _ E) in Hin. rewrite Z.eqb_refl in Hin. discriminate.
Qed.

Lemma Equal_equivalence_and_lookup_witness :
  exists r, GetProtoByNumber sample (Protoent.Number six_proto) = (r, true)
            /\ In r (Protocols sample)
            /\ Equal r six_proto = true.
Proof.
  apply (proj2 (proj2 (proj2 (proj2 (proj2 Equal_equivalence_and_lookup))))
           sample six_proto).
  simpl. auto.
Defined.

(** X3. With a non-empty protocol the service lookups answer as the
    lookups with the empty protocol on the table with the records of the
    other protocols taken out. *)
Theorem protocol_argument_filters_table (g : Globals) (protocol : gostring) :
  protocol <> [] ->
  (forall name,
      GetServByName g name protocol
      = GetServByName (onlyProtocol protocol g) name [])
  /\ (forall port,
         GetServByPort g port protocol
         = GetServByPort (onlyProtocol protocol g) port []).
Proof.
  intros Hne.
  assert (Hp : gostring_eqb protocol [] = false).
  { destruct (gostring_eqb protocol []) eqn:E; [|reflexivity].
    apply gostring_eqb_eq in E. contradiction. }
  unfold GetServByName, GetServByPort, onlyProtocol. cbn [Services].
  split; intros x.
  - rewrite !GetServByName_loop_find, find_filter. f_equal.
    apply find_ext. intros s. unfold servAllowedb.
    rewrite Hp, gostring_eqb_refl. simpl.
    now destruct (gostring_eqb (Servent.Protocol s) protocol).
  - rewrite !GetServByPort_loop_find, find_filter. f_equal.
    apply find_ext. intros s. unfold servAllowedb.
    rewrite Hp, gostring_eqb_refl. simpl.
    now destruct (gostring_eqb (Servent.Protocol s) protocol).
Qed.

Lemma protocol_argument_filters_table_witness :
  GetServByName sample (str "www") (str "udp")
  = GetServByName (onlyProtocol (str "udp") sample) (str "www") [].
Proof.
  apply (proj1 (protocol_argument_filters_table sample (str "udp")
                  ltac:(discriminate))).
Defined.

(** X4. A record that a service lookup finds with the empty protocol is
    found again, the same record, under its own protocol; and what is
    found under a protocol is not missed with the empty protocol. *)
Theorem wildcard_answer_has_its_protocol (g : Globals) :
  (forall name r,
      GetServByName g name [] = (r, true) ->
      GetServByName g name (Servent.Protocol r) = (r, true))
  /\ (forall port r,
         GetServByPort g port [] = (r, true) ->
         GetServByPort g port (Servent.Protocol r) = (r, true))
  /\ (forall name protocol r,
         GetServByName g name protocol = (r, true) ->
         snd (GetServByName g name []) = true)
  /\ (forall port protocol r,
         GetServByPort g port protocol = (r, true) ->
         snd (GetServByPort g port []) = true).
Proof.
  assert (Hany : forall s, servAllowedb [] s = true).
  { intros s. unfold servAllowedb. now rewrite gostring_eqb_refl. }
  assert (Hown : forall s, servAllowedb (Servent.Protocol s) s = true).
  { intros s. unfold servAllowedb. rewrite gostring_eqb_refl.
    apply orb_true_r. }
  assert (Hfirst : forall (q : Servent.t -> bool) (l : list Servent.t) r,
             find (fun s => servAllowedb [] s && q s) l = Some r ->
             find (fun s => servAllowedb (Servent.Protocol r) s && q s) l
             = Some r).
  { intros q l r. induction l as [|s l IH]; cbn [find]; [discriminate|].
    destruct (q s) eqn:Eq.
    - rewrite Hany. cbn [andb]. intros [= E']. subst.
      rewrite Hown. cbn [andb]. destruct (q r); [reflexivity|discriminate].
    - rewrite !andb_false_r. exact IH. }
  unfold GetServByName, GetServByPort. conjs.
  - intros name r H. rewrite GetServByName_loop_find in *.
    destruct (find _ (Services g)) as [x|] eqn:E; [|discriminate].
    injection H as ->. now rewrite (Hfirst _ _ _ E).
  - intros port r H. rewrite GetServByPort_loop_find in *.
    destruct (find _ (Services g)) as [x|] eqn:E; [|discriminate].
    injection H as ->. now rewrite (Hfirst _ _ _ E).
  - intros name protocol r H. rewrite GetServByName_loop_find in *.
    apply found_true in H as [Hin Hp]. apply andb_true_iff in Hp as [_ Hp].
    apply (found_exists _ _ _ r Hin). now rewrite Hany.
  - intros port protocol r H. rewrite GetServByPort_loop_find in *.
    apply found_true in H as [Hin Hp]. apply andb_true_iff in Hp as [_ Hp].
    apply (found_exists _ _ _ r Hin). now rewrite Hany.
Qed.

Lemma wildcard_answer_has_its_protocol_witness :
  GetServByPort sample 8080 (Servent.Protocol www_udp) = (www_udp, true)
  /\ snd (GetServByName sample (str "www") []) = true.
Proof.
  destruct (wildcard_answer_has_its_protocol sample) as (_ & H2 & H3 & _).
  split.
  - apply (H2 8080 www_udp). reflexivity.
  - apply (H3 (str "www") (str "udp") www_udp). reflexivity.
Defined.

(** X5. Records after the ones of a table are looked at only when the
    table has no answer: every lookup on the longer table is the lookup on
    the table when that finds, and the lookup on the further records
    otherwise. *)
Theorem later_records_never_shadow (g : Globals) (ps : list Protoent.t)
  (ss : list Servent.t) :
  (forall n,
      GetProtoByNumber (extended g ps ss) n
      = orElse (GetProtoByNumber g n) (GetProtoByNumber (mkGlobals ps ss) n))
  /\ (forall name,
         GetProtoByName (extended g ps ss) name
         = orElse (GetProtoByName g name)
                  (GetProtoByName (mkGlobals ps ss) name))
  /\ (forall name protocol,
         GetServByName (extended g ps ss) name protocol
         = orElse (GetServByName g name protocol)
                  (GetServByName (mkGlobals ps ss) name protocol))
  /\ (forall port protocol,
         GetServByPort (extended g ps ss) port protocol
         = orElse (GetServByPort g port protocol)
                  (GetServByPort (mkGlobals ps ss) port protocol)).
Proof.
  unfold GetProtoByNumber, GetProtoByName, GetServByName, GetServByPort,
    extended. cbn [Protocols Services]. conjs; intros.
  - rewrite !GetProtoByNumber_loop_find. apply found_app.
  - rewrite !GetProtoByName_loop_find. apply found_app.
  - rewrite !GetServByName_loop_find. apply found_app.
  - rewrite !GetServByPort_loop_find. apply found_app.
Qed.

(** ** Sources in pieces *)

Lemma splitOn_app_sep (c : ascii) (a rest : gostring) :
  splitOn c (a ++ c :: rest) = splitOn c a ++ splitOn c rest.
Proof.
  induction a as [|x a IH]; cbn [app splitOn].
  - now rewrite Ascii.eqb_refl.
  - destruct (Ascii.eqb x c); [now rewrite IH|].
    rewrite IH. destruct (splitOn c a) as [|h r] eqn:E.
    + now apply splitOn_not_nil in E.
    + reflexivity.
Qed.

Lemma linesOf_app (a rest : gostring) :
  linesOf (a ++ LF :: rest) = linesOf a ++ linesOf rest.
Proof. apply splitOn_app_sep. Qed.

Lemma linesOf_line (line rest : gostring) :
  ~ In LF line -> linesOf (line ++ LF :: rest) = line :: linesOf rest.
Proof. intros H. rewrite linesOf_app. unfold linesOf at 1.
       now rewrite splitOn_not_In. Qed.

Lemma loadProtocols_nil (g : Globals) : loadProtocols [] g = Returned tt g.
Proof. reflexivity. Qed.

Lemma loadServices_nil (g : Globals) : loadServices [] g = Returned tt g.
Proof. reflexivity. Qed.

Lemma bind_ret_r (m : M unit) (g : Globals) :
  bind m (fun _ => ret tt) g = m g.
Proof. unfold bind, ret. now destruct (m g) as [[] g'|v g']. Qed.

Lemma loadProtocols_app (a rest : gostring) (g : Globals) :
  loadProtocols (a ++ LF :: rest) g
  = bind (loadProtocols a) (fun _ => loadProtocols rest) g.
Proof.
  rewrite !loadProtocols_lines, linesOf_app, forRange_app.
  unfold bind.
  now destruct (forRange (linesOf a) protocolLine g) as [[] g1|v g1].
Qed.

Lemma loadServices_app (a rest : gostring) (g : Globals) :
  loadServices (a ++ LF :: rest) g
  = bind (loadServices a) (fun _ => loadServices rest) g.
Proof.
  rewrite !loadServices_lines, linesOf_app, forRange_app.
  unfold bind.
  now destruct (forRange (linesOf a) serviceLine g) as [[] g1|v g1].
Qed.

(** X6. Loading a source is loading its pieces one after the other: the
    load of [a], a line feed and [b] is the load of [a] followed, when it
    returns, by the load of [b]; so a line feed at the end of a source
    changes nothing. *)
Theorem load_of_concatenation (a rest : gostring) (g : Globals) :
  loadProtocols (a ++ LF :: rest) g
  = bind (loadProtocols a) (fun _ => loadProtocols rest) g
  /\ loadServices (a ++ LF :: rest) g
     = bind (loadServices a) (fun _ => loadServices rest) g
  /\ loadProtocols (a ++ [LF]) g = loadProtocols a g
  /\ loadServices (a ++ [LF]) g = loadServices a g.
Proof.
  conjs.
  - apply loadProtocols_app.
  - apply loadServices_app.
  - rewrite loadProtocols_app. apply (bind_ret_r (loadProtocols a)).
  - rewrite loadServices_app. apply (bind_ret_r (loadServices a)).
Qed.

Lemma forRange_all_return {A : Type} (body : A -> M unit) (xs : list A)
  (g : Globals) :
  (forall x, In x xs -> body x g = Returned tt g) ->
  forRange xs body g = Returned tt g.
Proof.
  induction xs as [|x xs IH]; intros H; [reflexivity|].
  cbn [forRange]. unfold bind. rewrite (H x) by now left.
  apply IH. intros y Hy. apply H. now right.
Qed.

(** X7. A line of fewer than two fields counts for nothing, wherever it
    stands: with or without it the load is the same; and a source that has
    such lines only loads no record. *)
Theorem short_lines_change_nothing :
  (forall a line rest g,
      ~ In LF line -> (length (fieldsOf line) < 2)%nat ->
      loadProtocols (a ++ LF :: line ++ LF :: rest) g
      = loadProtocols (a ++ LF :: rest) g
      /\ loadServices (a ++ LF :: line ++ LF :: rest) g
         = loadServices (a ++ LF :: rest) g
      /\ loadProtocols (line ++ LF :: rest) g = loadProtocols rest g
      /\ loadServices (line ++ LF :: rest) g = loadServices rest g)
  /\ (forall data g,
         (forall line, In line (strings.Split data [LF]) ->
                       (length (fieldsOf line) < 2)%nat) ->
         loadProtocols data g = Returned tt g
         /\ loadServices data g = Returned tt g).
Proof.
  split.
  - intros a line rest g Hlf Hshort.
    assert (Hp : forall g', loadProtocols (line ++ LF :: rest) g'
                            = loadProtocols rest g').
    { intros g'. rewrite !loadProtocols_lines, linesOf_line by assumption.
      cbn [forRange]. unfold bind.
      now rewrite protocolLine_short by assumption. }
    assert (Hs : forall g', loadServices (line ++ LF :: rest) g'
                            = loadServices rest g').
    { intros g'. rewrite !loadServices_lines, linesOf_line by assumption.
      cbn [forRange]. unfold bind.
      now rewrite serviceLine_short by assumption. }
    conjs; auto.
    + rewrite !loadProtocols_lines, !linesOf_app, !forRange_app.
      destruct (forRange (linesOf a) protocolLine g) as [[] g1|v g1];
        [|reflexivity].
      rewrite <- linesOf_app, <- !loadProtocols_lines. apply Hp.
    + rewrite !loadServices_lines, !linesOf_app, !forRange_app.
      destruct (forRange (linesOf a) serviceLine g) as [[] g1|v g1];
        [|reflexivity].
      rewrite <- linesOf_app, <- !loadServices_lines. apply Hs.
  - intros data g H. split.
    + rewrite loadProtocols_lines. apply forRange_all_return.
      intros line Hin. apply protocolLine_short, H.
      now apply In_Split_linesOf.
    + rewrite loadServices_lines. apply forRange_all_return.
      intros line Hin. apply serviceLine_short, H.
      now apply In_Split_linesOf.
Qed.

Lemma short_lines_change_nothing_witness :
  loadProtocols (str "tcp 6" ++ LF :: str "lonely" ++ LF :: str "udp 17")
                startup
  = loadProtocols (str "tcp 6" ++ LF :: str "udp 17") startup
  /\ loadServices (str "# no service here" ++ [LF]) startup
     = Returned tt startup.
Proof.
  destruct short_lines_change_nothing as [Hline Hall].
  split.
  - apply (Hline (str "tcp 6") (str "lonely") (str "udp 17") startup).
    + in_list.
    + vm_compute. repeat constructor.
  - apply (Hall (str "# no service here" ++ [LF]) startup).
    intros line Hin. vm_compute in Hin.
    destruct Hin as [<-|[<-|[]]]; vm_compute; repeat constructor.
Defined.

(** ** What a loop does to the tables *)

Lemma tableOf_longLines {A : Type} (ofLine : gostring -> LineResult A)
  (names : A -> gostring * list gostring) (lines : list gostring) :
  (forall line, (length (fieldsOf line) < 2)%nat -> ofLine line = Skip) ->
  (forall line r, (2 <= length (fieldsOf line))%nat ->
                  ofLine line = Entry r -> names r = namesOfLine line) ->
  (forall line, (2 <= length (fieldsOf line))%nat -> ofLine line <> Skip) ->
  forall rs, tableOf ofLine lines = Some rs ->
             map names rs = map namesOfLine (longLines lines).
Proof.
  intros Hshort Hlong Hns. unfold longLines.
  induction lines as [|line lines IH]; intros rs H; cbn [tableOf] in H.
  - injection H as <-. reflexivity.
  - cbn [filter].
    destruct (2 <=? length (fieldsOf line))%nat eqn:E.
    + apply Nat.leb_le in E.
      destruct (ofLine line) as [|r|] eqn:El; [|specialize (Hlong _ _ E El)|].
      * now apply Hns in El.
      * destruct (tableOf ofLine lines) as [rs'|]; [|discriminate].
        injection H as <-. cbn [map]. rewrite Hlong. f_equal. now apply IH.
      * discriminate.
    + apply Nat.leb_gt in E. rewrite (Hshort _ E) in H. now apply IH.
Qed.

Lemma protocolOfLine_short (line : gostring) :
  (length (fieldsOf line) < 2)%nat -> protocolOfLine line = Skip.
Proof.
  intros H. unfold protocolOfLine. cbv zeta.
  now replace (length (fieldsOf line) <? 2)%nat with true
    by (symmetry; now apply Nat.ltb_lt).
Qed.

Lemma serviceOfLine_short (line : gostring) :
  (length (fieldsOf line) < 2)%nat -> serviceOfLine line = Skip.
Proof.
  intros H. unfold serviceOfLine. cbv zeta.
  now replace (length (fieldsOf line) <? 2)%nat with true
    by (symmetry; now apply Nat.ltb_lt).
Qed.

Lemma protocolOfLine_long (line : gostring) :
  (2 <= length (fieldsOf line))%nat ->
  protocolOfLine line
  = match int32Literal (nth 1 (fieldsOf line) []) with
    | Some num => Entry (Protoent.mk (nth 0 (fieldsOf line) [])
                                     (skipn 2 (fieldsOf line)) num)
    | None => Fatal
    end.
Proof.
  intros H. unfold protocolOfLine. cbv zeta.
  now replace (length (fieldsOf line) <? 2)%nat with false
    by (symmetry; apply Nat.ltb_ge; lia).
Qed.

Lemma serviceOfLine_long (line : gostring) :
  (2 <= length (fieldsOf line))%nat ->
  serviceOfLine line
  = match int32Literal (cutAt "/" (nth 1 (fieldsOf line) [])),
          afterCut "/" (nth 1 (fieldsOf line) []) with
    | Some port, Some proto =>
        Entry (Servent.mk (nth 0 (fieldsOf line) [])
                          (skipn 2 (fieldsOf line)) port proto)
    | _, _ => Fatal
    end.
Proof.
  intros H. unfold serviceOfLine. cbv zeta.
  now replace (length (fieldsOf line) <? 2)%nat with false
    by (symmetry; apply Nat.ltb_ge; lia).
Qed.

Lemma forRange_protocolLine_state (lines : list gostring) :
  forall g,
    match forRange lines protocolLine g with
    | Returned _ g' | Panicked _ g' =>
        Services g' = Services g
        /\ exists rs, Protocols g' = Protocols g ++ rs
    end.
Proof.
  induction lines as [|line lines IH]; intros g.
  - simpl. split; [reflexivity|]. exists []. now rewrite app_nil_r.
  - cbn [forRange]. unfold bind.
    pose proof (protocolLine_ofLine line g) as Hl.
    destruct (protocolOfLine line) as [|r|].
    + rewrite Hl. apply IH.
    + rewrite Hl.
      specialize (IH (mkGlobals (Protocols g ++ [r]) (Services g))).
      destruct (forRange lines protocolLine _) as [[] g'|v g'];
        cbn [Protocols Services] in IH; destruct IH as [H1 (rs & H2)];
        (split; [exact H1|]); exists (r :: rs);
        now rewrite H2, <- app_assoc.
    + destruct Hl as (v & ->). split; [reflexivity|].
      exists []. now rewrite app_nil_r.
Qed.

Lemma forRange_serviceLine_state (lines : list gostring) :
  forall g,
    match forRange lines serviceLine g with
    | Returned _ g' | Panicked _ g' =>
        Protocols g' = Protocols g
        /\ exists rs, Services g' = Services g ++ rs
    end.
Proof.
  induction lines as [|line lines IH]; intros g.
  - simpl. split; [reflexivity|]. exists []. now rewrite app_nil_r.
  - cbn [forRange]. unfold bind.
    pose proof (serviceLine_ofLine line g) as Hl.
    destruct (serviceOfLine line) as [|r|].
    + rewrite Hl. apply IH.
    + rewrite Hl.
      specialize (IH (mkGlobals (Protocols g) (Services g ++ [r]))).
      destruct (forRange lines serviceLine _) as [[] g'|v g'];
        cbn [Protocols Services] in IH; destruct IH as [H1 (rs & H2)];
        (split; [exact H1|]); exists (r :: rs);
        now rewrite H2, <- app_assoc.
    + destruct Hl as (v & ->). split; [reflexivity|].
      exists []. now rewrite app_nil_r.
Qed.

(** X8. Each loop only appends to its own slice: whether it returns or
    panics, the records that were in the slice are still there, in place,
    and the other slice is as it was.  When the loop returns, it has
    appended one record for each line of two fields or more, in the order
    of the lines, with the first field as name and the fields from the
    third on as aliases; records are neither merged nor dropped. *)
Theorem loops_append_in_line_order (data : gostring) (g : Globals) :
  match loadProtocols data g with
  | Returned _ g' | Panicked _ g' =>
      Services g' = Services g
      /\ exists rs, Protocols g' = Protocols g ++ rs
  end
  /\ match loadServices data g with
     | Returned _ g' | Panicked _ g' =>
         Protocols g' = Protocols g
         /\ exists rs, Services g' = Services g ++ rs
     end
  /\ (forall g', loadProtocols data g = Returned tt g' ->
        exists rs,
          Protocols g' = Protocols g ++ rs
          /\ map (fun r => (Protoent.Name r, Protoent.Aliases r)) rs
             = map namesOfLine (longLines (strings.Split data [LF])))
  /\ (forall g', loadServices data g = Returned tt g' ->
        exists rs,
          Services g' = Services g ++ rs
          /\ map (fun r => (Servent.Name r, Servent.Aliases r)) rs
             = map namesOfLine (longLines (strings.Split data [LF]))).
Proof.
  conjs.
  - rewrite loadProtocols_lines. apply forRange_protocolLine_state.
  - rewrite loadServices_lines. apply forRange_serviceLine_state.
  - intros g' H. rewrite Split_splitOn. fold (linesOf data).
    rewrite loadProtocols_lines in H.
    pose proof (forRange_protocolLine (linesOf data) g) as Ht.
    destruct (tableOf protocolOfLine (linesOf data)) as [rs|] eqn:E.
    + rewrite Ht in H. injection H as <-. exists rs.
      split; [reflexivity|].
      apply (tableOf_longLines protocolOfLine) with (rs := rs); auto.
      * apply protocolOfLine_short.
      * intros line r Hlen Hr. rewrite protocolOfLine_long in Hr by assumption.
        destruct (int32Literal _); [|discriminate]. now injection Hr as <-.
      * intros line Hlen Hr. rewrite protocolOfLine_long in Hr by assumption.
        destruct (int32Literal _); discriminate.
    + destruct Ht as (v & g'' & Ht). congruence.
  - intros g' H. rewrite Split_splitOn. fold (linesOf data).
    rewrite loadServices_lines in H.
    pose proof (forRange_serviceLine (linesOf data) g) as Ht.
    destruct (tableOf serviceOfLine (linesOf data)) as [rs|] eqn:E.
    + rewrite Ht in H. injection H as <-. exists rs.
      split; [reflexivity|].
      apply (tableOf_longLines serviceOfLine) with (rs := rs); auto.
      * apply serviceOfLine_short.
      * intros line r Hlen Hr. rewrite serviceOfLine_long in Hr by assumption.
        destruct (int32Literal _); [|discriminate].
        destruct (afterCut _ _); [|discriminate]. now injection Hr as <-.
      * intros line Hlen Hr. rewrite serviceOfLine_long in Hr by assumption.
        destruct (int32Literal _); [|discriminate].
        destruct (afterCut _ _); discriminate.
    + destruct Ht as (v & g'' & Ht). congruence.
Qed.

Lemma loops_append_in_line_order_witness :
  exists rs,
    Protocols sample ++ [Protoent.mk (str "tcp") [] 6;
                         Protoent.mk (str "tcp") [] 6]
    = Protocols sample ++ rs
    /\ map (fun r => (Protoent.Name r, Protoent.Aliases r)) rs
       = [(str "tcp", []); (str "tcp", [])].
Proof.
  destruct (loops_append_in_line_order
              (str "tcp 6" ++ LF :: str "x" ++ LF :: str "tcp 6") sample)
    as (_ & _ & H & _).
  destruct (H (mkGlobals (Protocols sample
                            ++ [Protoent.mk (str "tcp") [] 6;
                                Protoent.mk (str "tcp") [] 6])
                         (Services sample)))
    as (rs & H1 & H2); [vm_compute; reflexivity|].
  exists rs. split; [exact H1 | exact H2].
Defined.

(** ** The panic of a load *)

Lemma ParseInt_error (s : gostring) (base bitSize v : Z)
  (e : strconv.NumError) :
  strconv.ParseInt s base bitSize = (v, Some e) ->
  strconv.Func e = "ParseInt"%string /\ strconv.Num e = s.
Proof.
  unfold strconv.ParseInt. destruct s as [|c s].
  - intros H; inversion H; subst; split; reflexivity.
  - destruct (Ascii.eqb c "+"); [|destruct (Ascii.eqb c "-")];
      cbv beta iota zeta;
      (destruct (strconv.ParseUint _ base bitSize) as [un [e'|]];
       [destruct (strconv.Err e')|];
       repeat match goal with
              | |- context [if ?c then _ else _] => destruct c
              end;
       intros H; inversion H; subst; split; reflexivity).
Qed.

Lemma NumError_eta (e : strconv.NumError) (s : gostring) :
  strconv.Func e = "ParseInt"%string -> strconv.Num e = s ->
  e = strconv.mkNumError "ParseInt" s (strconv.Err e).
Proof. destruct e. simpl. now intros -> ->. Qed.

Lemma forRange_first_panic {A : Type} (body : A -> M unit)
  (pre : list A) (x : A) (post : list A) (g g1 g2 : Globals)
  (v : PanicValue) :
  forRange pre body g = Returned tt g1 ->
  body x g1 = Panicked v g2 ->
  forRange (pre ++ x :: post) body g = Panicked v g2.
Proof.
  intros Hpre Hx. rewrite forRange_app, Hpre. cbn [forRange]. unfold bind.
  now rewrite Hx.
Qed.

(** X9. The first fatal line decides the panic of a load.  The loop
    panics at that line and reads no line after it; the slice then holds,
    after what it held, the records of the lines before, and nothing of
    the lines after.  The panic carries the error of [ParseInt] with the
    text that did not convert, or, for a service line whose port converts
    and that has no [/], the run-time error of the index 1 on a slice of
    length 1. *)
Theorem first_fatal_line_decides (data : gostring)
  (pre : list gostring) (line : gostring) (post : list gostring)
  (g : Globals) :
  strings.Split data [LF] = pre ++ line :: post ->
  (2 <= length (fieldsOf line))%nat ->
  (forall rs,
      tableOf protocolOfLine pre = Some rs ->
      int32Literal (nth 1 (fieldsOf line) []) = None ->
      exists err,
        loadProtocols data g
        = Panicked
            (ErrorValue
               (NumErr (strconv.mkNumError "ParseInt"
                          (nth 1 (fieldsOf line) []) err)))
            (mkGlobals (Protocols g ++ rs) (Services g)))
  /\ (forall rs,
         tableOf serviceOfLine pre = Some rs ->
         int32Literal (cutAt "/" (nth 1 (fieldsOf line) [])) = None ->
         exists err,
           loadServices data g
           = Panicked
               (ErrorValue
                  (NumErr (strconv.mkNumError "ParseInt"
                             (cutAt "/" (nth 1 (fieldsOf line) [])) err)))
               (mkGlobals (Protocols g) (Services g ++ rs)))
  /\ (forall rs port,
         tableOf serviceOfLine pre = Some rs ->
         int32Literal (cutAt "/" (nth 1 (fieldsOf line) [])) = Some port ->
         ~ In "/"%char (nth 1 (fieldsOf line) []) ->
         loadServices data g
         = Panicked (IndexOutOfRange 1 1)
                    (mkGlobals (Protocols g) (Services g ++ rs))).
Proof.
  intros Hsplit Hlen. conjs.
  - intros rs Hpre Hbad. unfold loadProtocols. rewrite Hsplit.
    pose proof (forRange_protocolLine pre g) as H1. rewrite Hpre in H1.
    set (g1 := mkGlobals (Protocols g ++ rs) (Services g)) in *.
    pose proof (protocolLine_long line g1 Hlen) as H2.
    destruct (ParseInt_rejects _ Hbad) as (v & e & He). rewrite He in H2.
    destruct (ParseInt_error _ _ _ _ _ He) as [Hf Hn].
    exists (strconv.Err e). rewrite <- (NumError_eta e _ Hf Hn).
    now apply forRange_first_panic with (g1 := g1).
  - intros rs Hpre Hbad. unfold loadServices. rewrite Hsplit.
    pose proof (forRange_serviceLine pre g) as H1. rewrite Hpre in H1.
    set (g1 := mkGlobals (Protocols g) (Services g ++ rs)) in *.
    pose proof (serviceLine_long line g1 Hlen) as H2.
    destruct (ParseInt_rejects _ Hbad) as (v & e & He). rewrite He in H2.
    destruct (ParseInt_error _ _ _ _ _ He) as [Hf Hn].
    exists (strconv.Err e). rewrite <- (NumError_eta e _ Hf Hn).
    now apply forRange_first_panic with (g1 := g1).
  - intros rs port Hpre Hport Hslash. unfold loadServices. rewrite Hsplit.
    pose proof (forRange_serviceLine pre g) as H1. rewrite Hpre in H1.
    set (g1 := mkGlobals (Protocols g) (Services g ++ rs)) in *.
    pose proof (serviceLine_long line g1 Hlen) as H2.
    rewrite (ParseInt_accepts _ _ Hport) in H2.
    apply afterCut_None in Hslash. rewrite Hslash in H2.
    now apply forRange_first_panic with (g1 := g1).
Qed.

Lemma first_fatal_line_decides_witness :
  (exists err,
      loadProtocols protocols_with_bad_number startup
      = Panicked
          (ErrorValue (NumErr (strconv.mkNumError "ParseInt" (str "bar") err)))
          (mkGlobals [Protoent.mk (str "tcp") [str "TCP"] 6] []))
  /\ loadServices services_without_slash startup
     = Panicked (IndexOutOfRange 1 1)
                (mkGlobals [] [Servent.mk (str "http") [str "www"] 80
                                          (str "tcp")]).
Proof.
  split.
  - assert (H1 : strings.Split protocols_with_bad_number [LF]
                 = [str "tcp 6 TCP"] ++ str "foo bar" :: [[]])
      by (vm_compute; reflexivity).
    assert (H2 : (2 <= length (fieldsOf (str "foo bar")))%nat)
      by (vm_compute; repeat constructor).
    destruct (first_fatal_line_decides _ _ _ _ startup H1 H2) as (Hp & _).
    apply (Hp [Protoent.mk (str "tcp") [str "TCP"] 6]);
      vm_compute; reflexivity.
  - assert (H1 : strings.Split services_without_slash [LF]
                 = [str "http 80/tcp www"] ++ str "smtp 25 mail" :: [[]])
      by (vm_compute; reflexivity).
    assert (H2 : (2 <= length (fieldsOf (str "smtp 25 mail")))%nat)
      by (vm_compute; repeat constructor).
    destruct (first_fatal_line_decides _ _ _ _ startup H1 H2) as (_ & _ & Hs).
    apply (Hs [Servent.mk (str "http") [str "www"] 80 (str "tcp")] 25).
    + vm_compute. reflexivity.
    + vm_compute. reflexivity.
    + in_list.
Defined.

(** X10. A source that cannot be read makes [init] panic with the error
    of the read.  What [/etc/protocols] gives comes first: when it cannot
    be read, or when its load panics, the outcome of [init], panic value
    and tables, is that of the protocols alone, whatever [/etc/services]
    is, and in the first case the tables are untouched.  When the
    protocols load and [/etc/services] cannot be read, [init] panics with
    the error of that read and the protocol table is complete.  The
    outcome of [init] depends on the files through these two names
    only. *)
Theorem unreadable_source_panics (fs : ioutil.FileSystem) (g : Globals) :
  (forall e, fs "/etc/protocols"%string = inr e ->
             init fs g = Panicked (ErrorValue (PathErr e)) g)
  /\ (forall pdata v g1,
         fs "/etc/protocols"%string = inl pdata ->
         loadProtocols pdata g = Panicked v g1 ->
         init fs g = Panicked v g1)
  /\ (forall pdata e g1,
         fs "/etc/protocols"%string = inl pdata ->
         fs "/etc/services"%string = inr e ->
         loadProtocols pdata g = Returned tt g1 ->
         init fs g = Panicked (ErrorValue (PathErr e)) g1)
  /\ (forall pdata e ps,
         fs "/etc/protocols"%string = inl pdata ->
         fs "/etc/services"%string = inr e ->
         tableOf protocolOfLine (linesOf pdata) = Some ps ->
         init fs g
         = Panicked (ErrorValue (PathErr e))
                    (mkGlobals (Protocols g ++ ps) (Services g)))
  /\ (forall pdata sdata g1,
         fs "/etc/protocols"%string = inl pdata ->
         fs "/etc/services"%string = inl sdata ->
         loadProtocols pdata g = Returned tt g1 ->
         init fs g = loadServices sdata g1)
  /\ (forall fs' : ioutil.FileSystem,
         fs' "/etc/protocols"%string = fs "/etc/protocols"%string ->
         fs' "/etc/services"%string = fs "/etc/services"%string ->
         init fs' g = init fs g).
Proof.
  assert (H1 : forall pdata,
             fs "/etc/protocols"%string = inl pdata ->
             init fs g
             = match loadProtocols pdata g with
               | Returned _ g1 =>
                   match fs "/etc/services"%string with
                   | inl sdata => loadServices sdata g1
                   | inr e => Panicked (ErrorValue (PathErr e)) g1
                   end
               | Panicked v g1 => Panicked v g1
               end).
  { intros pdata Hp.
    unfold init, bind, readOrPanic, ioutil.ReadFile. rewrite Hp. unfold ret.
    destruct (loadProtocols pdata g) as [[] g1|v g1]; [|reflexivity].
    now destruct (fs "/etc/services"%string). }
  conjs.
  - intros e He. unfold init, bind, readOrPanic, ioutil.ReadFile.
    now rewrite He.
  - intros pdata v g1 Hp Hl. now rewrite (H1 pdata Hp), Hl.
  - intros pdata e g1 Hp Hs Hl. now rewrite (H1 pdata Hp), Hl, Hs.
  - intros pdata e ps Hp Hs Ht. rewrite (H1 pdata Hp).
    pose proof (forRange_protocolLine (linesOf pdata) g) as H.
    rewrite Ht, <- loadProtocols_lines in H. now rewrite H, Hs.
  - intros pdata sdata g1 Hp Hs Hl. now rewrite (H1 pdata Hp), Hl, Hs.
  - intros fs' Ep Es.
    unfold init, bind, readOrPanic, ioutil.ReadFile. now rewrite Ep, Es.
Qed.

Lemma unreadable_source_panics_witness :
  init files_without_services startup
  = Panicked (ErrorValue (PathErr (ioutil.mkPathError "open" "/etc/services")))
             (mkGlobals [Protoent.mk (str "tcp") [str "TCP"] 6] []).
Proof.
  destruct (unreadable_source_panics files_without_services startup)
    as (_ & _ & _ & H & _).
  apply (H (str "tcp 6 TCP" ++ [LF])
           (ioutil.mkPathError "open" "/etc/services")
           [Protoent.mk (str "tcp") [str "TCP"] 6]);
    vm_compute; reflexivity.
Defined.

(** ** From the sources to the lookups *)

Lemma tableOf_In {A : Type} (ofLine : gostring -> LineResult A)
  (lines : list gostring) (line : gostring) (r : A) :
  forall rs, tableOf ofLine lines = Some rs ->
             In line lines -> ofLine line = Entry r -> In r rs.
Proof.
  induction lines as [|l lines IH]; intros rs H Hin Hr; [destruct Hin|].
  cbn [tableOf] in H.
  destruct Hin as [->|Hin].
  - rewrite Hr in H.
    destruct (tableOf ofLine lines) as [rs'|]; [|discriminate].
    injection H as <-. now left.
  - destruct (ofLine l) as [|r'|].
    + now apply IH.
    + destruct (tableOf ofLine lines) as [rs'|]; [|discriminate].
      injection H as <-. right. now apply IH.
    + discriminate.
Qed.

Lemma tableOf_Some_not_Fatal {A : Type} (ofLine : gostring -> LineResult A)
  (lines : list gostring) (line : gostring) (rs : list A) :
  tableOf ofLine lines = Some rs -> In line lines -> ofLine line <> Fatal.
Proof.
  intros H Hin Hf.
  assert (Hn : tableOf ofLine lines = None) by (apply tableOf_None; eauto).
  congruence.
Qed.

Lemma init_Returned_tables (fs : ioutil.FileSystem) (g : Globals)
  (pdata sdata : gostring) :
  init fs startup = Returned tt g ->
  fs "/etc/protocols"%string = inl pdata ->
  fs "/etc/services"%string = inl sdata ->
  exists ps ss,
    tableOf protocolOfLine (linesOf pdata) = Some ps
    /\ tableOf serviceOfLine (linesOf sdata) = Some ss
    /\ g = mkGlobals ps ss.
Proof.
  intros H Hp Hs.
  apply init_Returned in H as (pdata' & sdata' & g1 & Hp' & Hs' & H1 & H2).
  assert (pdata' = pdata) by congruence.
  assert (sdata' = sdata) by congruence. subst.
  rewrite loadProtocols_lines in H1. rewrite loadServices_lines in H2.
  pose proof (forRange_protocolLine (linesOf pdata) startup) as T1.
  destruct (tableOf protocolOfLine (linesOf pdata)) as [ps|];
    [|destruct T1 as (v & g' & T1); rewrite T1 in H1; discriminate].
  rewrite T1 in H1. injection H1 as E1.
  pose proof (forRange_serviceLine (linesOf sdata) g1) as T2.
  destruct (tableOf serviceOfLine (linesOf sdata)) as [ss|];
    [|destruct T2 as (v & g' & T2); rewrite T2 in H2; discriminate].
  rewrite T2 in H2. injection H2 as E2.
  exists ps, ss. conjs; auto. rewrite <- E2, <- E1. reflexivity.
Qed.

(** X11. After [init] returned, what the sources hold is found.  For
    every line of two fields or more of the protocol source, the lookup by
    name finds a record for its name and for each of its aliases, and the
    lookup by number finds one for its number.  For every such line of the
    service source, the lookups by name and by port find a record, with
    the protocol of the line and with the empty protocol. *)
Theorem loaded_lines_are_found (fs : ioutil.FileSystem) (g : Globals)
  (pdata sdata : gostring) :
  init fs startup = Returned tt g ->
  fs "/etc/protocols"%string = inl pdata ->
  fs "/etc/services"%string = inl sdata ->
  (forall line,
      In line (strings.Split pdata [LF]) ->
      (2 <= length (fieldsOf line))%nat ->
      (forall name,
          In name (nth 0 (fieldsOf line) [] :: skipn 2 (fieldsOf line)) ->
          snd (GetProtoByName g name) = true)
      /\ exists num,
          int32Literal (nth 1 (fieldsOf line) []) = Some num
          /\ snd (GetProtoByNumber g num) = true)
  /\ (forall line,
         In line (strings.Split sdata [LF]) ->
         (2 <= length (fieldsOf line))%nat ->
         exists port proto,
           int32Literal (cutAt "/" (nth 1 (fieldsOf line) [])) = Some port
           /\ afterCut "/" (nth 1 (fieldsOf line) []) = Some proto
           /\ (forall name,
                  In name (nth 0 (fieldsOf line) []
                             :: skipn 2 (fieldsOf line)) ->
                  snd (GetServByName g name proto) = true
                  /\ snd (GetServByName g name []) = true)
           /\ snd (GetServByPort g port proto) = true
           /\ snd (GetServByPort g port []) = true).
Proof.
  intros H Hp Hs.
  destruct (init_Returned_tables fs g pdata sdata H Hp Hs)
    as (ps & ss & Tp & Ts & ->).
  split.
  - intros line Hin Hlen. apply In_Split_linesOf in Hin.
    pose proof (tableOf_Some_not_Fatal _ _ _ _ Tp Hin) as Hnf.
    rewrite protocolOfLine_long in Hnf by assumption.
    destruct (int32Literal (nth 1 (fieldsOf line) [])) as [num|] eqn:En;
      [|congruence].
    assert (Hr : In (Protoent.mk (nth 0 (fieldsOf line) [])
                                 (skipn 2 (fieldsOf line)) num) ps).
    { apply (tableOf_In protocolOfLine (linesOf pdata) line); auto.
      now rewrite protocolOfLine_long, En by assumption. }
    split.
    + intros name Hname. unfold GetProtoByName. cbn [Protocols].
      rewrite GetProtoByName_loop_find.
      apply (found_exists _ _ _ _ Hr). apply protoNamedb_spec.
      destruct Hname as [<-|Hname]; [now left | now right].
    + exists num. split; [reflexivity|].
      unfold GetProtoByNumber. cbn [Protocols].
      rewrite GetProtoByNumber_loop_find.
      apply (found_exists _ _ _ _ Hr). apply Z.eqb_refl.
  - intros line Hin Hlen. apply In_Split_linesOf in Hin.
    pose proof (tableOf_Some_not_Fatal _ _ _ _ Ts Hin) as Hnf.
    rewrite serviceOfLine_long in Hnf by assumption.
    destruct (int32Literal (cutAt "/" (nth 1 (fieldsOf line) [])))
      as [port|] eqn:En; [|congruence].
    destruct (afterCut "/" (nth 1 (fieldsOf line) [])) as [proto|] eqn:Ea;
      [|congruence].
    set (r := Servent.mk (nth 0 (fieldsOf line) [])
                         (skipn 2 (fieldsOf line)) port proto).
    assert (Hr : In r ss).
    { apply (tableOf_In serviceOfLine (linesOf sdata) line); auto.
      now rewrite serviceOfLine_long, En, Ea by assumption. }
    assert (Hown : servAllowedb proto r = true).
    { unfold servAllowedb. cbn [r Servent.Protocol].
      rewrite gostring_eqb_refl. apply orb_true_r. }
    assert (Hany : servAllowedb [] r = true).
    { unfold servAllowedb. now rewrite gostring_eqb_refl. }
    exists port, proto. conjs; auto.
    + intros name Hname.
      assert (Hn : servNamedb name r = true).
      { apply servNamedb_spec.
        destruct Hname as [<-|Hname]; [now left | now right]. }
      unfold GetServByName. cbn [Services].
      rewrite !GetServByName_loop_find.
      split; apply (found_exists _ _ _ _ Hr); now rewrite ?Hown, ?Hany, Hn.
    + unfold GetServByPort. cbn [Services]. rewrite GetServByPort_loop_find.
      apply (found_exists _ _ _ _ Hr). rewrite Hown.
      cbn [r Servent.Port]. now rewrite Z.eqb_refl.
    + unfold GetServByPort. cbn [Services]. rewrite GetServByPort_loop_find.
      apply (found_exists _ _ _ _ Hr). rewrite Hany.
      cbn [r Servent.Port]. now rewrite Z.eqb_refl.
Qed.

Lemma loaded_lines_are_found_witness :
  snd (GetProtoByName sample_loaded (str "UDP")) = true
  /\ snd (GetServByName sample_loaded (str "www") (str "tcp")) = true.
Proof.
  assert (H : init sample_files startup = Returned tt sample_loaded)
    by (vm_compute; reflexivity).
  destruct (loaded_lines_are_found sample_files sample_loaded _ _ H
              eq_refl eq_refl) as [Hp Hs].
  split.
  - destruct (Hp (str "udp 17 UDP")) as [Hn _].
    + in_list.
    + vm_compute. repeat constructor.
    + apply Hn. in_list.
  - destruct (Hs (str "http 80/tcp www")) as (port & proto & _ & Ha & Hn & _).
    + in_list.
    + vm_compute. repeat constructor.
    + vm_compute in Ha. injection Ha as <-.
      apply Hn. in_list.
Defined.

(** X12. Lines added at the end of a source do not change an answer that
    the source gave: when the longer source loads too, every lookup that
    found a record in the tables of the shorter one finds the same record
    in those of the longer. *)
Theorem appended_lines_keep_answers (a rest : gostring) (g ga gb : Globals) :
  (loadProtocols a g = Returned tt ga ->
   loadProtocols (a ++ LF :: rest) g = Returned tt gb ->
   (forall n r, GetProtoByNumber ga n = (r, true) ->
                GetProtoByNumber gb n = (r, true))
   /\ (forall name r, GetProtoByName ga name = (r, true) ->
                      GetProtoByName gb name = (r, true)))
  /\ (loadServices a g = Returned tt ga ->
      loadServices (a ++ LF :: rest) g = Returned tt gb ->
      (forall name protocol r,
          GetServByName ga name protocol = (r, true) ->
          GetServByName gb name protocol = (r, true))
      /\ (forall port protocol r,
             GetServByPort ga port protocol = (r, true) ->
             GetServByPort gb port protocol = (r, true))).
Proof.
  assert (Hkeep : forall (A : Type) (p : A -> bool) (zero : A) l l' r,
             found zero (find p l) = (r, true) ->
             found zero (find p (l ++ l')) = (r, true)).
  { intros A p zero l l' r H. rewrite found_app. unfold orElse.
    now rewrite H. }
  split.
  - intros Ha Hb. rewrite loadProtocols_app in Hb. unfold bind in Hb.
    rewrite Ha in Hb.
    pose proof (forRange_protocolLine_state (linesOf rest) ga) as Hst.
    rewrite <- loadProtocols_lines, Hb in Hst. destruct Hst as [_ (rs & E)].
    unfold GetProtoByNumber, GetProtoByName. rewrite E. split; intros.
    + rewrite GetProtoByNumber_loop_find in *. now apply Hkeep.
    + rewrite GetProtoByName_loop_find in *. now apply Hkeep.
  - intros Ha Hb. rewrite loadServices_app in Hb. unfold bind in Hb.
    rewrite Ha in Hb.
    pose proof (forRange_serviceLine_state (linesOf rest) ga) as Hst.
    rewrite <- loadServices_lines, Hb in Hst. destruct Hst as [_ (rs & E)].
    unfold GetServByName, GetServByPort. rewrite E. split; intros.
    + rewrite GetServByName_loop_find in *. now apply Hkeep.
    + rewrite GetServByPort_loop_find in *. now apply Hkeep.
Qed.

Lemma appended_lines_keep_answers_witness :
  GetProtoByNumber
    (mkGlobals [Protoent.mk (str "tcp") [] 6; Protoent.mk (str "six") [] 6] [])
    6
  = (Protoent.mk (str "tcp") [] 6, true).
Proof.
  destruct (appended_lines_keep_answers
              (str "tcp 6") (str "six 6") startup
              (mkGlobals [Protoent.mk (str "tcp") [] 6] [])
              (mkGlobals [Protoent.mk (str "tcp") [] 6;
                          Protoent.mk (str "six") [] 6] []))
    as [Hp _].
  destruct Hp as [Hn _]; [vm_compute; reflexivity | vm_compute; reflexivity|].
  apply Hn. reflexivity.
Defined.

(** ** A service line alone *)

Lemma afterCut_app (c : ascii) (s rest : gostring) :
  ~ In c s -> afterCut c (s ++ c :: rest) = Some rest.
Proof.
  induction s as [|x s IH]; cbn [app afterCut]; intros H.
  - now rewrite Ascii.eqb_refl.
  - destruct (Ascii.eqb x c) eqn:E.
    + apply Ascii.eqb_eq in E. subst. exfalso. apply H. now left.
    + apply IH. intros Hin. apply H. now right.
Qed.

Lemma digit_not_slash (c : ascii) : digitValue c <> None -> c <> "/"%char.
Proof. intros H ->. now apply H. Qed.

Lemma decimalValue_no_slash (ds : gostring) :
  forall acc v, decimalValue ds acc = Some v -> ~ In "/"%char ds.
Proof.
  induction ds as [|c ds IH]; intros acc v H; [intros []|].
  cbn [decimalValue] in H.
  destruct (digitValue c) as [d|] eqn:E; [|discriminate].
  intros [Hc|Hin].
  - revert Hc. apply digit_not_slash. congruence.
  - revert Hin. eapply IH, H.
Qed.

Lemma int32Literal_no_slash (s : gostring) (z : Z) :
  int32Literal s = Some z -> ~ In "/"%char s.
Proof.
  unfold int32Literal. destruct s as [|c s]; [discriminate|].
  destruct (Ascii.eqb c "+") eqn:Ep.
  - apply Ascii.eqb_eq in Ep. subst c.
    destruct s as [|d s]; [discriminate|].
    destruct (decimalValue (d :: s) 0) as [v|] eqn:Ev; [|discriminate].
    intros _ [Hc|Hin]; [discriminate|].
    revert Hin. eapply decimalValue_no_slash, Ev.
  - destruct (Ascii.eqb c "-") eqn:Em.
    + apply Ascii.eqb_eq in Em. subst c.
      destruct s as [|d s]; [discriminate|].
      destruct (decimalValue (d :: s) 0) as [v|] eqn:Ev; [|discriminate].
      intros _ [Hc|Hin]; [discriminate|].
      revert Hin. eapply decimalValue_no_slash, Ev.
    + destruct (decimalValue (c :: s) 0) as [v|] eqn:Ev; [|discriminate].
      intros _. eapply decimalValue_no_slash, Ev.
Qed.

Lemma service_line_alone (line : gostring) (port : Z) (proto : gostring) :
  ~ In LF line ->
  (2 <= length (fieldsOf line))%nat ->
  int32Literal (cutAt "/" (nth 1 (fieldsOf line) [])) = Some port ->
  afterCut "/" (nth 1 (fieldsOf line) []) = Some proto ->
  let record := Servent.mk (nth 0 (fieldsOf line) [])
                           (skipn 2 (fieldsOf line)) port proto in
  loadServices line startup = Returned tt (mkGlobals [] [record])
  /\ loadServices (line ++ [LF]) startup
     = Returned tt (mkGlobals [] [record]).
Proof.
  intros Hlf Hlen Hport Hproto record.
  assert (Hline : serviceLine line startup
                  = Returned tt (mkGlobals [] [record])).
  { rewrite serviceLine_long by assumption.
    now rewrite (ParseInt_accepts _ _ Hport), Hproto. }
  split.
  - rewrite loadServices_lines, linesOf_single by assumption.
    cbn [forRange]. unfold bind. now rewrite Hline.
  - rewrite loadServices_lines, linesOf_terminated by assumption.
    cbn [forRange]. unfold bind. rewrite Hline.
    rewrite serviceLine_short by (rewrite fieldsOf_nil; simpl; lia).
    reflexivity.
Qed.

Lemma one_service_lookups (r : Servent.t) :
  let g := mkGlobals [] [r] in
  GetServByPort g (Servent.Port r) (Servent.Protocol r) = (r, true)
  /\ GetServByPort g (Servent.Port r) [] = (r, true)
  /\ (forall other, other <> [] -> other <> Servent.Protocol r ->
                    GetServByPort g (Servent.Port r) other
                    = (Servent.zero, false))
  /\ (forall name, servNamed name r ->
                   GetServByName g name (Servent.Protocol r) = (r, true)
                   /\ GetServByName g name [] = (r, true))
  /\ (forall name other, other <> [] -> other <> Servent.Protocol r ->
                         GetServByName g name other = (Servent.zero, false)).
Proof.
  intros g. unfold GetServByPort, GetServByName. subst g.
  cbn [Services GetServByPort_loop GetServByName_loop].
  rewrite Z.eqb_refl, !gostring_eqb_refl. cbn [andb orb negb].
  assert (Hother : forall other, other <> [] -> other <> Servent.Protocol r ->
             gostring_eqb (Servent.Protocol r) other = false
             /\ gostring_eqb other [] = false).
  { intros other H1 H2. split.
    - destruct (gostring_eqb (Servent.Protocol r) other) eqn:E; auto.
      apply gostring_eqb_eq in E. congruence.
    - destruct (gostring_eqb other []) eqn:E; auto.
      apply gostring_eqb_eq in E. congruence. }
  conjs; auto.
  - rewrite orb_true_r. reflexivity.
  - intros other H1 H2. destruct (Hother other H1 H2) as [-> ->].
    reflexivity.
  - intros name Hn. apply servNamedb_spec in Hn. unfold servNamedb in Hn.
    rewrite !andb_false_r.
    destruct (gostring_eqb (Servent.Name r) name);
      [|simpl in Hn; rewrite Hn]; split; reflexivity.
  - intros name other H1 H2. destruct (Hother other H1 H2) as [-> ->].
    reflexivity.
Qed.

Lemma one_service_misses (r : Servent.t) :
  let g := mkGlobals [] [r] in
  (forall port protocol, port <> Servent.Port r ->
                         GetServByPort g port protocol
                         = (Servent.zero, false))
  /\ (forall name protocol, ~ servNamed name r ->
                            GetServByName g name protocol
                            = (Servent.zero, false)).
Proof.
  intros g. unfold GetServByPort, GetServByName. subst g.
  cbn [Services GetServByPort_loop GetServByName_loop]. split.
  - intros port protocol Hport.
    destruct (Z.eqb_spec (Servent.Port r) port) as [E|_]; [congruence|].
    reflexivity.
  - intros name protocol Hname.
    destruct (servNamedb name r) eqn:E;
      [apply servNamedb_spec in E; contradiction|].
    unfold servNamedb in E. apply orb_false_iff in E as [-> ->].
    now destruct (negb _ && negb _).
Qed.

(** X13. A source that is one valid service line, with or without the
    line terminator, loads as a table of one record: the first field is
    the name, the second the port, a [/] and the protocol, which is all
    that follows the first [/], empty or not, and the fields from the third
    on are the aliases.  The lookup by port, for the port of the line, and
    the lookup by name, for its name and each of its aliases, return that
    record under its protocol and under the empty protocol; under another
    protocol, for another port or for another name they return the zero
    record and [false].  The fields of the line [name port/proto alias...],
    written with one space between its words, are these words. *)
Theorem single_service_line_loads :
  (forall line port proto,
      ~ In LF line ->
      (2 <= length (fieldsOf line))%nat ->
      int32Literal (cutAt "/" (nth 1 (fieldsOf line) [])) = Some port ->
      afterCut "/" (nth 1 (fieldsOf line) []) = Some proto ->
      let record := Servent.mk (nth 0 (fieldsOf line) [])
                               (skipn 2 (fieldsOf line)) port proto in
      let g := mkGlobals [] [record] in
      loadServices line startup = Returned tt g
      /\ loadServices (line ++ [LF]) startup = Returned tt g
      /\ GetServByPort g port proto = (record, true)
      /\ GetServByPort g port [] = (record, true)
      /\ (forall other, other <> [] -> other <> proto ->
                        GetServByPort g port other = (Servent.zero, false))
      /\ (forall name,
             In name (nth 0 (fieldsOf line) [] :: skipn 2 (fieldsOf line)) ->
             GetServByName g name proto = (record, true)
             /\ GetServByName g name [] = (record, true))
      /\ (forall name other, other <> [] -> other <> proto ->
                             GetServByName g name other
                             = (Servent.zero, false))
      /\ (forall port' protocol, port' <> port ->
                                 GetServByPort g port' protocol
                                 = (Servent.zero, false))
      /\ (forall name protocol,
             ~ In name (nth 0 (fieldsOf line) []
                          :: skipn 2 (fieldsOf line)) ->
             GetServByName g name protocol = (Servent.zero, false)))
  /\ (forall name number proto aliases port,
         word name -> int32Literal number = Some port ->
         Forall (fun c => wordByte c = true) proto -> Forall word aliases ->
         let line := unwords (name :: (number ++ "/"%char :: proto) :: aliases)
         in
         let record := Servent.mk name aliases port proto in
         let g := mkGlobals [] [record] in
         fieldsOf line = name :: (number ++ "/"%char :: proto) :: aliases
         /\ loadServices line startup = Returned tt g
         /\ GetServByPort g port proto = (record, true)
         /\ GetServByName g name [] = (record, true)
         /\ (forall name' other, other <> [] -> other <> proto ->
                                 GetServByName g name' other
                                 = (Servent.zero, false))
         /\ (forall name' protocol, ~ In name' (name :: aliases) ->
                                    GetServByName g name' protocol
                                    = (Servent.zero, false))).
Proof.
  assert (Hfirst : forall line port proto,
      ~ In LF line ->
      (2 <= length (fieldsOf line))%nat ->
      int32Literal (cutAt "/" (nth 1 (fieldsOf line) [])) = Some port ->
      afterCut "/" (nth 1 (fieldsOf line) []) = Some proto ->
      let record := Servent.mk (nth 0 (fieldsOf line) [])
                               (skipn 2 (fieldsOf line)) port proto in
      let g := mkGlobals [] [record] in
      loadServices line startup = Returned tt g
      /\ loadServices (line ++ [LF]) startup = Returned tt g
      /\ GetServByPort g port proto = (record, true)
      /\ GetServByPort g port [] = (record, true)
      /\ (forall other, other <> [] -> other <> proto ->
                        GetServByPort g port other = (Servent.zero, false))
      /\ (forall name,
             In name (nth 0 (fieldsOf line) [] :: skipn 2 (fieldsOf line)) ->
             GetServByName g name proto = (record, true)
             /\ GetServByName g name [] = (record, true))
      /\ (forall name other, other <> [] -> other <> proto ->
                             GetServByName g name other
                             = (Servent.zero, false))
      /\ (forall port' protocol, port' <> port ->
                                 GetServByPort g port' protocol
                                 = (Servent.zero, false))
      /\ (forall name protocol,
             ~ In name (nth 0 (fieldsOf line) []
                          :: skipn 2 (fieldsOf line)) ->
             GetServByName g name protocol = (Servent.zero, false))).
  { intros line port proto Hlf Hlen Hport Hproto record g.
    destruct (service_line_alone line port proto Hlf Hlen Hport Hproto)
      as [H1 H2].
    destruct (one_service_lookups record) as (L1 & L2 & L3 & L4 & L5).
    destruct (one_service_misses record) as [M1 M2].
    split; [exact H1|]. split; [exact H2|]. split; [exact L1|].
    split; [exact L2|]. split; [exact L3|].
    split; [|split; [exact L5|split; [exact M1|]]].
    - intros name Hname. apply L4.
      destruct Hname as [<-|Hname]; [now left | now right].
    - intros name protocol Hname. apply M2.
      intros [E|E]; apply Hname; [now left | now right]. }
  split; [exact Hfirst|].
  intros name number proto aliases port Hname Hnum Hproto Haliases line record
         g.
  assert (Hsecond : word (number ++ "/"%char :: proto)).
  { split; [destruct number; discriminate|].
    apply Forall_app. split.
    - exact (proj2 (int32Literal_word number port Hnum)).
    - constructor; [reflexivity | exact Hproto]. }
  assert (Hwords : Forall word
                     (name :: (number ++ "/"%char :: proto) :: aliases)).
  { constructor; [exact Hname|]. constructor; [exact Hsecond | exact Haliases]. }
  assert (Hfields : fieldsOf line
                    = name :: (number ++ "/"%char :: proto) :: aliases)
    by now apply fieldsOf_unwords.
  assert (Hslash : ~ In "/"%char number)
    by exact (int32Literal_no_slash number port Hnum).
  assert (Hlf : ~ In LF line) by now apply unwords_no_LF.
  assert (Hlen : (2 <= length (fieldsOf line))%nat)
    by (rewrite Hfields; simpl; lia).
  assert (Hport : int32Literal (cutAt "/" (nth 1 (fieldsOf line) []))
                  = Some port).
  { rewrite Hfields. cbn [nth]. now rewrite cutAt_app. }
  assert (Hafter : afterCut "/" (nth 1 (fieldsOf line) []) = Some proto).
  { rewrite Hfields. cbn [nth]. now apply afterCut_app. }
  pose proof (Hfirst line port proto Hlf Hlen Hport Hafter) as H.
  cbv zeta in H. rewrite Hfields in H. cbn [nth skipn] in H.
  destruct H as (H1 & _ & H3 & _ & _ & H6 & H7 & _ & H9).
  split; [exact Hfields|]. split; [exact H1|]. split; [exact H3|].
  split; [apply (H6 name); now left|]. split; [exact H7 | exact H9].
Qed.

Lemma single_service_line_loads_witness :
  loadServices (str "smtp 25/tcp mail") startup
  = Returned tt (mkGlobals [] [smtp_tcp])
  /\ GetServByPort (mkGlobals [] [smtp_tcp]) 25 (str "udp")
     = (Servent.zero, false)
  /\ GetServByName (mkGlobals [] [smtp_tcp]) (str "smtp") (str "udp")
     = (Servent.zero, false)
  /\ fieldsOf (unwords [str "x"; str "-1" ++ "/"%char :: []])
     = [str "x"; str "-1/"].
Proof.
  destruct single_service_line_loads as [Hfields Hwords].
  assert (H1 : ~ In LF (str "smtp 25/tcp mail")) by in_list.
  assert (H2 : (2 <= length (fieldsOf (str "smtp 25/tcp mail")))%nat)
    by (vm_compute; repeat constructor).
  assert (H3 : int32Literal
                 (cutAt "/" (nth 1 (fieldsOf (str "smtp 25/tcp mail")) []))
               = Some 25) by (vm_compute; reflexivity).
  assert (H4 : afterCut "/" (nth 1 (fieldsOf (str "smtp 25/tcp mail")) [])
               = Some (str "tcp")) by (vm_compute; reflexivity).
  destruct (Hfields _ _ _ H1 H2 H3 H4)
    as (Hload & _ & _ & _ & Hother & _ & Hname & _).
  destruct (Hwords (str "x") (str "-1") [] [] (-1)) as (Hf & _).
  - split; [discriminate | repeat constructor].
  - vm_compute. reflexivity.
  - constructor.
  - constructor.
  - conjs.
    + exact Hload.
    + apply (Hother (str "udp")); discriminate.
    + apply (Hname (str "smtp") (str "udp")); discriminate.
    + exact Hf.
Defined.

(** ** The layout of a line *)

Lemma spaceByte_spec (c : ascii) :
  spaceByte c = true -> b c < 0x80 /\ unicode.IsSpace (b c) = true.
Proof.
  unfold spaceByte. rewrite andb_true_iff. intros [H1 H2].
  apply Z.ltb_lt in H1. auto.
Qed.

Lemma FieldsFunc_loop_spaces_None (s u : gostring) :
  spaces s ->
  strings.FieldsFunc_loop (utf8.rangeString (s ++ u)) unicode.IsSpace None
  = strings.FieldsFunc_loop (utf8.rangeString u) unicode.IsSpace None.
Proof.
  induction s as [|c s IH]; intros H; [reflexivity|].
  inversion H as [|? ? Hc Hs]; subst.
  apply spaceByte_spec in Hc as [Hc1 Hc2].
  cbn [app]. rewrite rangeString_ascii by assumption.
  cbn [strings.FieldsFunc_loop]. rewrite Hc2. now apply IH.
Qed.

Lemma FieldsFunc_loop_spaces_Some (s u x : gostring) :
  spaces s -> s <> [] ->
  strings.FieldsFunc_loop (utf8.rangeString (s ++ u)) unicode.IsSpace (Some x)
  = x :: strings.FieldsFunc_loop (utf8.rangeString u) unicode.IsSpace None.
Proof.
  intros H Hne. destruct s as [|c s]; [congruence|].
  inversion H as [|? ? Hc Hs]; subst.
  apply spaceByte_spec in Hc as [Hc1 Hc2].
  cbn [app]. rewrite rangeString_ascii by assumption.
  cbn [strings.FieldsFunc_loop]. rewrite Hc2. f_equal.
  now apply FieldsFunc_loop_spaces_None.
Qed.

Lemma FieldsFunc_loop_gaps (rest : list (gostring * gostring))
  (trail : gostring) :
  separated rest -> spaces trail ->
  forall x,
    strings.FieldsFunc_loop (utf8.rangeString (gaps rest ++ trail))
      unicode.IsSpace (Some x)
    = x :: map snd rest.
Proof.
  intros Hrest Htrail.
  induction rest as [|[sep w] rest IH]; intros x.
  - cbn [gaps app map]. destruct trail as [|c trail]; [reflexivity|].
    rewrite <- (app_nil_r (c :: trail)).
    rewrite FieldsFunc_loop_spaces_Some by (auto; discriminate).
    reflexivity.
  - inversion Hrest as [|? ? (Hsep & Hne & [Hw1 Hw2]) Hrest']; subst.
    cbn [fst snd] in *. cbn [gaps map snd].
    rewrite <- !app_assoc.
    rewrite FieldsFunc_loop_spaces_Some by assumption. f_equal.
    rewrite FieldsFunc_loop_word by assumption. cbn [app].
    now apply IH.
Qed.

Lemma Fields_layout (lead w : gostring) (rest : list (gostring * gostring))
  (trail : gostring) :
  spaces lead -> word w -> separated rest -> spaces trail ->
  strings.Fields (lead ++ w ++ gaps rest ++ trail) = w :: map snd rest.
Proof.
  intros Hlead [Hw1 Hw2] Hrest Htrail.
  unfold strings.Fields, strings.FieldsFunc.
  rewrite FieldsFunc_loop_spaces_None by assumption.
  rewrite FieldsFunc_loop_word by assumption. cbn [app].
  now apply FieldsFunc_loop_gaps.
Qed.

Lemma wordByte_not_spaceByte (c : ascii) :
  wordByte c = true -> spaceByte c = false.
Proof.
  intros H. apply wordByte_spec in H as (_ & H & _).
  unfold spaceByte. rewrite H. apply andb_false_r.
Qed.

Lemma gaps_bytes (rest : list (gostring * gostring)) :
  separated rest ->
  Forall (fun c => wordByte c = true \/ spaceByte c = true) (gaps rest).
Proof.
  induction rest as [|[sep w] rest IH]; intros H; [constructor|].
  inversion H as [|? ? (Hsep & _ & [_ Hw]) Hrest]; subst.
  cbn [fst snd gaps] in *. rewrite !Forall_app. conjs.
  - eapply Forall_impl; [|exact Hsep]. auto.
  - eapply Forall_impl; [|exact Hw]. auto.
  - now apply IH.
Qed.

Lemma layout_bytes (lead w : gostring) (rest : list (gostring * gostring))
  (trail : gostring) :
  spaces lead -> word w -> separated rest -> spaces trail ->
  Forall (fun c => wordByte c = true \/ spaceByte c = true)
         (lead ++ w ++ gaps rest ++ trail).
Proof.
  intros Hlead [_ Hw] Hrest Htrail. rewrite !Forall_app. conjs.
  - eapply Forall_impl; [|exact Hlead]. auto.
  - eapply Forall_impl; [|exact Hw]. auto.
  - now apply gaps_bytes.
  - eapply Forall_impl; [|exact Htrail]. auto.
Qed.

Lemma layout_no_hash (s : gostring) :
  Forall (fun c => wordByte c = true \/ spaceByte c = true) s ->
  ~ In "#"%char s.
Proof.
  intros H Hin. rewrite Forall_forall in H.
  destruct (H _ Hin) as [E|E]; discriminate.
Qed.

Lemma core_ends_with_word (w : gostring) (rest : list (gostring * gostring)) :
  word w -> separated rest ->
  exists u a, w ++ gaps rest = u ++ [a] /\ wordByte a = true.
Proof.
  revert w. induction rest as [|[sep w'] rest IH]; intros w [Hw1 Hw2] Hrest.
  - cbn [gaps]. rewrite app_nil_r.
    destruct (exists_last Hw1) as (u & a & ->). exists u, a.
    apply Forall_app in Hw2 as [_ Hw2]. inversion Hw2; subst. auto.
  - inversion Hrest as [|? ? (_ & _ & Hw') Hrest']; subst. cbn [snd] in *.
    destruct (IH w' Hw' Hrest') as (u & a & E & Ha).
    exists (w ++ sep ++ u), a. split; [|exact Ha].
    cbn [gaps]. rewrite E. now rewrite <- !app_assoc.
Qed.

Lemma TrimSpace_app_spaceByte (line : gostring) (c : ascii) :
  spaceByte c = true ->
  strings.TrimSpace (line ++ [c]) = strings.TrimSpace line.
Proof.
  intros Hc. apply spaceByte_spec in Hc as [Hc1 Hc2].
  unfold strings.TrimSpace, strings.TrimFunc.
  rewrite TrimLeftFunc_app_space by assumption.
  destruct (strings.TrimLeftFunc line unicode.IsSpace) as [|d t];
    [reflexivity|].
  now apply TrimRightFunc_app_space.
Qed.

Lemma TrimSpace_app_spaces (line trail : gostring) :
  spaces trail -> strings.TrimSpace (line ++ trail) = strings.TrimSpace line.
Proof.
  induction trail as [|c trail IH] using rev_ind; intros H.
  - now rewrite app_nil_r.
  - apply Forall_app in H as [Ht Hc]. inversion Hc; subst.
    rewrite app_assoc, TrimSpace_app_spaceByte by assumption. now apply IH.
Qed.

Lemma spaces_TrimLeft (s : gostring) :
  spaces s -> strings.TrimLeftFunc s unicode.IsSpace = [].
Proof.
  induction s as [|c s IH]; intros H; [reflexivity|].
  inversion H as [|? ? Hc Hs]; subst.
  apply spaceByte_spec in Hc as [Hc1 Hc2].
  rewrite TrimLeftFunc_step by discriminate.
  rewrite DecodeRune_ascii by assumption. cbn [fst snd skipn].
  rewrite Hc2. now apply IH.
Qed.

Lemma TrimSpace_layout (lead w : gostring)
  (rest : list (gostring * gostring)) (trail : gostring) :
  spaces lead -> word w -> separated rest -> spaces trail ->
  strings.TrimSpace (lead ++ w ++ gaps rest ++ trail) = w ++ gaps rest.
Proof.
  intros Hlead Hw Hrest Htrail.
  replace (lead ++ w ++ gaps rest ++ trail)
    with ((lead ++ w ++ gaps rest) ++ trail) by now rewrite <- !app_assoc.
  rewrite TrimSpace_app_spaces by assumption.
  unfold strings.TrimSpace, strings.TrimFunc.
  destruct Hw as [Hw1 Hw2]. destruct w as [|a w]; [congruence|].
  inversion Hw2 as [|? ? Ha Hw']; subst.
  pose proof Ha as Ha'. apply wordByte_spec in Ha' as (Ha1 & Ha2 & _).
  cbn [app]. rewrite TrimLeftFunc_app_ascii by assumption.
  rewrite spaces_TrimLeft by assumption. cbn [app].
  destruct (core_ends_with_word (a :: w) rest) as (u & z & E & Hz);
    [split; [discriminate | assumption] | assumption|].
  cbn [app] in E. rewrite E.
  apply wordByte_spec in Hz as (Hz1 & Hz2 & _).
  destruct (TrimRightFunc_after_ascii unicode.IsSpace u [] z Hz1 Hz2)
    as (k & ->).
  now rewrite firstn_nil.
Qed.

(** X14. The layout of a line is free: its words may be separated by any
    run of white-space bytes, spaces and tabs in the files, with such bytes
    before the first word and after the last, and a comment may follow.
    The fields of the line are its words, in order. *)
Theorem fields_of_a_laid_out_line (lead w : gostring)
  (rest : list (gostring * gostring)) (trail : gostring) :
  spaces lead -> word w -> separated rest -> spaces trail ->
  fieldsOf (lead ++ w ++ gaps rest ++ trail) = w :: map snd rest
  /\ (forall comment,
         fieldsOf ((lead ++ w ++ gaps rest ++ trail) ++ "#"%char :: comment)
         = w :: map snd rest).
Proof.
  intros Hlead Hw Hrest Htrail.
  pose proof (layout_bytes lead w rest trail Hlead Hw Hrest Htrail) as Hb.
  split.
  - unfold fieldsOf. rewrite TrimSpace_layout by assumption.
    rewrite cutAt_not_In.
    + pose proof (Fields_layout [] w rest [] ltac:(constructor) Hw Hrest
                    ltac:(constructor)) as H.
      cbn [app] in H. now rewrite app_nil_r in H.
    + apply layout_no_hash.
      rewrite !Forall_app in Hb. rewrite Forall_app. tauto.
  - intros comment. rewrite fieldsOf_comment.
    + now apply Fields_layout.
    + now apply layout_no_hash.
Qed.

Lemma fields_of_a_laid_out_line_witness :
  fieldsOf (str "  tcp" ++ ["009"%char] ++ str "6" ++ ["009"%char; " "%char]
              ++ str "TCP" ++ ["009"%char] ++ str "# transmission control")
  = [str "tcp"; str "6"; str "TCP"].
Proof.
  assert (Hlead : spaces (str "  ")) by (repeat constructor).
  assert (Hw : word (str "tcp"))
    by (split; [discriminate | repeat constructor]).
  assert (Hrest : separated [(["009"%char], str "6");
                             (["009"%char; " "%char], str "TCP")]).
  { repeat constructor; discriminate. }
  assert (Htrail : spaces ["009"%char]) by (repeat constructor).
  destruct (fields_of_a_laid_out_line _ _ _ _ Hlead Hw Hrest Htrail)
    as [_ H].
  exact (H (str " transmission control")).
Defined.

(** ** What a field and a number can be *)

Lemma rangeString_ascii_chunk (s : gostring) :
  Forall (fun rb => forall c, In c (snd rb) -> b c < 0x80 -> fst rb = b c)
         (utf8.rangeString s).
Proof.
  induction s as [|s Hs IH] using rune_ind.
  - constructor.
  - rewrite (rangeString_step s Hs). constructor; [|exact IH].
    cbn [fst snd]. intros c Hin Hc.
    apply (In_nth _ _ zero) in Hin as (p & Hp & E).
    rewrite length_firstn in Hp.
    rewrite nth_firstn in E.
    destruct (Nat.ltb_spec p (snd (utf8.DecodeRuneInString s))) as [Hlt|Hge];
      [|lia].
    assert (Hb : byteAt s p < 0x80) by (unfold byteAt; now rewrite E).
    destruct (DecodeRune_over_ascii s p Hlt Hb) as [-> ->].
    cbn [fst]. unfold byteAt. now rewrite E.
Qed.

Lemma rangeString_chunk_incl (s : gostring) :
  Forall (fun rb => incl (snd rb) s) (utf8.rangeString s).
Proof.
  apply Forall_forall. intros rb Hrb c Hc.
  rewrite <- (rangeString_concat s). apply in_concat.
  exists (snd rb). split; [now apply in_map | exact Hc].
Qed.

Lemma FieldsFunc_loop_Forall (P : ascii -> Prop) (f : Z -> bool)
  (rs : list (Z * gostring)) :
  forall cur,
    Forall (fun rb => f (fst rb) = false -> Forall P (snd rb)) rs ->
    (forall w, cur = Some w -> Forall P w) ->
    Forall (Forall P) (strings.FieldsFunc_loop rs f cur).
Proof.
  induction rs as [|[r bytes] rs IH]; intros cur Hrs Hcur.
  - simpl. destruct cur as [w|]; repeat constructor. now apply Hcur.
  - inversion Hrs as [|? ? Hb Hrs']; subst. cbn [fst snd] in Hb.
    cbn [strings.FieldsFunc_loop]. destruct (f r).
    + destruct cur as [w|].
      * constructor; [now apply Hcur|]. apply IH; auto; discriminate.
      * apply IH; auto; discriminate.
    + destruct cur as [w|]; apply IH; auto; intros w' [= <-]; auto.
      apply Forall_app. split; auto.
Qed.

Lemma Fields_no_space (s : gostring) :
  Forall (Forall (fun c => spaceByte c = false)) (strings.Fields s).
Proof.
  apply FieldsFunc_loop_Forall; [|discriminate].
  eapply Forall_impl; [|apply rangeString_ascii_chunk].
  intros [r bytes] H Hr. cbn [fst snd] in *.
  apply Forall_forall. intros c Hc. unfold spaceByte.
  destruct (Z.ltb_spec (b c) 0x80) as [Hlt|Hge]; [|reflexivity].
  rewrite <- (H c Hc Hlt). exact Hr.
Qed.

Lemma Fields_incl (s : gostring) :
  Forall (fun w => incl w s) (strings.Fields s).
Proof.
  assert (H : Forall (Forall (fun c => In c s)) (strings.Fields s)).
  { apply FieldsFunc_loop_Forall; [|discriminate].
    eapply Forall_impl; [|apply rangeString_chunk_incl].
    intros rb H _. apply Forall_forall. exact H. }
  eapply Forall_impl; [|exact H].
  intros w Hw c. rewrite Forall_forall in Hw. apply Hw.
Qed.

Lemma cutAt_cut (c : ascii) (s : gostring) : ~ In c (cutAt c s).
Proof.
  induction s as [|x s IH]; [intros []|].
  cbn [cutAt]. destruct (Ascii.eqb x c) eqn:E; [intros []|].
  intros [H|H]; [|now apply IH].
  apply Ascii.eqb_neq in E. congruence.
Qed.

Lemma cutAt_incl (c : ascii) (s : gostring) : incl (cutAt c s) s.
Proof.
  induction s as [|x s IH]; [intros ? []|].
  cbn [cutAt]. destruct (Ascii.eqb x c); [intros ? []|].
  intros y [H|H]; [now left | right; now apply IH].
Qed.

Lemma afterCut_incl (c : ascii) (s rest : gostring) :
  afterCut c s = Some rest -> incl rest s.
Proof.
  induction s as [|x s IH]; [discriminate|].
  cbn [afterCut]. destruct (Ascii.eqb x c).
  - intros [= <-] y H. now right.
  - intros H y Hy. right. now apply (IH H).
Qed.

Lemma clean_incl (w u : gostring) : clean u -> incl w u -> clean w.
Proof.
  unfold clean. rewrite !Forall_forall. intros Hu Hw c Hc. auto.
Qed.

Lemma fieldsOf_clean (line : gostring) : Forall clean (fieldsOf line).
Proof.
  unfold fieldsOf. set (s := cutAt "#" (strings.TrimSpace line)).
  pose proof (Fields_no_space s) as H1. pose proof (Fields_incl s) as H2.
  rewrite Forall_forall in *. intros w Hw.
  specialize (H1 w Hw). specialize (H2 w Hw).
  unfold clean. rewrite Forall_forall in *. intros c Hc. split; [auto|].
  intros ->. apply (cutAt_cut "#" (strings.TrimSpace line)).
  now apply H2.
Qed.

Lemma int32Literal_int32 (s : gostring) (z : Z) :
  int32Literal s = Some z -> int32 z.
Proof.
  unfold int32Literal, int32.
  destruct (match s with
            | [] => (false, s)
            | c :: s' =>
                if Ascii.eqb c "+" then (false, s')
                else if Ascii.eqb c "-" then (true, s') else (false, s)
            end) as [neg ds].
  destruct ds as [|d ds]; [discriminate|].
  destruct (decimalValue (d :: ds) 0) as [v|]; [|discriminate].
  destruct ((- 2 ^ 31 <=? (if neg then - v else v))
            && ((if neg then - v else v) <=? 2 ^ 31 - 1)) eqn:E;
    [|discriminate].
  intros [= <-]. apply andb_true_iff in E as [E1 E2]. lia.
Qed.

Lemma ParseInt_int32 (s : gostring) (z : Z) :
  strconv.ParseInt s 10 32 = (z, None) -> int32 z.
Proof.
  intros H. pose proof (ParseInt_int32Literal s) as L.
  destruct (int32Literal s) as [z'|] eqn:E.
  - rewrite H in L. injection L as <-. now apply (int32Literal_int32 s).
  - destruct L as (v & e & L). rewrite H in L. discriminate.
Qed.

Lemma protocolLine_clean (line : gostring) (g g' : Globals) :
  tablesClean g -> protocolLine line g = Returned tt g' -> tablesClean g'.
Proof.
  intros [Hp Hs] H.
  destruct (Nat.lt_ge_cases (length (fieldsOf line)) 2) as [Hlen|Hlen].
  - rewrite protocolLine_short in H by assumption. now injection H as <-.
  - rewrite protocolLine_long in H by assumption.
    destruct (strconv.ParseInt _ 10 32) as [num [e|]] eqn:En; [discriminate|].
    injection H as <-. split; [|exact Hs]. cbn [Protocols].
    apply Forall_app. split; [exact Hp|]. constructor; [|constructor].
    pose proof (fieldsOf_clean line) as Hc.
    split; [|split].
    + change (clean (nth 0 (fieldsOf line) [])).
      rewrite Forall_forall in Hc. apply Hc, nth_In. lia.
    + change (Forall clean (skipn 2 (fieldsOf line))).
      now apply Forall_skipn.
    + exact (ParseInt_int32 _ _ En).
Qed.

Lemma serviceLine_clean (line : gostring) (g g' : Globals) :
  tablesClean g -> serviceLine line g = Returned tt g' -> tablesClean g'.
Proof.
  intros [Hp Hs] H.
  destruct (Nat.lt_ge_cases (length (fieldsOf line)) 2) as [Hlen|Hlen].
  - rewrite serviceLine_short in H by assumption. now injection H as <-.
  - rewrite serviceLine_long in H by assumption.
    destruct (strconv.ParseInt _ 10 32) as [port [e|]] eqn:En; [discriminate|].
    destruct (afterCut "/" _) as [proto|] eqn:Ea; [|discriminate].
    injection H as <-. split; [exact Hp|]. cbn [Services].
    apply Forall_app. split; [exact Hs|]. constructor; [|constructor].
    pose proof (fieldsOf_clean line) as Hc.
    split; [|split; [|split]].
    + change (clean (nth 0 (fieldsOf line) [])).
      rewrite Forall_forall in Hc. apply Hc, nth_In. lia.
    + change (Forall clean (skipn 2 (fieldsOf line))).
      now apply Forall_skipn.
    + exact (ParseInt_int32 _ _ En).
    + change (clean proto).
      apply (clean_incl _ (nth 1 (fieldsOf line) [])).
      * rewrite Forall_forall in Hc. apply Hc, nth_In. lia.
      * exact (afterCut_incl _ _ _ Ea).
Qed.

Lemma init_clean (fs : ioutil.FileSystem) (g : Globals) :
  init fs startup = Returned tt g -> tablesClean g.
Proof.
  intros H.
  apply init_Returned in H as (pdata & sdata & g1 & _ & _ & H1 & H2).
  rewrite loadServices_lines in H2. rewrite loadProtocols_lines in H1.
  eapply (forRange_invariant tablesClean); [| |exact H2].
  - intros x ga gb. apply serviceLine_clean.
  - eapply (forRange_invariant tablesClean); [| |exact H1].
    + intros x ga gb. apply protocolLine_clean.
    + split; constructor.
Qed.

Lemma find_none_of {A : Type} (p : A -> bool) (zero : A) (l : list A) :
  (forall x, In x l -> p x = false) -> found zero (find p l) = (zero, false).
Proof.
  intros H. destruct (find p l) as [r|] eqn:E; [|reflexivity].
  apply find_some in E as [Hin Hr]. rewrite (H r Hin) in Hr. discriminate.
Qed.

(** X15. After [init] returned, the strings of the tables are fields of
    lines and the numbers are what [ParseInt(_, 10, 32)] accepted: no name,
    alias or protocol holds a white-space byte or a [#], and every number
    and port lies in the range of [int32].  So a lookup by a number outside
    that range, by a name that is not such a string or, for the services,
    under a non-empty protocol that is not such a string, finds nothing. *)
Theorem loaded_records_are_clean (fs : ioutil.FileSystem) (g : Globals) :
  init fs startup = Returned tt g ->
  Forall protoClean (Protocols g)
  /\ Forall servClean (Services g)
  /\ (forall num, ~ int32 num ->
        GetProtoByNumber g num = (Protoent.zero, false)
        /\ forall protocol,
             GetServByPort g num protocol = (Servent.zero, false))
  /\ (forall name, ~ clean name ->
        GetProtoByName g name = (Protoent.zero, false)
        /\ forall protocol,
             GetServByName g name protocol = (Servent.zero, false))
  /\ (forall protocol, protocol <> [] -> ~ clean protocol ->
        (forall name, GetServByName g name protocol = (Servent.zero, false))
        /\ (forall port,
              GetServByPort g port protocol = (Servent.zero, false))).
Proof.
  intros H. destruct (init_clean fs g H) as [Hp Hs].
  rewrite Forall_forall in Hp, Hs.
  assert (Hnamed : forall name p, In p (Protocols g) -> ~ clean name ->
                     protoNamedb name p = false).
  { intros name p Hin Hn. destruct (protoNamedb name p) eqn:E; auto.
    apply protoNamedb_spec in E. destruct (Hp p Hin) as (H1 & H2 & _).
    destruct E as [E|E]; [congruence|].
    rewrite Forall_forall in H2. elim Hn. now apply H2. }
  assert (Hsnamed : forall name s, In s (Services g) -> ~ clean name ->
                      servNamedb name s = false).
  { intros name s Hin Hn. destruct (servNamedb name s) eqn:E; auto.
    apply servNamedb_spec in E. destruct (Hs s Hin) as (H1 & H2 & _).
    destruct E as [E|E]; [congruence|].
    rewrite Forall_forall in H2. elim Hn. now apply H2. }
  assert (Hallowed : forall protocol s, In s (Services g) ->
                       protocol <> [] -> ~ clean protocol ->
                       servAllowedb protocol s = false).
  { intros protocol s Hin Hne Hn. destruct (servAllowedb protocol s) eqn:E; auto.
    apply servAllowedb_spec in E. destruct (Hs s Hin) as (_ & _ & _ & H4).
    destruct E as [E|E]; congruence. }
  unfold GetProtoByNumber, GetProtoByName, GetServByName, GetServByPort.
  conjs.
  - now apply Forall_forall.
  - now apply Forall_forall.
  - intros num Hnum. split.
    + rewrite GetProtoByNumber_loop_find. apply find_none_of.
      intros p Hin. destruct (Hp p Hin) as (_ & _ & H3).
      apply Z.eqb_neq. congruence.
    + intros protocol. rewrite GetServByPort_loop_find. apply find_none_of.
      intros s Hin. destruct (Hs s Hin) as (_ & _ & H3 & _).
      apply andb_false_iff. right. apply Z.eqb_neq. congruence.
  - intros name Hname. split.
    + rewrite GetProtoByName_loop_find. apply find_none_of. auto.
    + intros protocol. rewrite GetServByName_loop_find. apply find_none_of.
      intros s Hin. apply andb_false_iff. right. auto.
  - intros protocol Hne Hprotocol. split.
    + intros name. rewrite GetServByName_loop_find. apply find_none_of.
      intros s Hin. apply andb_false_iff. left. auto.
    + intros port. rewrite GetServByPort_loop_find. apply find_none_of.
      intros s Hin. apply andb_false_iff. left. auto.
Qed.

Lemma loaded_records_are_clean_witness :
  init sample_files startup = Returned tt sample_loaded
  /\ Forall servClean (Services sample_loaded)
  /\ GetProtoByNumber sample_loaded (2 ^ 31) = (Protoent.zero, false)
  /\ GetServByName sample_loaded (str "http ") [] = (Servent.zero, false).
Proof.
  assert (H : init sample_files startup = Returned tt sample_loaded)
    by (vm_compute; reflexivity).
  destruct (loaded_records_are_clean sample_files sample_loaded H)
    as (_ & Hs & Hnum & Hname & _).
  conjs.
  - exact H.
  - exact Hs.
  - apply Hnum. unfold int32. lia.
  - apply Hname. intros Hc. unfold clean in Hc. rewrite Forall_forall in Hc.
    destruct (Hc " "%char) as [E _]; [in_list | discriminate].
Defined.

(** ** Numbers in base 10 *)

Lemma digitValue_digit (d : Z) : 0 <= d <= 9 -> digitValue (digit d) = Some d.
Proof.
  intros H.
  assert (E : d = 0 \/ d = 1 \/ d = 2 \/ d = 3 \/ d = 4 \/ d = 5 \/ d = 6
              \/ d = 7 \/ d = 8 \/ d = 9) by lia.
  repeat destruct E as [->|E]; try subst d; reflexivity.
Qed.

Lemma decimalValue_app (xs ys : gostring) :
  forall acc,
    decimalValue (xs ++ ys) acc
    = match decimalValue xs acc with
      | Some v => decimalValue ys v
      | None => None
      end.
Proof.
  induction xs as [|c xs IH]; intros acc; [reflexivity|].
  cbn [app decimalValue]. destruct (digitValue c); [apply IH | reflexivity].
Qed.

Lemma digitsOf_value (fuel : nat) :
  forall n, 0 <= n < 10 ^ Z.of_nat (S fuel) ->
            decimalValue (digitsOf fuel n) 0 = Some n.
Proof.
  induction fuel as [|fuel IH]; intros n Hn.
  - change (10 ^ Z.of_nat 1) with 10 in Hn.
    cbn [digitsOf decimalValue]. rewrite digitValue_digit by lia.
    f_equal; lia.
  - cbn [digitsOf]. destruct (Z.ltb_spec n 10) as [Hlt|Hge].
    + cbn [decimalValue]. rewrite digitValue_digit by lia. f_equal; lia.
    + rewrite decimalValue_app, IH.
      * cbn [decimalValue].
        pose proof (Z.mod_pos_bound n 10 ltac:(lia)) as Hm.
        rewrite digitValue_digit by lia. f_equal.
        pose proof (Z.div_mod n 10 ltac:(lia)). lia.
      * rewrite Nat2Z.inj_succ, Z.pow_succ_r in Hn by lia.
        split; [apply Z.div_pos; lia|].
        apply Z.div_lt_upper_bound; lia.
Qed.

Lemma digitsOf_nonempty (fuel : nat) (n : Z) : digitsOf fuel n <> [].
Proof.
  destruct fuel as [|fuel]; cbn [digitsOf]; [discriminate|].
  destruct (n <? 10); [discriminate|].
  intros E. apply app_eq_nil in E as [_ E]. discriminate.
Qed.

Lemma digits_bound (n : Z) :
  0 <= n -> n < 10 ^ Z.of_nat (S (Z.to_nat (Z.log2 n))).
Proof.
  intros Hn. rewrite Nat2Z.inj_succ, Z2Nat.id by apply Z.log2_nonneg.
  destruct (Z.eq_dec n 0) as [->|Hz]; [reflexivity|].
  pose proof (Z.log2_spec n ltac:(lia)) as [_ H].
  pose proof (Z.log2_nonneg n) as Hl.
  assert (2 ^ Z.succ (Z.log2 n) <= 10 ^ Z.succ (Z.log2 n))
    by (apply Z.pow_le_mono_l; lia).
  lia.
Qed.

(** The digits and the sign of [decimal z]. *)
Lemma decimal_digits (z : Z) :
  exists ds,
    ds <> [] /\ decimalValue ds 0 = Some (Z.abs z)
    /\ decimal z = if z <? 0 then "-"%char :: ds else ds.
Proof.
  unfold decimal. destruct (Z.ltb_spec z 0) as [Hlt|Hge].
  - exists (digitsOf (Z.to_nat (Z.log2 (- z))) (- z)). conjs.
    + apply digitsOf_nonempty.
    + rewrite digitsOf_value by (split; [lia | apply digits_bound; lia]).
      f_equal; lia.
    + reflexivity.
  - exists (digitsOf (Z.to_nat (Z.log2 z)) z). conjs.
    + apply digitsOf_nonempty.
    + rewrite digitsOf_value by (split; [lia | apply digits_bound; lia]).
      f_equal; lia.
    + reflexivity.
Qed.

Lemma first_digit_no_sign (c : ascii) (ds : gostring) (v : Z) :
  decimalValue (c :: ds) 0 = Some v ->
  Ascii.eqb c "+" = false /\ Ascii.eqb c "-" = false.
Proof.
  cbn [decimalValue]. intros H. split.
  - destruct (Ascii.eqb c "+") eqn:E; [|reflexivity].
    apply Ascii.eqb_eq in E. subst c. discriminate.
  - destruct (Ascii.eqb c "-") eqn:E; [|reflexivity].
    apply Ascii.eqb_eq in E. subst c. discriminate.
Qed.

(** [ParseInt] on an optional [-] and digits: the value when it fits 32
    bits, and else the nearest bound with a range error. *)
Lemma ParseInt_digits (neg : bool) (ds : gostring) (v : Z) :
  ds <> [] -> decimalValue ds 0 = Some v ->
  let s := if neg then "-"%char :: ds else ds in
  let z := if neg then - v else v in
  strconv.ParseInt s 10 32
  = if (- 2 ^ 31 <=? z) && (z <=? 2 ^ 31 - 1) then (z, None)
    else ((if neg then - 2 ^ 31 else 2 ^ 31 - 1),
          Some (strconv.rangeError "ParseInt" s)).
Proof.
  intros Hds Ev s z.
  pose proof (ParseUint_decimal ds Hds) as Hu. cbn zeta in Hu.
  rewrite Ev in Hu.
  pose proof (decimalValue_ge ds 0 v ltac:(lia) Ev) as Hv.
  assert (Hparse : strconv.ParseInt s 10 32
    = let '(un, err) := strconv.ParseUint ds 10 32 in
      match match err with
            | Some e => match strconv.Err e with
                        | strconv.ErrRange => None
                        | strconv.ErrSyntax =>
                            Some (strconv.mkNumError "ParseInt" s
                                    (strconv.Err e))
                        end
            | None => None
            end with
      | Some e => (0, Some e)
      | None =>
          if negb neg && (2147483648 <=? un)
          then (2147483647, Some (strconv.rangeError "ParseInt" s))
          else if neg && (2147483648 <? un)
          then (-2147483648, Some (strconv.rangeError "ParseInt" s))
          else ((if neg then - un else un), None)
      end).
  { subst s. destruct neg.
    - unfold strconv.ParseInt.
      change (Ascii.eqb "-" "+") with false.
      change (Ascii.eqb "-" "-") with true.
      reflexivity.
    - destruct ds as [|c ds]; [congruence|].
      destruct (first_digit_no_sign c ds v Ev) as [Ep Em].
      unfold strconv.ParseInt. rewrite Ep, Em. reflexivity. }
  rewrite Hparse. clear Hparse.
  change (- 2 ^ 31) with (-2147483648). change (2 ^ 31 - 1) with 2147483647.
  subst z.
  destruct (v <=? 4294967295) eqn:Hle; rewrite Hu; cbn iota beta.
  - apply Z.leb_le in Hle. destruct neg; cbn [negb andb].
    + destruct (2147483648 <? v) eqn:Hc.
      * apply Z.ltb_lt in Hc.
        replace ((-2147483648 <=? - v) && (- v <=? 2147483647)) with false
          by (symmetry; apply andb_false_iff; left; apply Z.leb_gt; lia).
        reflexivity.
      * apply Z.ltb_ge in Hc.
        replace ((-2147483648 <=? - v) && (- v <=? 2147483647)) with true
          by (symmetry; apply andb_true_iff; split; apply Z.leb_le; lia).
        reflexivity.
    + destruct (2147483648 <=? v) eqn:Hc.
      * apply Z.leb_le in Hc.
        replace ((-2147483648 <=? v) && (v <=? 2147483647)) with false
          by (symmetry; apply andb_false_iff; right; apply Z.leb_gt; lia).
        reflexivity.
      * apply Z.leb_gt in Hc.
        replace ((-2147483648 <=? v) && (v <=? 2147483647)) with true
          by (symmetry; apply andb_true_iff; split; apply Z.leb_le; lia).
        reflexivity.
  - apply Z.leb_gt in Hle. cbn [strconv.rangeError strconv.Err].
    destruct neg; cbn [negb andb].
    + replace ((-2147483648 <=? - v) && (- v <=? 2147483647)) with false
        by (symmetry; apply andb_false_iff; left; apply Z.leb_gt; lia).
      reflexivity.
    + replace ((-2147483648 <=? v) && (v <=? 2147483647)) with false
        by (symmetry; apply andb_false_iff; right; apply Z.leb_gt; lia).
      reflexivity.
Qed.

Lemma int32_dec (z : Z) :
  (- 2 ^ 31 <=? z) && (z <=? 2 ^ 31 - 1) = true <-> int32 z.
Proof. unfold int32. rewrite andb_true_iff, !Z.leb_le. tauto. Qed.

Lemma ParseInt_decimal (z : Z) :
  strconv.ParseInt (decimal z) 10 32
  = if (- 2 ^ 31 <=? z) && (z <=? 2 ^ 31 - 1) then (z, None)
    else ((if z <? 0 then - 2 ^ 31 else 2 ^ 31 - 1),
          Some (strconv.rangeError "ParseInt" (decimal z))).
Proof.
  destruct (decimal_digits z) as (ds & Hds & Ev & ->).
  pose proof (ParseInt_digits (z <? 0) ds (Z.abs z) Hds Ev) as H.
  cbv zeta in H.
  assert (Ez : (if z <? 0 then - Z.abs z else Z.abs z) = z)
    by (destruct (Z.ltb_spec z 0); lia).
  rewrite Ez in H. exact H.
Qed.

Lemma decimal_word (z : Z) : word (decimal z) /\ ~ In "/"%char (decimal z).
Proof.
  destruct (decimal_digits z) as (ds & Hds & Ev & ->).
  pose proof (decimalValue_digits ds 0 _ Ev) as Hw.
  pose proof (decimalValue_no_slash ds 0 _ Ev) as Hs.
  destruct (z <? 0).
  - split; [split; [discriminate | constructor; [reflexivity | exact Hw]]|].
    intros [E|E]; [discriminate | contradiction].
  - split; [split; assumption | assumption].
Qed.

Lemma int32Literal_decimal (z : Z) :
  int32 z -> int32Literal (decimal z) = Some z.
Proof.
  intros Hz. pose proof (ParseInt_int32Literal (decimal z)) as L.
  rewrite ParseInt_decimal in L.
  rewrite (proj2 (int32_dec z) Hz) in L.
  destruct (int32Literal (decimal z)) as [z'|].
  - now injection L as ->.
  - destruct L as (v & e & L). discriminate.
Qed.

(** X16. A number is read as a 32-bit integer and as nothing more.
    Every value of [int32] written in base 10, negative ones and ports
    above 65535 as well, loads as that value in a protocol line and in a
    service line.  An integer outside the range of [int32] makes the load
    panic with the range error of [ParseInt] on its text, and the tables
    stay empty. *)
Theorem decimal_numbers_load (name : gostring) (aliases : list gostring)
  (proto : gostring) (z : Z) :
  word name -> Forall word aliases ->
  Forall (fun c => wordByte c = true) proto ->
  let pline := unwords (name :: decimal z :: aliases) in
  let sline := unwords (name :: (decimal z ++ "/"%char :: proto) :: aliases) in
  let e := ErrorValue (NumErr (strconv.rangeError "ParseInt" (decimal z))) in
  (int32 z ->
   loadProtocols pline startup
   = Returned tt (mkGlobals [Protoent.mk name aliases z] [])
   /\ loadServices sline startup
      = Returned tt (mkGlobals [] [Servent.mk name aliases z proto]))
  /\ (~ int32 z ->
      loadProtocols pline startup = Panicked e startup
      /\ loadServices sline startup = Panicked e startup).
Proof.
  intros Hname Haliases Hproto pline sline e.
  destruct (decimal_word z) as [Hw Hslash].
  assert (Hsecond : word (decimal z ++ "/"%char :: proto)).
  { destruct Hw as [Hw1 Hw2]. split; [destruct (decimal z); discriminate|].
    apply Forall_app. split; [exact Hw2|].
    constructor; [reflexivity | exact Hproto]. }
  assert (Hpf : fieldsOf pline = name :: decimal z :: aliases)
    by (apply fieldsOf_unwords; repeat (constructor; auto)).
  assert (Hsf : fieldsOf sline
                = name :: (decimal z ++ "/"%char :: proto) :: aliases)
    by (apply fieldsOf_unwords; repeat (constructor; auto)).
  assert (Hplf : ~ In LF pline)
    by (apply unwords_no_LF; repeat (constructor; auto)).
  assert (Hslf : ~ In LF sline)
    by (apply unwords_no_LF; repeat (constructor; auto)).
  assert (Hpline : protocolLine pline startup
            = match strconv.ParseInt (decimal z) 10 32 with
              | (_, Some e) => Panicked (ErrorValue (NumErr e)) startup
              | (num, None) =>
                  Returned tt (mkGlobals [Protoent.mk name aliases num] [])
              end).
  { rewrite protocolLine_long by (rewrite Hpf; simpl; lia).
    rewrite Hpf. reflexivity. }
  assert (Hsline : serviceLine sline startup
            = match strconv.ParseInt (decimal z) 10 32 with
              | (_, Some e) => Panicked (ErrorValue (NumErr e)) startup
              | (port, None) =>
                  Returned tt
                    (mkGlobals [] [Servent.mk name aliases port proto])
              end).
  { rewrite serviceLine_long by (rewrite Hsf; simpl; lia).
    rewrite Hsf. cbn [nth skipn].
    rewrite cutAt_app, afterCut_app by assumption. reflexivity. }
  rewrite loadProtocols_lines, loadServices_lines.
  rewrite !linesOf_single by assumption.
  cbn [forRange]. unfold bind. rewrite Hpline, Hsline, ParseInt_decimal.
  split; intros Hz.
  - rewrite (proj2 (int32_dec z) Hz). split; reflexivity.
  - destruct ((- 2 ^ 31 <=? z) && (z <=? 2 ^ 31 - 1)) eqn:E.
    + apply int32_dec in E. contradiction.
    + split; reflexivity.
Qed.

Lemma decimal_numbers_load_witness :
  loadServices (str "big 70000/tcp") startup
  = Returned tt (mkGlobals [] [Servent.mk (str "big") [] 70000 (str "tcp")])
  /\ loadProtocols (str "far 2147483648 FAR") startup
     = Panicked (ErrorValue
                   (NumErr (strconv.rangeError "ParseInt" (str "2147483648"))))
                startup.
Proof.
  assert (Hname : word (str "big"))
    by (split; [discriminate | repeat constructor]).
  assert (Hproto : Forall (fun c => wordByte c = true) (str "tcp"))
    by (repeat constructor).
  assert (Hfar : word (str "far"))
    by (split; [discriminate | repeat constructor]).
  assert (HFAR : Forall word [str "FAR"]).
  { constructor; [|constructor]. split; [discriminate | repeat constructor]. }
  destruct (decimal_numbers_load (str "big") [] (str "tcp") 70000
              Hname (Forall_nil _) Hproto) as [Hin _].
  destruct (decimal_numbers_load (str "far") [str "FAR"] [] 2147483648
              Hfar HFAR (Forall_nil _)) as [_ Hout].
  split.
  - apply Hin. unfold int32. lia.
  - apply Hout. unfold int32. lia.
Defined.
